(** * NiaPy: self-adaptive differential evolution (jDE)

    A shallow embedding of [NiaPy/algorithms/modified/jde.py]: the candidate
    class [SolutionjDE] and the engine
    [SelfAdaptiveDifferentialEvolutionAlgorithm].

    Conventions of the embedding.
    - Python floats are idealised as rationals ([Q]); the only non-finite
      float the source creates, [float('inf')], is the constructor [Inf] of
      [fitness].
    - Python ints ([D], [NP], [nFES]) are [Z]; indices produced by [range]
      are [nat].
    - The generator behind [rnd.random()] is a tape [nat -> Q] read at a
      cursor; every call advances the cursor by one.
    - Exceptions are the [Raise] outcome; a loop that has no bound in the
      source takes fuel and yields [OutOfFuel] when it is used up.
    - An instance attribute that may be absent on the engine object
      ([Tao], [F], [Cr]: the constructor never assigns them) is an [option];
      reading an absent one raises [AttributeError]. *)

From Stdlib Require Import ZArith QArith Lia Lqa String List.
From stdpp Require Import base list.
Import ListNotations.

Local Open Scope Z_scope.
Local Open Scope nat_scope.

(** ** Numbers *)

(** [x < y] on floats, as a boolean. *)
Definition Qltb (x y : Q) : bool := negb (Qle_bool y x).

(** Python's [int(x)] on a float: truncation toward zero. *)
Definition int (x : Q) : Z := Z.quot (Qnum x) (Zpos (Qden x)).

(** A fitness value: a finite float or [float('inf')]. *)
Inductive fitness : Type :=
| Finite (q : Q)
| Inf.

(** [a < b] on fitness values. *)
Definition fit_ltb (a b : fitness) : bool :=
  match a, b with
  | Finite x, Finite y => Qltb x y
  | Finite _, Inf => true
  | Inf, _ => false
  end.

(** [a <= b] on fitness values, as a proposition. *)
Definition fit_le (a b : fitness) : Prop :=
  match a, b with
  | Finite x, Finite y => (x <= y)%Q
  | _, Inf => True
  | Inf, Finite _ => False
  end.

(** ** Effects: random tape, evaluation log, exceptions *)

Inductive exn : Type :=
| AttributeError (attr : string)
| IndexError
| ValueError.

(** The part of the program state that is not an object field: the position
    on the random tape, and two observation logs (newest entry first) that
    no code path reads: every value returned by the objective function, and
    the value of [bestSolution.Fitness] after each comparison against it. *)
Record world : Type := mkWorld {
  cursor : nat;
  evals : list Q;
  bests : list fitness
}.

Inductive outcome (A : Type) : Type :=
| Ok (a : A) (w : world)
| Raise (x : exn) (w : world)
| OutOfFuel.
Arguments Ok {A} a w.
Arguments Raise {A} x w.
Arguments OutOfFuel {A}.

Definition M (A : Type) : Type := world -> outcome A.

Definition ret {A} (a : A) : M A := fun w => Ok a w.

Definition bind {A B} (m : M A) (k : A -> M B) : M B :=
  fun w =>
    match m w with
    | Ok a w' => k a w'
    | Raise x w' => Raise x w'
    | OutOfFuel => OutOfFuel
    end.

Definition raise {A} (x : exn) : M A := fun w => Raise x w.

Notation "x <- c1 ;; c2" := (bind c1 (fun x => c2))
  (at level 100, c1 at next level, right associativity).

(** [for x in xs: a = body(x, a)] *)
Fixpoint for_each {X A} (xs : list X) (body : X -> A -> M A) (a : A) : M A :=
  match xs with
  | [] => ret a
  | x :: xs' => a' <- body x a ;; for_each xs' body a'
  end.

(** [range(n)]: empty when [n <= 0]. *)
Definition range (n : Z) : list nat := seq 0 (Z.to_nat n).

(** [l[i]] for an index that came out of [range]. *)
Definition getitem {A} (l : list A) (i : nat) : M A :=
  match l !! i with
  | Some x => ret x
  | None => raise IndexError
  end.

(** [l[i] = v] for an index that came out of [range]. *)
Definition setitem {A} (l : list A) (i : nat) (v : A) : M (list A) :=
  if Nat.ltb i (length l) then ret (<[i := v]> l) else raise IndexError.

(** Python's normalisation of a possibly negative index. *)
Definition norm_index (len : nat) (z : Z) : option nat :=
  if (0 <=? z)%Z && (z <? Z.of_nat len)%Z then Some (Z.to_nat z)
  else if (- Z.of_nat len <=? z)%Z && (z <? 0)%Z then Some (Z.to_nat (Z.of_nat len + z))
  else None.

(** [l[z]] and [l[z] = v] for a computed integer index. *)
Definition getitemZ {A} (l : list A) (z : Z) : M A :=
  match norm_index (length l) z with
  | Some i => getitem l i
  | None => raise IndexError
  end.

Definition setitemZ {A} (l : list A) (z : Z) (v : A) : M (list A) :=
  match norm_index (length l) z with
  | Some i => setitem l i v
  | None => raise IndexError
  end.

(** [obj.attr] for an attribute that may be absent. *)
Definition getattr (attr : string) (o : option Q) : M Q :=
  match o with
  | Some v => ret v
  | None => raise (AttributeError attr)
  end.

Section JDE.

(** The random tape and the objective function bound by the engine's
    constructor ([SolutionjDE.FuncEval = staticmethod(function)]). *)
Variable tape : nat -> Q.
Variable FuncEval : Z -> list Q -> Q.

(** [rnd.random()] *)
Definition random : M Q :=
  fun w => Ok (tape (cursor w)) (mkWorld (S (cursor w)) (evals w) (bests w)).

(** [[rnd.random() for _ in range(n)]], drawn left to right. *)
Fixpoint randoms (n : nat) : M (list Q) :=
  match n with
  | O => ret []
  | S k => u <- random ;; us <- randoms k ;; ret (u :: us)
  end.

(** ** class SolutionjDE *)

Record SolutionjDE : Type := mkSolution {
  sD : Z;
  LB : Q;
  UB : Q;
  sF : Q;
  sCr : Q;
  Solution : list Q;
  Fitness : fitness
}.

Definition set_Solution (c : SolutionjDE) (v : list Q) : SolutionjDE :=
  mkSolution (sD c) (LB c) (UB c) (sF c) (sCr c) v (Fitness c).
Definition set_Fitness (c : SolutionjDE) (f : fitness) : SolutionjDE :=
  mkSolution (sD c) (LB c) (UB c) (sF c) (sCr c) (Solution c) f.
Definition set_F (c : SolutionjDE) (f : Q) : SolutionjDE :=
  mkSolution (sD c) (LB c) (UB c) f (sCr c) (Solution c) (Fitness c).
Definition set_Cr (c : SolutionjDE) (cr : Q) : SolutionjDE :=
  mkSolution (sD c) (LB c) (UB c) (sF c) cr (Solution c) (Fitness c).

(** [generateSolution]:
    [self.Solution = [LB + (UB - LB) * rnd.random() for _i in range(D)]] *)
Definition generateSolution (c : SolutionjDE) : M SolutionjDE :=
  us <- randoms (Z.to_nat (sD c)) ;;
  ret (set_Solution c (map (fun u => (LB c + (UB c - LB c) * u)%Q) us)).

(** [SolutionjDE(D, LB, UB)] *)
Definition SolutionjDE_init (d : Z) (lb ub : Q) : M SolutionjDE :=
  generateSolution (mkSolution d lb ub (1 # 2) (9 # 10) [] Inf).

(** [evaluate]: one call of the objective function. *)
Definition evaluate (c : SolutionjDE) : M SolutionjDE :=
  fun w =>
    let f := FuncEval (sD c) (Solution c) in
    Ok (set_Fitness c (Finite f)) (mkWorld (cursor w) (f :: evals w) (bests w)).

(** One round of the loop of [repair]: two independent [if]s, the second
    reading the component again. *)
Definition repair_at (i : nat) (c : SolutionjDE) : M SolutionjDE :=
  x <- getitem (Solution c) i ;;
  c1 <- (if Qltb (UB c) x
         then v <- setitem (Solution c) i (UB c) ;; ret (set_Solution c v)
         else ret c) ;;
  y <- getitem (Solution c1) i ;;
  if Qltb y (LB c1)
  then v <- setitem (Solution c1) i (LB c1) ;; ret (set_Solution c1 v)
  else ret c1.

(** [repair] *)
Definition repair (c : SolutionjDE) : M SolutionjDE :=
  for_each (range (sD c)) repair_at c.

(** [__eq__]: [self.Solution == other.Solution and
    self.Fitness == other.Fitness]. Lists are equal when they have the same
    length and equal items; [Qeq_bool] is [==] on floats. *)
Fixpoint list_eqb (a b : list Q) : bool :=
  match a, b with
  | [], [] => true
  | x :: a', y :: b' => Qeq_bool x y && list_eqb a' b'
  | _, _ => false
  end.

Definition fit_eqb (a b : fitness) : bool :=
  match a, b with
  | Finite x, Finite y => Qeq_bool x y
  | Inf, Inf => true
  | _, _ => false
  end.

Definition SolutionjDE_eq (c other : SolutionjDE) : bool :=
  list_eqb (Solution c) (Solution other) && fit_eqb (Fitness c) (Fitness other).

(** Every candidate the program builds carries exactly [D] components. *)
Definition wf_solution (c : SolutionjDE) : Prop :=
  length (Solution c) = Z.to_nat (sD c).

(** What [repair] does to one component when read as a function. *)
Definition clamp (lb ub x : Q) : Q :=
  let x1 := if Qltb ub x then ub else x in
  if Qltb x1 lb then lb else x1.

(** ** class SelfAdaptiveDifferentialEvolutionAlgorithm *)

(** The engine object. [Tao], [F] and [Cr] are read by [generationStep] as
    [self.Tao], [self.F], [self.Cr]; [None] is an absent attribute. *)
Record jDE : Type := mkEngine {
  D : Z;
  Np : Z;
  nFES : Z;
  Lower : Q;
  Upper : Q;
  Population : list SolutionjDE;
  bestSolution : SolutionjDE;
  Tao : option Q;
  F : option Q;
  Cr : option Q
}.

Definition set_Population (self : jDE) (p : list SolutionjDE) : jDE :=
  mkEngine (D self) (Np self) (nFES self) (Lower self) (Upper self) p
           (bestSolution self) (Tao self) (F self) (Cr self).
Definition set_bestSolution (self : jDE) (b : SolutionjDE) : jDE :=
  mkEngine (D self) (Np self) (nFES self) (Lower self) (Upper self) (Population self)
           b (Tao self) (F self) (Cr self).

(** [__init__(self, D, NP, nFES, F, Cr, Lower, Upper, function)]: the
    arguments [F] and [Cr] are not stored, and nothing is checked;
    [function] is what this section calls [FuncEval]. *)
Definition jDE_init (d np nfes : Z) (f cr lower upper : Q) : M jDE :=
  best <- SolutionjDE_init d lower upper ;;
  ret (mkEngine d np nfes lower upper [] best None None None).

(** [if c.Fitness < self.bestSolution.Fitness:
       self.bestSolution = copy.deepcopy(c)]
    (a value has no identity here, so the deep copy is the value itself). *)
Definition update_best (c : SolutionjDE) (self : jDE) : M jDE :=
  fun w =>
    let self' := if fit_ltb (Fitness c) (Fitness (bestSolution self))
                 then set_bestSolution self c else self in
    Ok self' (mkWorld (cursor w) (evals w) (Fitness (bestSolution self') :: bests w)).

(** One round of [evalPopulation]: [p] is evaluated in place. *)
Definition evalPopulation_at (k : nat) (self : jDE) : M jDE :=
  p <- getitem (Population self) k ;;
  p' <- evaluate p ;;
  update_best p' (set_Population self (<[k := p']> (Population self))).

(** [evalPopulation]: [for p in self.Population]. *)
Definition evalPopulation (self : jDE) : M jDE :=
  for_each (seq 0 (length (Population self))) evalPopulation_at self.

(** [initPopulation]: [NP] candidates appended to [self.Population]. *)
Definition initPopulation (self : jDE) : M jDE :=
  for_each (range (Np self))
    (fun _ self =>
       c <- SolutionjDE_init (D self) (Lower self) (Upper self) ;;
       ret (set_Population self (Population self ++ [c])))
    self.

(** *** [rnd.sample(population, k)]

    The library routine, as its selection-from-a-pool scheme:
    [j = int(random() * (n-i)); result[i] = pool[j]; pool[j] = pool[n-i-1]],
    with [ValueError] when [k] exceeds the population. Only its contract is
    used below: [k] pairwise distinct members of the population. *)
Definition sample_pick (i : nat) (st : list nat * list nat) : M (list nat * list nat) :=
  let pool := fst st in
  let n := length pool in
  u <- random ;;
  let j := int (u * inject_Z (Z.of_nat (n - i)))%Q in
  x <- getitemZ pool j ;;
  y <- getitem pool (n - i - 1) ;;
  pool' <- setitemZ pool j y ;;
  ret (pool', snd st ++ [x]).

Definition sample (population : list nat) (k : nat) : M (list nat) :=
  if Nat.leb k (length population)
  then st <- for_each (seq 0 k) sample_pick (population, []) ;; ret (snd st)
  else raise ValueError.

(** [i in r] *)
Definition contains (i : nat) (r : list nat) : bool := existsb (Nat.eqb i) r.

(** [while i in r: r = rnd.sample(range(0, self.Np), 3)] *)
Fixpoint resample (fuel : nat) (np : Z) (i : nat) (r : list nat) : M (list nat) :=
  if contains i r
  then match fuel with
       | O => fun _ => OutOfFuel
       | S fuel' => r' <- sample (range np) 3 ;; resample fuel' np i r'
       end
  else ret r.

(** The donor indices of the offspring at parent index [i]. *)
Definition pickDonors (fuel : nat) (self : jDE) (i : nat) : M (list nat) :=
  r <- sample (range (Np self)) 3 ;;
  resample fuel (Np self) i r.

(** [pop[r[k]].Solution[j]] *)
Definition donor_value (pop : list SolutionjDE) (r : list nat) (k j : nat) : M Q :=
  rk <- getitem r k ;;
  p <- getitem pop rk ;;
  getitem (Solution p) j.

(** One round of the crossover loop, [for j in range(self.D)]. *)
Definition crossover_at (self : jDE) (pop : list SolutionjDE) (i : nat) (r : list nat)
    (jrand : Z) (j : nat) (newSolution : SolutionjDE) : M SolutionjDE :=
  u <- random ;;
  cr <- getattr "Cr" (Cr self) ;;
  if Qltb u cr || (Z.of_nat j =? jrand)%Z
  then
    a <- donor_value pop r 0 j ;;
    f <- getattr "F" (F self) ;;
    b <- donor_value pop r 1 j ;;
    c <- donor_value pop r 2 j ;;
    v <- setitem (Solution newSolution) j (a + f * (b - c))%Q ;;
    ret (set_Solution newSolution v)
  else
    p <- getitem pop i ;;
    x <- getitem (Solution p) j ;;
    v <- setitem (Solution newSolution) j x ;;
    ret (set_Solution newSolution v).

(** [newSolution.F] (or [.Cr]): redrawn when [rnd.random() < self.Tao],
    otherwise taken from the parent through [inherit]. *)
Definition self_adapt (self : jDE) (pop : list SolutionjDE) (i : nat)
    (inherit : SolutionjDE -> Q) : M Q :=
  u <- random ;;
  tao <- getattr "Tao" (Tao self) ;;
  if Qltb u tao then random else p <- getitem pop i ;; ret (inherit p).

(** The body of [generationStep]'s loop up to and including
    [newSolution.evaluate()]. *)
Definition offspring (fuel : nat) (self : jDE) (pop : list SolutionjDE) (i : nat)
    : M SolutionjDE :=
  newSolution <- SolutionjDE_init (D self) (Lower self) (Upper self) ;;
  f <- self_adapt self pop i sF ;;
  let newSolution := set_F newSolution f in
  cr <- self_adapt self pop i sCr ;;
  let newSolution := set_Cr newSolution cr in
  r <- pickDonors fuel self i ;;
  u <- random ;;
  let jrand := int (u * inject_Z (Np self))%Q in
  newSolution <- for_each (range (D self)) (crossover_at self pop i r jrand) newSolution ;;
  newSolution <- repair newSolution ;;
  evaluate newSolution.

(** The rest of the body: best tracking, then selection against
    [self.Population[i]]. The accumulator is [(newPopulation, self)]. *)
Definition generationStep_at (fuel : nat) (pop : list SolutionjDE) (i : nat)
    (st : list SolutionjDE * jDE) : M (list SolutionjDE * jDE) :=
  let newPopulation := fst st in
  let self := snd st in
  newSolution <- offspring fuel self pop i ;;
  self <- update_best newSolution self ;;
  parent <- getitem (Population self) i ;;
  if fit_ltb (Fitness newSolution) (Fitness parent)
  then ret (newPopulation ++ [newSolution], self)
  else p <- getitem pop i ;; ret (newPopulation ++ [p], self).

(** [generationStep(self, Population)]: returns [newPopulation] (and the
    engine, whose [bestSolution] it may have replaced). *)
Definition generationStep (fuel : nat) (self : jDE) (pop : list SolutionjDE)
    : M (list SolutionjDE * jDE) :=
  for_each (range (Np self)) (generationStep_at fuel pop) ([], self).

(** [while FEs <= self.nFES:
       self.Population = self.generationStep(self.Population); FEs += self.Np]
    [fuel] bounds the rounds of this loop, [inner] those of each donor
    resampling loop inside [generationStep]. *)
Fixpoint run_loop (fuel inner : nat) (FEs : Z) (self : jDE) : M jDE :=
  if (FEs <=? nFES self)%Z
  then match fuel with
       | O => fun _ => OutOfFuel
       | S fuel' =>
           st <- generationStep inner self (Population self) ;;
           let self := set_Population (snd st) (fst st) in
           run_loop fuel' inner (FEs + Np self)%Z self
       end
  else ret self.

(** [run(self)]: the returned fitness, with the engine as it is left. *)
Definition run (fuel : nat) (self : jDE) : M (fitness * jDE) :=
  self <- initPopulation self ;;
  self <- evalPopulation self ;;
  self <- run_loop fuel fuel (Np self) self ;;
  ret (Fitness (bestSolution self), self).

(** ** Vocabulary of the statements *)

(** The world after [n] more draws. *)
Definition advance (n : nat) (w : world) : world :=
  mkWorld (cursor w + n) (evals w) (bests w).

(** What the objective function returns on a candidate, and the candidate
    once [evaluate] has stored it. *)
Definition fitness_of (c : SolutionjDE) : Q := FuncEval (sD c) (Solution c).
Definition evaluated (c : SolutionjDE) : SolutionjDE :=
  set_Fitness c (Finite (fitness_of c)).

(** The best fitness after one more observation [f]. *)
Definition improve (b f : fitness) : fitness := if fit_ltb f b then f else b.

(** The successive best fitness values along observations [fs], oldest
    first, starting from [b]. *)
Fixpoint best_trace (b : fitness) (fs : list Q) : list fitness :=
  match fs with
  | [] => []
  | f :: fs' => improve b (Finite f) :: best_trace (improve b (Finite f)) fs'
  end.

(** Between worlds [w] and [w'] the objective function returned exactly
    [fs] (oldest first), each value was compared once against the best
    fitness, which went from [b] to [b']. *)
Definition tracked_by (fs : list Q) (b : fitness) (w : world) (b' : fitness) (w' : world)
    : Prop :=
  evals w' = rev fs ++ evals w /\
  bests w' = rev (best_trace b fs) ++ bests w /\
  b' = fold_left improve (map Finite fs) b.

(** Nothing was evaluated and the best candidate was not compared between
    [w] and [w']. *)
Definition same_logs (w w' : world) : Prop :=
  evals w' = evals w /\ bests w' = bests w.

(** Three pairwise distinct indices of [range(np)]. *)
Definition donor_triple (np : Z) (r : list nat) : Prop :=
  length r = 3 /\ NoDup r /\ Forall (fun x => (Z.of_nat x < np)%Z) r.

(** Every draw of the tape lies in [[0, 1)], as [rnd.random()] promises. *)
Definition unit_tape : Prop := forall k, (0 <= tape k)%Q /\ (tape k < 1)%Q.

(** The state of [sample]'s loop after [i] picks from a pool of [N]. *)
Definition sample_inv (N i : nat) (st : list nat * list nat) : Prop :=
  length (fst st) = N /\
  length (snd st) = i /\
  NoDup (take (N - i) (fst st) ++ snd st) /\
  Forall (fun x => x < N) (fst st) /\
  Forall (fun x => x < N) (snd st).

(** What one round of [generationStep] appends at index [i]. *)
Definition selected_at (fuel : nat) (self : jDE) (pop newPop : list SolutionjDE)
    (i : nat) : Prop :=
  exists (child parent : SolutionjDE) (wi wi' : world),
    offspring fuel self pop i wi = Ok child wi' /\
    Population self !! i = Some parent /\
    ((fit_ltb (Fitness child) (Fitness parent) = true /\ newPop !! i = Some child) \/
     (fit_ltb (Fitness child) (Fitness parent) = false /\
      exists p, pop !! i = Some p /\ newPop !! i = Some p)).

(** Every component of [v] lies in [[lb, ub]]. *)
Definition all_within (lb ub : Q) (v : list Q) : Prop :=
  Forall (fun x => (lb <= x <= ub)%Q) v.

(** A candidate of engine [self]: the engine's dimension and bounds, [D]
    components, all within the bounds. *)
Definition feasible (self : jDE) (c : SolutionjDE) : Prop :=
  sD c = D self /\ LB c = Lower self /\ UB c = Upper self /\
  wf_solution c /\ all_within (Lower self) (Upper self) (Solution c).

(** The cached fitness is the objective value of the current vector. *)
Definition consistent (c : SolutionjDE) : Prop :=
  Fitness c = Finite (fitness_of c).

(** [pop[i].Solution[j]] and [pop[r[k]].Solution[j]] as partial lookups. *)
Definition component (pop : list SolutionjDE) (i j : nat) : option Q :=
  match pop !! i with
  | Some p => Solution p !! j
  | None => None
  end.

Definition donor_component (pop : list SolutionjDE) (r : list nat) (k j : nat)
    : option Q :=
  match r !! k with
  | Some rk => component pop rk j
  | None => None
  end.

(** The value [v] that one round of the crossover loop stores at dimension
    [j], given the engine's [Cr = cr], the test draw [u] and [jrand]. *)
Definition crossed (self : jDE) (pop : list SolutionjDE) (i : nat) (r : list nat)
    (jrand : Z) (cr u : Q) (j : nat) (v : Q) : Prop :=
  if Qltb u cr || (Z.of_nat j =? jrand)%Z
  then exists f a b c,
         F self = Some f /\
         donor_component pop r 0 j = Some a /\
         donor_component pop r 1 j = Some b /\
         donor_component pop r 2 j = Some c /\
         v = (a + f * (b - c))%Q
  else component pop i j = Some v.

(** The value of a self-adapted parameter: a fresh draw, or the parent's. *)
Definition adapted (pop : list SolutionjDE) (i : nat) (inherit : SolutionjDE -> Q)
    (v : Q) : Prop :=
  (exists k, v = tape k) \/ (exists p, pop !! i = Some p /\ v = inherit p).

(** The engine after [update_best] against candidate [c]. *)
Definition with_best (self : jDE) (c : SolutionjDE) : jDE :=
  if fit_ltb (Fitness c) (Fitness (bestSolution self))
  then set_bestSolution self c else self.

(** What selection puts at index [i]: the offspring when strictly better
    than [parent], else [pop[i]]. *)
Definition survivor (pop : list SolutionjDE) (i : nat) (parent child x : SolutionjDE)
    : Prop :=
  if fit_ltb (Fitness child) (Fitness parent) then x = child else pop !! i = Some x.

(** The engine fields that [generationStep] and the loop of [run] never
    change. *)
Definition same_config (a b : jDE) : Prop :=
  D b = D a /\ Np b = Np a /\ nFES b = nFES a /\
  Lower b = Lower a /\ Upper b = Upper a /\
  Tao b = Tao a /\ F b = F a /\ Cr b = Cr a.

(** A candidate in good standing: feasible, with a fitness that is the
    objective value of its vector. *)
Definition sound (self : jDE) (c : SolutionjDE) : Prop :=
  feasible self c /\ consistent c.

(** An outcome that is no exception: a result, or a loop still running when
    the fuel is used up. *)
Definition no_raise {A} (o : outcome A) : Prop :=
  match o with
  | Raise _ _ => False
  | _ => True
  end.

(** What every generation of the loop of [run] keeps. *)
Definition standing (self s : jDE) : Prop :=
  same_config self s /\
  Forall (sound self) (Population s) /\
  (bestSolution s = bestSolution self \/ sound self (bestSolution s)) /\
  (forall c, In c (Population s) ->
     fit_le (Fitness (bestSolution s)) (Fitness c)).

(** ** Concrete inputs of the examples *)

(** The caller assigning the three attributes on a constructed engine:
    [alg.Tao = tao; alg.F = f; alg.Cr = cr]. *)
Definition assign_parameters (self : jDE) (tao f cr : Q) : jDE :=
  mkEngine (D self) (Np self) (nFES self) (Lower self) (Upper self) (Population self)
           (bestSolution self) (Some tao) (Some f) (Some cr).

(** The common choice [Tao = 0.1], [F = 0.5], [Cr = 0.9]. *)
Definition tuned (self : jDE) : jDE := assign_parameters self (1 # 10) (1 # 2) (9 # 10).

(** A tape given by its first draws. *)
Definition tape_of (l : list Q) (k : nat) : Q := nth k l 0%Q.

(** A tape given by a formula; every draw is [n / 101] with [n < 101]. *)
Definition tape0 (k : nat) : Q := Z.of_nat ((k * k * 31 + k * 17 + 5) mod 101) # 101.

(** The sum of squares as objective function. *)
Definition sphere (d : Z) (v : list Q) : Q :=
  fold_right (fun x acc => Qred (x * x + acc)) 0%Q v.

Definition w_init : world := mkWorld 0 [] [].

(** An evaluated two-dimensional candidate [[x, x]] with the default
    [F = 0.5] and [Cr = 0.9], bounds [[-10, 10]]. *)
Definition demo_candidate (x : Q) : SolutionjDE :=
  mkSolution 2 (-10) 10 (1 # 2) (9 # 10) [x; x] (Finite (sphere 2 [x; x])).

Definition demo_population : list SolutionjDE :=
  [demo_candidate 0; demo_candidate 1; demo_candidate 3; demo_candidate 2].

(** An engine with [D = 2], [NP = 4], [Tao = 0.1], [F = 1] and a given
    [Cr], holding [demo_population]. *)
Definition demo_engine (cr : Q) : jDE :=
  mkEngine 2 4 8 (-10) 10 demo_population (demo_candidate 0)
           (Some (1 # 10)) (Some 1%Q) (Some cr).

(** Draws for one offspring at index 0 of [demo_engine]: two for the fresh
    vector, two for the self-adaptation tests (both [0.5 >= Tao]: [F] and
    [Cr] are inherited), three for the donors (which come out as
    [[1, 2, 3]]), one for [jrand], two for the crossover tests. *)
Definition demo_tape (jrand_draw : Q) : nat -> Q :=
  tape_of [1 # 2; 1 # 2; 1 # 2; 1 # 2; 3 # 10; 7 # 10; 6 # 10; jrand_draw; 1 # 2; 1 # 2]%Q.

(** * Properties *)

(** ** Comparisons *)

Lemma Qltb_lt (x y : Q) : Qltb x y = true <-> (x < y)%Q.
Proof.
  unfold Qltb. rewrite negb_true_iff, <- not_true_iff_false, Qle_bool_iff.
  split; [apply Qnot_le_lt | apply Qlt_not_le].
Qed.

Lemma Qltb_ge (x y : Q) : Qltb x y = false <-> (y <= x)%Q.
Proof.
  unfold Qltb. rewrite negb_false_iff. apply Qle_bool_iff.
Qed.

Lemma Qltb_irrefl (x : Q) : Qltb x x = false.
Proof. apply Qltb_ge, Qle_refl. Qed.

Lemma fit_le_refl (a : fitness) : fit_le a a.
Proof. destruct a; simpl; [apply Qle_refl | exact I]. Qed.

Lemma fit_le_trans (a b c : fitness) : fit_le a b -> fit_le b c -> fit_le a c.
Proof.
  destruct a, b, c; simpl; try tauto. apply Qle_trans.
Qed.

Lemma fit_ltb_le (a b : fitness) : fit_ltb a b = true -> fit_le a b.
Proof.
  destruct a, b; simpl; try discriminate; auto.
  intros H. apply Qlt_le_weak, Qltb_lt, H.
Qed.

Lemma fit_ltb_false_le (a b : fitness) : fit_ltb a b = false -> fit_le b a.
Proof.
  destruct a, b; simpl; try discriminate; auto. apply Qltb_ge.
Qed.

Lemma fit_ltb_irrefl (a : fitness) : fit_ltb a a = false.
Proof. destruct a; simpl; [apply Qltb_irrefl | reflexivity]. Qed.

(** ** The monad *)

Lemma bind_Ok {A B} (m : M A) (k : A -> M B) (w w' : world) (b : B) :
  bind m k w = Ok b w' -> exists a w1, m w = Ok a w1 /\ k a w1 = Ok b w'.
Proof.
  unfold bind. destruct (m w) as [a w1| |]; try discriminate. eauto.
Qed.

Lemma bind_eq_Ok {A B} (m : M A) (k : A -> M B) (w w1 : world) (a : A) :
  m w = Ok a w1 -> bind m k w = k a w1.
Proof. unfold bind. intros ->. reflexivity. Qed.

Lemma getitem_Ok {A} (l : list A) (i : nat) (w w' : world) (x : A) :
  getitem l i w = Ok x w' <-> l !! i = Some x /\ w' = w.
Proof.
  unfold getitem. destruct (l !! i); simpl; unfold ret, raise; split.
  - intros [= -> ->]. auto.
  - intros [[= ->] ->]. reflexivity.
  - discriminate.
  - intros [[=] _].
Qed.

Lemma setitem_Ok {A} (l : list A) (i : nat) (v : A) (w w' : world) (l' : list A) :
  setitem l i v w = Ok l' w' <-> i < length l /\ l' = <[i := v]> l /\ w' = w.
Proof.
  unfold setitem. destruct (Nat.ltb_spec i (length l)); unfold ret, raise; split.
  - intros [= <- <-]. auto.
  - intros (_ & -> & ->). reflexivity.
  - discriminate.
  - intros (Hlt & _). lia.
Qed.

Lemma getattr_Ok (attr : string) (o : option Q) (w w' : world) (v : Q) :
  getattr attr o w = Ok v w' <-> o = Some v /\ w' = w.
Proof.
  unfold getattr. destruct o; unfold ret, raise; split.
  - intros [= -> ->]. auto.
  - intros [[= ->] ->]. reflexivity.
  - discriminate.
  - intros [[=] _].
Qed.

Lemma random_Ok (w w' : world) (u : Q) :
  random w = Ok u w' <->
  u = tape (cursor w) /\ w' = mkWorld (S (cursor w)) (evals w) (bests w).
Proof.
  unfold random. split.
  - intros [= <- <-]. auto.
  - intros [-> ->]. reflexivity.
Qed.

Lemma ret_Ok {A} (a a' : A) (w w' : world) : ret a w = Ok a' w' <-> a' = a /\ w' = w.
Proof.
  unfold ret. split.
  - intros [= <- <-]. auto.
  - intros [-> ->]. reflexivity.
Qed.

Lemma getitemZ_Ok {A} (l : list A) (z : Z) (w w' : world) (x : A) :
  getitemZ l z w = Ok x w' ->
  exists i, norm_index (length l) z = Some i /\ l !! i = Some x /\ w' = w.
Proof.
  unfold getitemZ. destruct (norm_index _ _) as [i|]; [|discriminate].
  intros H. apply getitem_Ok in H. exists i. tauto.
Qed.

Lemma setitemZ_Ok {A} (l : list A) (z : Z) (v : A) (w w' : world) (l' : list A) :
  setitemZ l z v w = Ok l' w' ->
  exists i, norm_index (length l) z = Some i /\ i < length l /\
            l' = <[i := v]> l /\ w' = w.
Proof.
  unfold setitemZ. destruct (norm_index _ _) as [i|]; [|discriminate].
  intros H. apply setitem_Ok in H. exists i. tauto.
Qed.

(** Inversion of a successful run of straight-line monadic code. *)
Ltac inv_M :=
  repeat match goal with
  | H : bind _ _ _ = Ok _ _ |- _ =>
      let a := fresh "a" in let w := fresh "w" in let H1 := fresh "H" in
      apply bind_Ok in H; destruct H as (a & w & H1 & H)
  | H : ret _ _ = Ok _ _ |- _ => apply ret_Ok in H; destruct H as [? ?]; subst
  | H : raise _ _ = Ok _ _ |- _ => discriminate H
  | H : getitem _ _ _ = Ok _ _ |- _ => apply getitem_Ok in H; destruct H as [H ?]; subst
  | H : setitem _ _ _ _ = Ok _ _ |- _ => apply setitem_Ok in H; destruct H as (H & ? & ?); subst
  | H : getattr _ _ _ = Ok _ _ |- _ => apply getattr_Ok in H; destruct H as [H ?]; subst
  | H : random _ = Ok _ _ |- _ => apply random_Ok in H; destruct H as [? ?]; subst
  | H : getitemZ _ _ _ = Ok _ _ |- _ =>
      let i := fresh "i" in let Hn := fresh "Hn" in
      apply getitemZ_Ok in H; destruct H as (i & Hn & H & ?); subst
  | H : setitemZ _ _ _ _ = Ok _ _ |- _ =>
      let i := fresh "i" in let Hn := fresh "Hn" in
      apply setitemZ_Ok in H; destruct H as (i & Hn & H & ? & ?); subst
  end.

(** A loop invariant indexed by the loop counter. *)
Lemma for_each_seq_inv {A} (I : nat -> A -> world -> Prop) (body : nat -> A -> M A) :
  forall (n k : nat) (a : A) (w : world) (a' : A) (w' : world),
    (forall i b v b' v', k <= i < k + n -> I i b v -> body i b v = Ok b' v' -> I (S i) b' v') ->
    I k a w ->
    for_each (seq k n) body a w = Ok a' w' ->
    I (k + n) a' w'.
Proof.
  induction n as [|n IH]; intros k a w a' w' Hstep Hinit Hrun; simpl in Hrun.
  - inv_M. rewrite Nat.add_0_r. exact Hinit.
  - inv_M. replace (k + S n) with (S k + n) by lia.
    eapply IH; [| |exact Hrun].
    + intros i b v b' v' Hi. apply Hstep. lia.
    + eapply Hstep; [|exact Hinit|exact H]. lia.
Qed.

(** The same for a loop that cannot fail: it returns, and the invariant holds. *)
Lemma for_each_seq_total {A} (I : nat -> A -> world -> Prop) (body : nat -> A -> M A) :
  forall (n k : nat) (a : A) (w : world),
    (forall i b v, k <= i < k + n -> I i b v ->
       exists b' v', body i b v = Ok b' v' /\ I (S i) b' v') ->
    I k a w ->
    exists a' w', for_each (seq k n) body a w = Ok a' w' /\ I (k + n) a' w'.
Proof.
  induction n as [|n IH]; intros k a w Hstep Hinit; simpl.
  - exists a, w. rewrite Nat.add_0_r. auto.
  - destruct (Hstep k a w) as (b' & v' & Hb & HI); [lia|exact Hinit|].
    rewrite (bind_eq_Ok _ _ _ _ _ Hb).
    replace (k + S n) with (S k + n) by lia.
    apply IH; [|exact HI].
    intros i b v Hi. apply Hstep. lia.
Qed.

(** ** [repair] *)

Lemma set_Solution_same (c : SolutionjDE) : set_Solution c (Solution c) = c.
Proof. destruct c. reflexivity. Qed.

Lemma repair_at_Ok (i : nat) (c : SolutionjDE) (x : Q) (w : world) :
  Solution c !! i = Some x ->
  repair_at i c w = Ok (set_Solution c (<[i := clamp (LB c) (UB c) x]> (Solution c))) w.
Proof.
  intros Hx.
  assert (Hlt : i < length (Solution c)) by (apply lookup_lt_is_Some; eauto).
  assert (Hlt' : Nat.ltb i (length (Solution c)) = true) by (apply Nat.ltb_lt, Hlt).
  unfold repair_at, clamp, bind, getitem. rewrite Hx. unfold ret at 1.
  destruct (Qltb (UB c) x) eqn:Hub.
  - unfold setitem at 1. rewrite Hlt'. unfold ret at 1 2. cbn [Solution set_Solution LB].
    rewrite list_lookup_insert_eq by exact Hlt. unfold ret at 1.
    destruct (Qltb (UB c) (LB c)) eqn:Hlb.
    + unfold setitem. rewrite length_insert, Hlt'. unfold ret.
      rewrite list_insert_insert_eq. reflexivity.
    + reflexivity.
  - unfold ret at 1. rewrite Hx. unfold ret at 1.
    destruct (Qltb x (LB c)) eqn:Hlb.
    + unfold setitem. rewrite Hlt'. reflexivity.
    + unfold ret. rewrite list_insert_id by exact Hx.
      rewrite set_Solution_same. reflexivity.
Qed.

Lemma repair_loop (n k : nat) (c : SolutionjDE) (w : world) :
  k + n = length (Solution c) ->
  for_each (seq k n) repair_at c w =
  Ok (set_Solution c (take k (Solution c) ++ map (clamp (LB c) (UB c)) (drop k (Solution c)))) w.
Proof.
  revert k c. induction n as [|n IH]; intros k c Hlen; simpl.
  - rewrite drop_ge by lia. rewrite take_ge by lia. simpl.
    rewrite app_nil_r, set_Solution_same. reflexivity.
  - destruct (lookup_lt_is_Some_2 (Solution c) k) as [x Hx]; [lia|].
    rewrite (bind_eq_Ok _ _ _ _ _ (repair_at_Ok k c x w Hx)).
    rewrite IH by (cbn [Solution set_Solution]; rewrite length_insert; lia).
    cbn [Solution set_Solution LB UB]. f_equal. f_equal.
    rewrite (take_S_r _ _ (clamp (LB c) (UB c) x))
      by (apply list_lookup_insert_eq; apply lookup_lt_is_Some; eauto).
    rewrite take_insert_ge by lia.
    rewrite drop_insert_lt by lia.
    rewrite (drop_S _ _ _ Hx). simpl. rewrite <- app_assoc. reflexivity.
Qed.

Lemma repair_is_map_clamp (c : SolutionjDE) (w : world) :
  wf_solution c ->
  repair c w = Ok (set_Solution c (map (clamp (LB c) (UB c)) (Solution c))) w.
Proof.
  intros Hwf. unfold repair, range. rewrite repair_loop by (symmetry; exact Hwf).
  reflexivity.
Qed.

Lemma clamp_range (lb ub x : Q) : (lb <= ub)%Q -> (lb <= clamp lb ub x <= ub)%Q.
Proof.
  intros Hb. unfold clamp.
  destruct (Qltb ub x) eqn:Hu.
  - destruct (Qltb ub lb) eqn:Hl.
    + split; [apply Qle_refl | exact Hb].
    + split; [exact Hb | apply Qle_refl].
  - destruct (Qltb x lb) eqn:Hl.
    + split; [apply Qle_refl | exact Hb].
    + split; [apply Qltb_ge, Hl | apply Qltb_ge, Hu].
Qed.

Lemma clamp_cases (lb ub x : Q) :
  (lb <= ub)%Q ->
  ((ub < x)%Q -> clamp lb ub x = ub) /\
  ((x < lb)%Q -> clamp lb ub x = lb) /\
  ((lb <= x <= ub)%Q -> clamp lb ub x = x).
Proof.
  intros Hb. unfold clamp. repeat split.
  - intros H. apply Qltb_lt in H as ->.
    apply Qltb_ge in Hb as ->. reflexivity.
  - intros H.
    assert (Hu : Qltb ub x = false).
    { apply Qltb_ge. apply Qlt_le_weak. eapply Qlt_le_trans; eauto. }
    rewrite Hu. apply Qltb_lt in H as ->. reflexivity.
  - intros [H1 H2]. apply Qltb_ge in H2 as ->. apply Qltb_ge in H1 as ->. reflexivity.
Qed.

Lemma clamp_idem (lb ub x : Q) :
  (lb <= ub)%Q -> clamp lb ub (clamp lb ub x) = clamp lb ub x.
Proof.
  intros Hb. apply clamp_cases; [exact Hb|]. apply clamp_range, Hb.
Qed.

(** C10. For a candidate carrying its [D] components and bounds
    [LB <= UB], [repair] returns without raising and without touching the
    random tape or the logs; repairing the result again returns the same
    candidate; every component of the result lies in [[LB, UB]]; and a
    component above [UB] becomes [UB], one below [LB] becomes [LB], one in
    range is kept. *)
Theorem repair_idempotent_in_bounds (c : SolutionjDE) (w : world) :
  wf_solution c ->
  (LB c <= UB c)%Q ->
  exists c',
    repair c w = Ok c' w /\
    repair c' w = Ok c' w /\
    length (Solution c') = length (Solution c) /\
    (forall i y, Solution c' !! i = Some y -> (LB c <= y <= UB c)%Q) /\
    (forall i x, Solution c !! i = Some x ->
       ((UB c < x)%Q -> Solution c' !! i = Some (UB c)) /\
       ((x < LB c)%Q -> Solution c' !! i = Some (LB c)) /\
       ((LB c <= x <= UB c)%Q -> Solution c' !! i = Some x)).
Proof.
  intros Hwf Hb.
  exists (set_Solution c (map (clamp (LB c) (UB c)) (Solution c))).
  split; [apply repair_is_map_clamp, Hwf|].
  split.
  { rewrite repair_is_map_clamp.
    - cbn [Solution set_Solution LB UB]. do 2 f_equal.
      rewrite map_map. apply map_ext. intros x. apply clamp_idem, Hb.
    - unfold wf_solution in *. cbn [Solution set_Solution sD].
      rewrite length_map. exact Hwf. }
  cbn [Solution set_Solution].
  split; [apply length_map|].
  split.
  - intros i y Hy. rewrite list_lookup_fmap in Hy.
    destruct (Solution c !! i) as [x|]; simpl in Hy; [|discriminate].
    injection Hy as <-. apply clamp_range, Hb.
  - intros i x Hx.
    change (map (clamp (LB c) (UB c)) (Solution c)) with (clamp (LB c) (UB c) <$> Solution c).
    rewrite list_lookup_fmap, Hx. simpl.
    destruct (clamp_cases (LB c) (UB c) x Hb) as (H1 & H2 & H3).
    repeat split; intros H; f_equal; auto.
Qed.

(** ** Construction and initial evaluation never fail *)

Lemma advance_0 (w : world) : advance 0 w = w.
Proof. destruct w. unfold advance. simpl. rewrite Nat.add_0_r. reflexivity. Qed.

Lemma randoms_Ok (n : nat) (w : world) :
  randoms n w = Ok (map tape (seq (cursor w) n)) (advance n w).
Proof.
  revert w. induction n as [|n IH]; intros w; simpl.
  - unfold ret. rewrite advance_0. reflexivity.
  - unfold bind at 1. unfold random at 1. unfold bind at 1. rewrite IH.
    unfold ret, advance. simpl. do 2 f_equal. lia.
Qed.

Lemma SolutionjDE_init_Ok (d : Z) (lb ub : Q) (w : world) :
  exists v,
    SolutionjDE_init d lb ub w =
      Ok (mkSolution d lb ub (1 # 2) (9 # 10) v Inf) (advance (Z.to_nat d) w) /\
    length v = Z.to_nat d.
Proof.
  unfold SolutionjDE_init, generateSolution. unfold bind. rewrite randoms_Ok.
  eexists. split; [reflexivity|].
  rewrite !length_map, length_seq. reflexivity.
Qed.

Lemma initPopulation_Ok (self : jDE) (w : world) :
  exists cs w',
    initPopulation self w = Ok (set_Population self (Population self ++ cs)) w' /\
    length cs = Z.to_nat (Np self) /\
    Forall wf_solution cs /\
    evals w' = evals w /\ bests w' = bests w.
Proof.
  unfold initPopulation, range.
  destruct (for_each_seq_total
    (fun i s v => exists cs, s = set_Population self (Population self ++ cs) /\
                             length cs = i /\ Forall wf_solution cs /\
                             evals v = evals w /\ bests v = bests w)
    (fun _ s => c <- SolutionjDE_init (D s) (Lower s) (Upper s) ;;
                ret (set_Population s (Population s ++ [c])))
    (Z.to_nat (Np self)) 0 self w) as (s' & w' & Hrun & cs & -> & Hlen & Hwf & He & Hb).
  - intros i s v _ (cs & -> & Hlen & Hwf & He & Hb).
    destruct (SolutionjDE_init_Ok (D self) (Lower self) (Upper self) v) as (x & Hx & Hxl).
    cbn [D Lower Upper set_Population]. rewrite (bind_eq_Ok _ _ _ _ _ Hx).
    eexists _, _. split; [reflexivity|].
    eexists (cs ++ [_]). cbn [Population set_Population].
    rewrite <- app_assoc. split; [reflexivity|].
    rewrite length_app. simpl. split; [lia|].
    split; [|auto].
    apply Forall_app. split; [exact Hwf|].
    constructor; [|constructor]. exact Hxl.
  - exists []. rewrite app_nil_r. destruct self. repeat split. constructor.
  - exists cs, w'. simpl in Hlen. auto.
Qed.

(** ** Best tracking *)

Lemma tracked_by_nil (b : fitness) (w w' : world) :
  evals w' = evals w -> bests w' = bests w -> tracked_by [] b w b w'.
Proof. intros He Hb. repeat split; assumption. Qed.

Lemma best_trace_app (b : fitness) (fs gs : list Q) :
  best_trace b (fs ++ gs) =
  best_trace b fs ++ best_trace (fold_left improve (map Finite fs) b) gs.
Proof.
  revert b. induction fs as [|f fs IH]; intros b; simpl; [reflexivity|].
  rewrite IH. reflexivity.
Qed.

Lemma tracked_by_trans (fs gs : list Q) (b1 b2 b3 : fitness) (w1 w2 w3 : world) :
  tracked_by fs b1 w1 b2 w2 -> tracked_by gs b2 w2 b3 w3 ->
  tracked_by (fs ++ gs) b1 w1 b3 w3.
Proof.
  intros (He1 & Hb1 & ->) (He2 & Hb2 & ->). repeat split.
  - rewrite He2, He1, rev_app_distr, <- app_assoc. reflexivity.
  - rewrite Hb2, Hb1, best_trace_app, rev_app_distr, <- app_assoc. reflexivity.
  - rewrite map_app, fold_left_app. reflexivity.
Qed.

Lemma update_best_Ok (c : SolutionjDE) (self self' : jDE) (w w' : world) :
  update_best c self w = Ok self' w' ->
  self' = (if fit_ltb (Fitness c) (Fitness (bestSolution self))
           then set_bestSolution self c else self) /\
  Fitness (bestSolution self') = improve (Fitness (bestSolution self)) (Fitness c) /\
  w' = mkWorld (cursor w) (evals w) (Fitness (bestSolution self') :: bests w).
Proof.
  unfold update_best. intros [= <- <-]. split; [reflexivity|]. split; [|reflexivity].
  unfold improve. destruct (fit_ltb _ _); reflexivity.
Qed.

Lemma evaluate_Ok (c c' : SolutionjDE) (w w' : world) :
  evaluate c w = Ok c' w' ->
  c' = evaluated c /\ w' = mkWorld (cursor w) (fitness_of c :: evals w) (bests w).
Proof. unfold evaluate. intros [= <- <-]. auto. Qed.

Lemma tracked_by_snoc (fs : list Q) (f : Q) (b0 b b' : fitness) (w0 w w' : world) :
  tracked_by fs b0 w0 b w ->
  evals w' = f :: evals w ->
  bests w' = b' :: bests w ->
  b' = improve b (Finite f) ->
  tracked_by (fs ++ [f]) b0 w0 b' w'.
Proof.
  intros Ht He Hb ->. eapply tracked_by_trans; [exact Ht|].
  repeat split; simpl; assumption.
Qed.

Lemma evalPopulation_Ok (self : jDE) (w : world) :
  exists b' w',
    evalPopulation self w =
      Ok (set_bestSolution (set_Population self (map evaluated (Population self))) b') w' /\
    cursor w' = cursor w /\
    tracked_by (map fitness_of (Population self)) (Fitness (bestSolution self)) w
               (Fitness b') w'.
Proof.
  unfold evalPopulation.
  set (ps := Population self).
  destruct (for_each_seq_total
    (fun k s v => exists b',
       s = set_bestSolution
             (set_Population self (map evaluated (take k ps) ++ drop k ps)) b' /\
       cursor v = cursor w /\
       tracked_by (map fitness_of (take k ps)) (Fitness (bestSolution self)) w
                  (Fitness b') v)
    evalPopulation_at (length ps) 0 self w) as (s' & w' & Hrun & b' & -> & Hc & Ht).
  - intros k s v [_ Hk] (b' & -> & Hc & Ht). simpl in Hk.
    destruct (lookup_lt_is_Some_2 ps k Hk) as [p Hp].
    unfold evalPopulation_at. cbn [Population set_Population set_bestSolution].
    assert (Hlk : length (map evaluated (take k ps)) = k).
    { rewrite length_map, length_take. lia. }
    assert (Hget : (map evaluated (take k ps) ++ drop k ps) !! k = Some p).
    { rewrite lookup_app_r by lia. rewrite Hlk, Nat.sub_diag.
      rewrite lookup_drop, Nat.add_0_r. exact Hp. }
    unfold bind at 1. unfold getitem. rewrite Hget. unfold ret at 1.
    unfold bind, evaluate, update_best.
    cbn [Population set_Population set_bestSolution bestSolution cursor evals bests
         Fitness set_Fitness].
    assert (Hpop : <[k := evaluated p]> (map evaluated (take k ps) ++ drop k ps) =
                   map evaluated (take (S k) ps) ++ drop (S k) ps).
    { rewrite insert_app_r_alt by lia. rewrite Hlk, Nat.sub_diag.
      rewrite (drop_S _ _ _ Hp), (take_S_r _ _ _ Hp), map_app.
      rewrite <- app_assoc. reflexivity. }
    change (set_Fitness p (Finite (FuncEval (sD p) (Solution p)))) with (evaluated p).
    change (FuncEval (sD p) (Solution p)) with (fitness_of p).
    rewrite Hpop.
    assert (Hfs : map fitness_of (take (S k) ps) = map fitness_of (take k ps) ++ [fitness_of p]).
    { rewrite (take_S_r _ _ _ Hp), map_app. reflexivity. }
    rewrite Hfs.
    destruct (fit_ltb (Finite (fitness_of p)) (Fitness b')) eqn:Hlt.
    + eexists _, _. split; [reflexivity|]. eexists. split; [reflexivity|].
      split; [exact Hc|].
      eapply tracked_by_snoc; [exact Ht|reflexivity|reflexivity|].
      unfold improve. rewrite Hlt. reflexivity.
    + eexists _, _. split; [reflexivity|]. eexists. split; [reflexivity|].
      split; [exact Hc|].
      eapply tracked_by_snoc; [exact Ht|reflexivity|reflexivity|].
      unfold improve. rewrite Hlt. reflexivity.
  - exists (bestSolution self). simpl. rewrite drop_0.
    split; [destruct self; reflexivity|]. split; [reflexivity|].
    apply tracked_by_nil; reflexivity.
  - exists b', w'. simpl in *. rewrite take_ge in * by lia.
    rewrite drop_ge, app_nil_r in Hrun by lia. auto.
Qed.

Lemma improve_le_best (b f : fitness) : fit_le (improve b f) b.
Proof.
  unfold improve. destruct (fit_ltb f b) eqn:H.
  - apply fit_ltb_le, H.
  - apply fit_le_refl.
Qed.

Lemma improve_le_new (b f : fitness) : fit_le (improve b f) f.
Proof.
  unfold improve. destruct (fit_ltb f b) eqn:H.
  - apply fit_le_refl.
  - apply fit_ltb_false_le, H.
Qed.

Lemma fold_improve_le_init (fs : list fitness) (b : fitness) :
  fit_le (fold_left improve fs b) b.
Proof.
  revert b. induction fs as [|f fs IH]; intros b; simpl.
  - apply fit_le_refl.
  - eapply fit_le_trans; [apply IH | apply improve_le_best].
Qed.

Lemma fold_improve_le_each (fs : list fitness) (b f : fitness) :
  In f fs -> fit_le (fold_left improve fs b) f.
Proof.
  revert b. induction fs as [|g fs IH]; intros b; simpl; [tauto|].
  intros [-> | Hin].
  - eapply fit_le_trans; [apply fold_improve_le_init | apply improve_le_new].
  - apply IH, Hin.
Qed.

Lemma fold_improve_attained (fs : list fitness) (b : fitness) :
  fold_left improve fs b = b \/ In (fold_left improve fs b) fs.
Proof.
  revert b. induction fs as [|g fs IH]; intros b; simpl; [auto|].
  destruct (IH (improve b g)) as [H | H]; [|auto].
  rewrite H. unfold improve. destruct (fit_ltb g b); auto.
Qed.

(** The best-fitness history is non-increasing, and each entry differs from
    its predecessor only when the observation was strictly lower. *)
Lemma best_trace_step (fs : list Q) (b : fitness) (k : nat) (prev cur : fitness) (f : Q) :
  (b :: best_trace b fs) !! k = Some prev ->
  best_trace b fs !! k = Some cur ->
  fs !! k = Some f ->
  cur = improve prev (Finite f).
Proof.
  revert b k. induction fs as [|g fs IH]; intros b k Hp Hc Hf; [discriminate|].
  destruct k as [|k]; simpl in *.
  - injection Hp as <-. injection Hc as <-. injection Hf as <-. reflexivity.
  - eapply IH; eassumption.
Qed.

Lemma best_trace_last (fs : list Q) :
  forall (b : fitness) (f : Q),
    last (best_trace b (f :: fs)) = Some (fold_left improve (map Finite (f :: fs)) b).
Proof.
  induction fs as [|g fs IH]; intros b f; [reflexivity|].
  specialize (IH (improve b (Finite f)) g).
  cbn [best_trace map fold_left] in *.
  rewrite last_cons_cons. exact IH.
Qed.

(** ** [run]: the part before the loop *)

Lemma run_loop_exit (fuel inner : nat) (FEs : Z) (self : jDE) (w : world) :
  (nFES self < FEs)%Z -> run_loop fuel inner FEs self w = Ok self w.
Proof.
  intros H. destruct fuel; simpl; rewrite (proj2 (Z.leb_gt _ _) H); reflexivity.
Qed.

Lemma run_prefix (self : jDE) (w : world) :
  exists cs b1 w0 w1,
    initPopulation self w = Ok (set_Population self (Population self ++ cs)) w0 /\
    length cs = Z.to_nat (Np self) /\
    Forall wf_solution cs /\
    cursor w1 = cursor w0 /\
    tracked_by (map fitness_of (Population self ++ cs)) (Fitness (bestSolution self)) w
               (Fitness b1) w1 /\
    forall fuel,
      run fuel self w =
      (s <- run_loop fuel fuel (Np self)
              (set_bestSolution
                 (set_Population self (map evaluated (Population self ++ cs))) b1) ;;
       ret (Fitness (bestSolution s), s)) w1.
Proof.
  destruct (initPopulation_Ok self w) as (cs & w0 & Hinit & Hlen & Hwf & He & Hb).
  destruct (evalPopulation_Ok (set_Population self (Population self ++ cs)) w0)
    as (b1 & w1 & Heval & Hc & Ht).
  cbn [Population set_Population bestSolution] in *.
  exists cs, b1, w0, w1. repeat split; try assumption.
  - destruct Ht as (H1 & _). rewrite H1, He. reflexivity.
  - destruct Ht as (_ & H2 & _). rewrite H2, Hb. reflexivity.
  - apply Ht.
  - intros fuel. unfold run.
    rewrite (bind_eq_Ok _ _ _ _ _ Hinit), (bind_eq_Ok _ _ _ _ _ Heval).
    reflexivity.
Qed.

Lemma jDE_init_Ok (d np nfes : Z) (f cr lower upper : Q) (w : world) :
  exists best w0,
    jDE_init d np nfes f cr lower upper w =
      Ok (mkEngine d np nfes lower upper [] best None None None) w0 /\
    Fitness best = Inf /\ evals w0 = evals w /\ bests w0 = bests w.
Proof.
  unfold jDE_init.
  destruct (SolutionjDE_init_Ok d lower upper w) as (v & Hv & _).
  rewrite (bind_eq_Ok _ _ _ _ _ Hv). eexists _, _. split; [reflexivity|].
  repeat split.
Qed.

(** ** Budget below the population size *)

(** C9. With [0 < nFES < NP], constructing the engine and calling [run]
    returns normally for every fuel: the population is the [NP] initial
    candidates, each evaluated exactly once and in order (the evaluation log
    grows by exactly their [NP] objective values), no random number is drawn
    after initialisation (no generational transition runs), and the returned
    value is the least fitness among the initial candidates. *)
Theorem run_budget_below_population
    (d np nfes : Z) (f cr lower upper : Q) (w : world) (fuel : nat) :
  (0 < nfes < np)%Z ->
  exists self0 w0 cs w1 v self' w',
    jDE_init d np nfes f cr lower upper w = Ok self0 w0 /\
    initPopulation self0 w0 = Ok (set_Population self0 cs) w1 /\
    length cs = Z.to_nat np /\
    run fuel self0 w0 = Ok (v, self') w' /\
    Population self' = map evaluated cs /\
    cursor w' = cursor w1 /\
    evals w' = rev (map fitness_of cs) ++ evals w /\
    (forall c, In c cs -> fit_le v (Finite (fitness_of c))) /\
    (exists c, In c cs /\ v = Finite (fitness_of c)).
Proof.
  intros Hb.
  destruct (jDE_init_Ok d np nfes f cr lower upper w) as (best & w0 & Hinit & Hinf & He0 & Hb0).
  set (self0 := mkEngine d np nfes lower upper [] best None None None) in *.
  destruct (run_prefix self0 w0) as (cs & b1 & w1 & w2 & Hpop & Hlen & _ & Hc & Ht & Hrun).
  cbn [Population Np self0 app bestSolution] in *.
  exists self0, w0, cs, w1, (Fitness b1).
  eexists _, w2.
  split; [exact Hinit|]. split; [exact Hpop|]. split; [exact Hlen|].
  split.
  { rewrite Hrun. erewrite bind_eq_Ok by (apply run_loop_exit; cbn; lia). reflexivity. }
  cbn [Population set_Population set_bestSolution].
  split; [reflexivity|]. split; [exact Hc|].
  destruct Ht as (Hev & _ & Hbest). rewrite Hinf in Hbest.
  split; [rewrite Hev, He0; reflexivity|].
  assert (Hle : forall c, In c cs -> fit_le (Fitness b1) (Finite (fitness_of c))).
  { intros c Hin. rewrite Hbest. apply fold_improve_le_each.
    apply in_map, in_map, Hin. }
  split; [exact Hle|].
  destruct (fold_improve_attained (map Finite (map fitness_of cs)) Inf) as [H | H].
  - destruct cs as [|c cs']; [simpl in Hlen; lia|].
    specialize (Hle c (or_introl eq_refl)). rewrite Hbest, H in Hle. destruct Hle.
  - rewrite <- Hbest in H. apply in_map_iff in H as (q & Hq & Hin).
    apply in_map_iff in Hin as (c & <- & Hin). exists c. auto.
Qed.

(** ** The attributes the constructor never assigns *)

Lemma offspring_absent_Tao (fuel : nat) (self : jDE) (pop : list SolutionjDE) (i : nat)
    (w : world) :
  Tao self = None ->
  exists w',
    offspring fuel self pop i w = Raise (AttributeError "Tao") w' /\
    evals w' = evals w /\ bests w' = bests w.
Proof.
  intros HTao. unfold offspring.
  destruct (SolutionjDE_init_Ok (D self) (Lower self) (Upper self) w) as (v & Hv & _).
  rewrite (bind_eq_Ok _ _ _ _ _ Hv).
  unfold self_adapt, bind, random, getattr. rewrite HTao. unfold raise.
  eexists. split; [reflexivity|]. split; reflexivity.
Qed.

Lemma generationStep_absent_Tao (fuel : nat) (self : jDE) (pop : list SolutionjDE)
    (w : world) :
  Tao self = None -> (1 <= Np self)%Z ->
  exists w',
    generationStep fuel self pop w = Raise (AttributeError "Tao") w' /\
    evals w' = evals w /\ bests w' = bests w.
Proof.
  intros HTao Hnp. unfold generationStep, range.
  destruct (Z.to_nat (Np self)) as [|n] eqn:Hn; [lia|]. simpl.
  unfold generationStep_at at 1. cbn [fst snd].
  destruct (offspring_absent_Tao fuel self pop 0 w HTao) as (w' & Hoff & He & Hb).
  exists w'. unfold bind. rewrite Hoff. auto.
Qed.

Lemma generationStep_empty (fuel : nat) (self : jDE) (pop : list SolutionjDE) (w : world) :
  (Np self <= 0)%Z -> generationStep fuel self pop w = Ok ([], self) w.
Proof.
  intros Hnp. unfold generationStep, range.
  replace (Z.to_nat (Np self)) with 0 by lia. reflexivity.
Qed.

(** With no population the loop never reads an attribute and never exits. *)
Lemma run_loop_diverges (fuel inner : nat) (FEs : Z) (self : jDE) (w : world) :
  (Np self <= 0)%Z -> (FEs <= nFES self)%Z ->
  run_loop fuel inner FEs self w = OutOfFuel.
Proof.
  revert FEs self w. induction fuel as [|fuel IH]; intros FEs self w Hnp Hle;
    cbn [run_loop]; rewrite (proj2 (Z.leb_le _ _) Hle); [reflexivity|].
  rewrite (bind_eq_Ok _ _ _ _ _ (generationStep_empty inner self (Population self) w Hnp)).
  cbn [fst snd]. apply IH; cbn [Np nFES set_Population]; lia.
Qed.

Lemma run_diverges (fuel : nat) (self : jDE) (w : world) :
  (Np self <= 0)%Z -> (Np self <= nFES self)%Z -> run fuel self w = OutOfFuel.
Proof.
  intros Hnp Hle.
  destruct (run_prefix self w) as (cs & b1 & w0 & w1 & _ & _ & _ & _ & _ & Hrun).
  rewrite Hrun. unfold bind at 1.
  rewrite run_loop_diverges by (cbn [Np nFES set_Population set_bestSolution]; lia).
  reflexivity.
Qed.

Lemma run_loop_S (fuel inner : nat) (FEs : Z) (self : jDE) (w : world) :
  (FEs <= nFES self)%Z ->
  run_loop (S fuel) inner FEs self w =
  (st <- generationStep inner self (Population self) ;;
   run_loop fuel inner (FEs + Np (set_Population (snd st) (fst st)))%Z
            (set_Population (snd st) (fst st))) w.
Proof.
  intros Hle. cbn [run_loop]. rewrite (proj2 (Z.leb_le _ _) Hle). reflexivity.
Qed.

Lemma run_loop_O (inner : nat) (FEs : Z) (self : jDE) (w : world) :
  (FEs <= nFES self)%Z -> run_loop 0 inner FEs self w = OutOfFuel.
Proof.
  intros Hle. cbn [run_loop]. rewrite (proj2 (Z.leb_le _ _) Hle). reflexivity.
Qed.

Lemma run_absent_Tao (fuel : nat) (self : jDE) (w : world) :
  Tao self = None -> (1 <= Np self <= nFES self)%Z ->
  exists w',
    run (S fuel) self w = Raise (AttributeError "Tao") w' /\
    length (evals w') = length (evals w) + length (Population self) + Z.to_nat (Np self).
Proof.
  intros HTao Hnp.
  destruct (run_prefix self w) as (cs & b1 & w0 & w1 & _ & Hlen & _ & _ & Ht & Hrun).
  rewrite Hrun. unfold bind at 1.
  rewrite run_loop_S by (cbn [nFES set_Population set_bestSolution]; lia).
  match goal with |- context [generationStep ?n ?s ?p] =>
    destruct (generationStep_absent_Tao n s p w1) as (w' & Hgen & He & _);
      [exact HTao | cbn [Np set_Population set_bestSolution]; lia |]
  end.
  unfold bind. rewrite Hgen. exists w'. split; [reflexivity|].
  destruct Ht as (Hev & _). rewrite He, Hev.
  rewrite length_app, length_rev, length_map, length_app. lia.
Qed.

(** C1, as the code has it. The constructor leaves [Tao], [F] and [Cr]
    unassigned. When [1 <= NP <= nFES], [run] evaluates the [NP] initial
    candidates and then raises [AttributeError] on [Tao] in the first
    generational step. When [NP <= 0] and [NP <= nFES] the loop neither
    raises nor exits. In every case a normal return implies [nFES < NP]. *)
Theorem run_after_construction (d np nfes : Z) (f cr lower upper : Q) (w : world) :
  exists self0 w0,
    jDE_init d np nfes f cr lower upper w = Ok self0 w0 /\
    Tao self0 = None /\ F self0 = None /\ Cr self0 = None /\
    ((1 <= np <= nfes)%Z ->
       forall fuel, exists w',
         run (S fuel) self0 w0 = Raise (AttributeError "Tao") w' /\
         length (evals w') = length (evals w) + Z.to_nat np) /\
    ((np <= 0)%Z -> (np <= nfes)%Z -> forall fuel, run fuel self0 w0 = OutOfFuel) /\
    (forall fuel v self' w', run fuel self0 w0 = Ok (v, self') w' -> (nfes < np)%Z).
Proof.
  destruct (jDE_init_Ok d np nfes f cr lower upper w) as (best & w0 & Hinit & _ & He0 & _).
  set (self0 := mkEngine d np nfes lower upper [] best None None None) in *.
  assert (Hraise : (1 <= np <= nfes)%Z ->
       forall fuel, exists w',
         run (S fuel) self0 w0 = Raise (AttributeError "Tao") w' /\
         length (evals w') = length (evals w) + Z.to_nat np).
  { intros Hnp fuel.
    destruct (run_absent_Tao fuel self0 w0 eq_refl Hnp) as (w' & Hrun & Hlen).
    exists w'. split; [exact Hrun|]. rewrite Hlen, He0. simpl. lia. }
  assert (Hdiv : (np <= 0)%Z -> (np <= nfes)%Z -> forall fuel, run fuel self0 w0 = OutOfFuel).
  { intros H1 H2 fuel. apply run_diverges; assumption. }
  exists self0, w0. repeat split; try assumption.
  intros fuel v self' w' Hrun.
  destruct (Z.lt_ge_cases nfes np) as [Hlt | Hge]; [exact Hlt|].
  destruct (Z.le_gt_cases np 0) as [Hle | Hgt].
  - rewrite Hdiv in Hrun by assumption. discriminate.
  - destruct fuel as [|fuel].
    + destruct (run_prefix self0 w0) as (cs & b1 & w1 & w2 & _ & _ & _ & _ & _ & Hr).
      rewrite Hr in Hrun. unfold bind in Hrun.
      rewrite run_loop_O in Hrun by (cbn; lia). discriminate.
    + destruct (Hraise ltac:(lia) fuel) as (w2 & Hr & _).
      rewrite Hr in Hrun. discriminate.
Qed.

(** ** Donor sampling *)

Lemma same_logs_refl (w : world) : same_logs w w.
Proof. split; reflexivity. Qed.

Lemma same_logs_trans (w1 w2 w3 : world) :
  same_logs w1 w2 -> same_logs w2 w3 -> same_logs w1 w3.
Proof. intros [H1 H2] [H3 H4]. split; congruence. Qed.

Lemma for_each_same_logs {X A} (xs : list X) (body : X -> A -> M A) :
  (forall x b v b' v', body x b v = Ok b' v' -> same_logs v v') ->
  forall a w a' w', for_each xs body a w = Ok a' w' -> same_logs w w'.
Proof.
  intros Hbody. induction xs as [|x xs IH]; intros a w a' w' Hrun; simpl in Hrun.
  - inv_M. apply same_logs_refl.
  - inv_M. eapply same_logs_trans; [eapply Hbody | eapply IH]; eassumption.
Qed.

(** [int(u * m)] is an index below [m] when [u] is a draw from [[0, 1)]. *)
Lemma int_unit_bound (u : Q) (m : Z) :
  (0 <= u)%Q -> (u < 1)%Q -> (0 < m)%Z -> (0 <= int (u * inject_Z m) < m)%Z.
Proof.
  destruct u as [p q]. unfold Qle, Qlt, int. simpl. intros H0 H1 Hm.
  rewrite Z.mul_1_r in H0, H1. rewrite Pos.mul_1_r.
  assert (Hp : (0 <= p * m)%Z) by nia.
  rewrite Z.quot_div_nonneg by lia.
  split.
  - apply Z.div_pos; lia.
  - apply Z.div_lt_upper_bound; [lia | nia].
Qed.

Lemma norm_index_nonneg (len : nat) (z : Z) :
  (0 <= z < Z.of_nat len)%Z -> norm_index len z = Some (Z.to_nat z).
Proof.
  intros [H1 H2]. unfold norm_index.
  rewrite (proj2 (Z.leb_le _ _) H1), (proj2 (Z.ltb_lt _ _) H2). reflexivity.
Qed.

(** Moving the last live entry of the pool into slot [j] and setting the
    old entry of [j] aside rearranges the live entries. *)
Lemma insert_snoc_Permutation (t : list nat) (j x y : nat) :
  t !! j = Some x -> <[j := y]> t ++ [x] ≡ₚ t ++ [y].
Proof.
  revert j. induction t as [|a t IH]; intros j Hj; [discriminate|].
  destruct j as [|j]; simpl in *.
  - injection Hj as ->. rewrite <- !Permutation_cons_append.
    apply Permutation_swap.
  - apply Permutation_cons; [reflexivity|]. apply IH, Hj.
Qed.

Lemma pool_step_Permutation (l : list nat) (m j x y : nat) :
  1 <= m <= length l -> j < m ->
  l !! j = Some x -> l !! (m - 1) = Some y ->
  take (m - 1) (<[j := y]> l) ++ [x] ≡ₚ take m l.
Proof.
  intros Hm Hj Hx Hy.
  assert (Htake : take m l = take (m - 1) l ++ [y]).
  { replace m with (S (m - 1)) at 1 by lia. apply take_S_r, Hy. }
  rewrite Htake.
  destruct (Nat.eq_dec j (m - 1)) as [-> | Hne].
  - rewrite take_insert_ge by lia. rewrite Hx in Hy. injection Hy as ->. reflexivity.
  - rewrite take_insert_lt by lia. apply insert_snoc_Permutation.
    rewrite lookup_take_lt by lia. exact Hx.
Qed.

Lemma sample_pick_inv (N k i : nat) (st st' : list nat * list nat) (w w' : world) :
  unit_tape -> i < k <= N ->
  sample_inv N i st ->
  sample_pick i st w = Ok st' w' ->
  sample_inv N (S i) st' /\ same_logs w w'.
Proof.
  intros Hunit Hi (Hlen & Hres & Hnd & Hpool & Hr) Hrun.
  destruct st as [pool result]. cbn [fst snd] in *.
  unfold sample_pick in Hrun. cbn [fst snd] in Hrun. inv_M.
  set (N := length pool) in *. set (n := length result) in *.
  destruct (Hunit (cursor w)) as [Hu0 Hu1].
  pose proof (int_unit_bound (tape (cursor w)) (Z.of_nat (N - n)) Hu0 Hu1 ltac:(lia)) as Hj.
  rewrite norm_index_nonneg in Hn, Hn0 by lia.
  injection Hn as <-. injection Hn0 as <-.
  set (j := Z.to_nat (int (tape (cursor w) * inject_Z (Z.of_nat (N - n))))) in *.
  assert (Hjlt : j < N - n) by (unfold j; lia).
  split; [|split; reflexivity].
  unfold sample_inv. cbn [fst snd].
  rewrite length_insert, length_app. simpl. fold N n.
  split; [reflexivity|]. split; [lia|].
  split.
  - replace (N - S n) with (N - n - 1) by lia.
    rewrite app_assoc.
    rewrite (Permutation_app_comm _ [a0]), app_assoc, (Permutation_app_comm [a0]).
    rewrite pool_step_Permutation; [exact Hnd|unfold N in *; lia|exact Hjlt|exact H0|exact H1].
  - split.
    + apply Forall_insert; [exact Hpool|].
      eapply (proj1 (Forall_lookup _ _) Hpool); exact H1.
    + apply Forall_app. split; [exact Hr|].
      constructor; [|constructor].
      eapply (proj1 (Forall_lookup _ _) Hpool); exact H0.
Qed.

Lemma sample_Ok (n : Z) (k : nat) (w w' : world) (r : list nat) :
  unit_tape ->
  sample (range n) k w = Ok r w' ->
  length r = k /\ NoDup r /\ Forall (fun x => (Z.of_nat x < n)%Z) r /\ same_logs w w'.
Proof.
  intros Hunit Hrun. unfold sample, range in Hrun.
  rewrite length_seq in Hrun.
  destruct (Nat.leb_spec k (Z.to_nat n)) as [Hk|]; [|discriminate].
  apply bind_Ok in Hrun as (st & w1 & Hloop & Hret). apply ret_Ok in Hret as [-> ->].
  pose proof (for_each_seq_inv
    (fun i st v => i <= k -> sample_inv (Z.to_nat n) i st /\ same_logs w v)
    sample_pick k 0 (seq 0 (Z.to_nat n), []) w st w1) as Hinv.
  destruct Hinv as ((Hl & Hres & Hnd & _ & Hlt) & Hlogs); [| |exact Hloop|simpl; lia|].
  - intros i b v b' v' Hi Hb Hstep HSi.
    destruct Hb as [Hb Hlog]; [lia|].
    destruct (sample_pick_inv (Z.to_nat n) k i b b' v v' Hunit ltac:(lia) Hb Hstep)
      as [Hb' Hlog'].
    split; [exact Hb'|]. eapply same_logs_trans; eassumption.
  - intros _. split; [|apply same_logs_refl].
    unfold sample_inv. cbn [fst snd]. rewrite length_seq, app_nil_r, Nat.sub_0_r.
    rewrite take_ge by (rewrite length_seq; lia).
    repeat split; try constructor.
    + apply NoDup_seq.
    + apply Forall_lookup. intros j x Hx. apply lookup_seq in Hx. lia.
  - simpl in Hres. split; [exact Hres|].
    split; [apply NoDup_app in Hnd; tauto|].
    split; [|exact Hlogs].
    eapply Forall_impl; [exact Hlt|]. simpl. intros x Hx. lia.
Qed.

Lemma resample_Ok (np : Z) (i : nat) :
  unit_tape ->
  forall (fuel : nat) (r : list nat) (w : world) (r' : list nat) (w' : world),
    donor_triple np r ->
    resample fuel np i r w = Ok r' w' ->
    donor_triple np r' /\ contains i r' = false /\ same_logs w w'.
Proof.
  intros Hunit. induction fuel as [|fuel IH]; intros r w r' w' Hr Hrun;
    cbn [resample] in Hrun; destruct (contains i r) eqn:Hin.
  - discriminate.
  - apply ret_Ok in Hrun as [-> ->]. auto using same_logs_refl.
  - apply bind_Ok in Hrun as (r1 & w1 & Hs & Hrun).
    apply (sample_Ok _ _ _ _ _ Hunit) in Hs as (H1 & H2 & H3 & Hlog).
    destruct (IH r1 w1 r' w' (conj H1 (conj H2 H3)) Hrun) as (Ht & Hc & Hlog').
    split; [exact Ht|]. split; [exact Hc|]. eapply same_logs_trans; eassumption.
  - apply ret_Ok in Hrun as [-> ->]. auto using same_logs_refl.
Qed.

Lemma pickDonors_Ok (fuel : nat) (self : jDE) (i : nat) (w w' : world) (r : list nat) :
  unit_tape ->
  pickDonors fuel self i w = Ok r w' ->
  donor_triple (Np self) r /\ contains i r = false /\ same_logs w w'.
Proof.
  intros Hunit Hrun. unfold pickDonors in Hrun.
  apply bind_Ok in Hrun as (r1 & w1 & Hs & Hrun).
  apply (sample_Ok _ _ _ _ _ Hunit) in Hs as (H1 & H2 & H3 & Hlog).
  destruct (resample_Ok (Np self) i Hunit fuel r1 w1 r w' (conj H1 (conj H2 H3)) Hrun)
    as (Ht & Hc & Hlog').
  split; [exact Ht|]. split; [exact Hc|]. eapply same_logs_trans; eassumption.
Qed.

Lemma donor_triple_distinct (np : Z) (i : nat) (r : list nat) :
  donor_triple np r -> contains i r = false ->
  exists r0 r1 r2,
    r = [r0; r1; r2] /\
    r0 <> r1 /\ r0 <> r2 /\ r1 <> r2 /\
    r0 <> i /\ r1 <> i /\ r2 <> i /\
    (Z.of_nat r0 < np)%Z /\ (Z.of_nat r1 < np)%Z /\ (Z.of_nat r2 < np)%Z.
Proof.
  intros (Hlen & Hnd & Hlt) Hc.
  destruct r as [|r0 [|r1 [|r2 [|]]]]; try discriminate.
  exists r0, r1, r2. split; [reflexivity|].
  apply NoDup_cons in Hnd as [H0 Hnd]. apply NoDup_cons in Hnd as [H1 _].
  rewrite !not_elem_of_cons in H0, H1.
  unfold contains in Hc. simpl in Hc. rewrite !orb_false_iff in Hc.
  destruct Hc as (C0 & C1 & C2 & _).
  apply Nat.eqb_neq in C0, C1, C2.
  inversion Hlt as [|? ? L0 Hlt1]; subst. inversion Hlt1 as [|? ? L1 Hlt2]; subst.
  inversion Hlt2 as [|? ? L2 _]; subst.
  destruct H0 as [H01 H02]. apply not_elem_of_cons in H02 as [H02 _].
  repeat split; try tauto; auto.
Qed.

(** ** One offspring *)

Lemma self_adapt_same_logs (self : jDE) (pop : list SolutionjDE) (i : nat)
    (inherit : SolutionjDE -> Q) (w w' : world) (v : Q) :
  self_adapt self pop i inherit w = Ok v w' -> same_logs w w'.
Proof.
  unfold self_adapt. intros H. inv_M.
  destruct (Qltb _ _); inv_M; split; reflexivity.
Qed.

Lemma donor_value_world (pop : list SolutionjDE) (r : list nat) (k j : nat)
    (w w' : world) (v : Q) :
  donor_value pop r k j w = Ok v w' -> w' = w.
Proof. unfold donor_value. intros H. inv_M. reflexivity. Qed.

Lemma crossover_at_same_logs (self : jDE) (pop : list SolutionjDE) (i : nat)
    (r : list nat) (jrand : Z) (j : nat) (c c' : SolutionjDE) (w w' : world) :
  crossover_at self pop i r jrand j c w = Ok c' w' -> same_logs w w'.
Proof.
  unfold crossover_at. intros H. inv_M.
  destruct (_ || _); inv_M.
  - repeat match goal with
           | H : donor_value _ _ _ _ _ = Ok _ _ |- _ => apply donor_value_world in H; subst
           end.
    split; reflexivity.
  - split; reflexivity.
Qed.

Lemma repair_at_world (i : nat) (c c' : SolutionjDE) (w w' : world) :
  repair_at i c w = Ok c' w' -> w' = w.
Proof.
  unfold repair_at. intros H. inv_M.
  destruct (Qltb (UB c) _); inv_M; destruct (Qltb _ _); inv_M; reflexivity.
Qed.

Lemma repair_world (c c' : SolutionjDE) (w w' : world) :
  repair c w = Ok c' w' -> w' = w.
Proof.
  unfold repair. generalize (range (sD c)). intros xs. revert c w.
  induction xs as [|x xs IH]; intros c w H; simpl in H; inv_M; [reflexivity|].
  apply repair_at_world in H0. subst. eapply IH, H.
Qed.

Lemma sample_pick_same_logs (i : nat) (st st' : list nat * list nat) (w w' : world) :
  sample_pick i st w = Ok st' w' -> same_logs w w'.
Proof.
  destruct st as [pool result]. unfold sample_pick. cbn [fst snd].
  intros H. inv_M. split; reflexivity.
Qed.

Lemma sample_same_logs (population : list nat) (k : nat) (w w' : world) (r : list nat) :
  sample population k w = Ok r w' -> same_logs w w'.
Proof.
  unfold sample. destruct (Nat.leb _ _); [|discriminate]. intros H.
  apply bind_Ok in H as (st & ws & Hs & Hret). apply ret_Ok in Hret as [_ ->].
  eapply for_each_same_logs; [|exact Hs].
  intros x b v b' v'. apply sample_pick_same_logs.
Qed.

Lemma resample_same_logs (np : Z) (i : nat) (fuel : nat) :
  forall (r : list nat) (w : world) (r' : list nat) (w' : world),
    resample fuel np i r w = Ok r' w' -> same_logs w w'.
Proof.
  induction fuel as [|fuel IH]; intros r w r' w' H; cbn [resample] in H;
    destruct (contains i r).
  - discriminate.
  - inv_M. apply same_logs_refl.
  - apply bind_Ok in H as (r2 & w2 & Hs & H).
    eapply same_logs_trans; [eapply sample_same_logs, Hs | eapply IH, H].
  - inv_M. apply same_logs_refl.
Qed.

Lemma pickDonors_same_logs (fuel : nat) (self : jDE) (i : nat) (w w' : world)
    (r : list nat) :
  pickDonors fuel self i w = Ok r w' -> same_logs w w'.
Proof.
  unfold pickDonors. intros H. apply bind_Ok in H as (r1 & w1 & Hs & H).
  eapply same_logs_trans; [eapply sample_same_logs, Hs | eapply resample_same_logs, H].
Qed.

(** A successful offspring construction, read back phase by phase. *)
Lemma offspring_Ok (fuel : nat) (self : jDE) (pop : list SolutionjDE) (i : nat)
    (w w' : world) (child : SolutionjDE) :
  offspring fuel self pop i w = Ok child w' ->
  exists (r : list nat) (w1 w2 w3 : world) (c0 c1 c2 : SolutionjDE),
    pickDonors fuel self i w1 = Ok r w2 /\
    for_each (range (D self))
      (crossover_at self pop i r (int (tape (cursor w2) * inject_Z (Np self))))
      c0 (mkWorld (S (cursor w2)) (evals w2) (bests w2)) = Ok c1 w3 /\
    repair c1 w3 = Ok c2 w3 /\
    child = evaluated c2 /\
    same_logs w w1 /\ same_logs w w3 /\
    w' = mkWorld (cursor w3) (fitness_of c2 :: evals w3) (bests w3).
Proof.
  unfold offspring. intros H.
  apply bind_Ok in H as (n0 & wa & Hinit & H).
  apply bind_Ok in H as (f & wb & Hf & H).
  apply bind_Ok in H as (cr & wc & Hcr & H).
  apply bind_Ok in H as (r & wd & Hr & H).
  apply bind_Ok in H as (u & we & Hu & H).
  apply bind_Ok in H as (c1 & wf & Hx & H).
  apply bind_Ok in H as (c2 & wg & Hrep & H).
  apply evaluate_Ok in H as [-> ->].
  apply random_Ok in Hu as [-> ->].
  pose proof (repair_world _ _ _ _ Hrep). subst wg.
  destruct (SolutionjDE_init_Ok (D self) (Lower self) (Upper self) w) as (v & Hv & _).
  rewrite Hv in Hinit. injection Hinit as <- <-.
  apply self_adapt_same_logs in Hf. apply self_adapt_same_logs in Hcr.
  assert (Hwc : same_logs w wc).
  { eapply same_logs_trans; [|exact Hcr]. eapply same_logs_trans; [|exact Hf].
    split; reflexivity. }
  assert (Hwd : same_logs wc wd) by (eapply pickDonors_same_logs, Hr).
  exists r, wc, wd, wf. eexists _, c1, c2.
  split; [exact Hr|]. split; [exact Hx|]. split; [exact Hrep|].
  split; [reflexivity|]. split; [exact Hwc|]. split; [|reflexivity].
  eapply same_logs_trans; [exact Hwc|]. eapply same_logs_trans; [exact Hwd|].
  eapply same_logs_trans; [|eapply for_each_same_logs; [|exact Hx]].
  - split; reflexivity.
  - intros x b v0 b' v' Hb. eapply crossover_at_same_logs, Hb.
Qed.

Lemma self_adapt_Ok (self : jDE) (pop : list SolutionjDE) (i : nat)
    (inherit : SolutionjDE -> Q) (w w' : world) (v : Q) :
  self_adapt self pop i inherit w = Ok v w' ->
  (exists tao, Tao self = Some tao) /\ adapted pop i inherit v /\ same_logs w w'.
Proof.
  unfold self_adapt. intros H. inv_M.
  split; [eauto|].
  destruct (Qltb _ _); inv_M.
  - split; [left; eauto|split; reflexivity].
  - split; [right; eauto|split; reflexivity].
Qed.

Lemma donor_value_Ok (pop : list SolutionjDE) (r : list nat) (k j : nat)
    (w w' : world) (v : Q) :
  donor_value pop r k j w = Ok v w' -> donor_component pop r k j = Some v /\ w' = w.
Proof.
  unfold donor_value, donor_component, component. intros H. inv_M.
  rewrite H0, H1. auto.
Qed.

Lemma crossover_at_Ok (self : jDE) (pop : list SolutionjDE) (i : nat) (r : list nat)
    (jrand : Z) (j : nat) (c c' : SolutionjDE) (w w' : world) :
  crossover_at self pop i r jrand j c w = Ok c' w' ->
  exists cr v,
    Cr self = Some cr /\
    j < length (Solution c) /\
    c' = set_Solution c (<[j := v]> (Solution c)) /\
    w' = mkWorld (S (cursor w)) (evals w) (bests w) /\
    crossed self pop i r jrand cr (tape (cursor w)) j v.
Proof.
  unfold crossover_at, crossed. intros H. inv_M.
  match goal with Hcr : Cr self = Some ?x |- _ => exists x end.
  destruct (_ || _); inv_M.
  - repeat match goal with
           | Hd : donor_value _ _ _ _ _ = Ok _ _ |- _ =>
               apply donor_value_Ok in Hd; destruct Hd as [? ?]; subst
           end.
    eexists. repeat (split; [eassumption || reflexivity|]). eauto 10.
  - eexists. repeat (split; [eassumption || reflexivity|]).
    unfold component.
    match goal with Hp : pop !! i = Some _ |- _ => rewrite Hp end. assumption.
Qed.

Lemma crossover_loop_Ok (self : jDE) (pop : list SolutionjDE) (i : nat) (r : list nat)
    (jrand : Z) (n : nat) (c c' : SolutionjDE) (w w' : world) :
  for_each (seq 0 n) (crossover_at self pop i r jrand) c w = Ok c' w' ->
  (sD c' = sD c /\ LB c' = LB c /\ UB c' = UB c /\
   sF c' = sF c /\ sCr c' = sCr c /\ Fitness c' = Fitness c) /\
  length (Solution c') = length (Solution c) /\
  (cursor w' = cursor w + n /\ same_logs w w') /\
  forall j, j < n ->
    exists cr v,
      Cr self = Some cr /\ Solution c' !! j = Some v /\
      crossed self pop i r jrand cr (tape (cursor w + j)) j v.
Proof.
  intros Hrun.
  pose proof (for_each_seq_inv
    (fun m b v =>
       (sD b = sD c /\ LB b = LB c /\ UB b = UB c /\
        sF b = sF c /\ sCr b = sCr c /\ Fitness b = Fitness c) /\
       length (Solution b) = length (Solution c) /\
       (cursor v = cursor w + m /\ same_logs w v) /\
       forall j, j < m ->
         exists cr x,
           Cr self = Some cr /\ Solution b !! j = Some x /\
           crossed self pop i r jrand cr (tape (cursor w + j)) j x)
    (crossover_at self pop i r jrand) n 0 c w c' w') as Hinv.
  apply Hinv; [| |exact Hrun]; clear Hinv Hrun.
  - intros m b v b' v' _ (Hf & Hlen & (Hc & He & Hb) & Hdone) Hstep.
    apply crossover_at_Ok in Hstep as (cr & x & Hcr & Hm & -> & -> & Hx).
    cbn [sD LB UB sF sCr Fitness Solution set_Solution cursor evals bests].
    split; [exact Hf|]. split; [rewrite length_insert; exact Hlen|].
    split; [split; [lia|split; assumption]|].
    intros j Hj. destruct (Nat.eq_dec j m) as [-> | Hne].
    + exists cr, x. split; [exact Hcr|].
      split; [apply list_lookup_insert_eq, Hm|]. rewrite <- Hc. exact Hx.
    + destruct (Hdone j ltac:(lia)) as (cr' & y & H1 & H2 & H3).
      exists cr', y. split; [exact H1|]. split; [|exact H3].
      rewrite list_lookup_insert_ne by lia. exact H2.
  - repeat split; try reflexivity; try lia.
Qed.

(** A successful offspring construction in full: the two self-adapted
    parameters, the donors, the vector [c1] left by the crossover loop, and
    the repaired and evaluated result. *)
Lemma offspring_inv (fuel : nat) (self : jDE) (pop : list SolutionjDE) (i : nat)
    (w w' : world) (child : SolutionjDE) :
  offspring fuel self pop i w = Ok child w' ->
  exists (r : list nat) (w1 wj : world) (c1 : SolutionjDE),
    (exists tao, Tao self = Some tao) /\
    adapted pop i sF (sF c1) /\ adapted pop i sCr (sCr c1) /\
    pickDonors fuel self i w1 = Ok r wj /\
    sD c1 = D self /\ LB c1 = Lower self /\ UB c1 = Upper self /\
    length (Solution c1) = Z.to_nat (D self) /\
    (forall j, j < Z.to_nat (D self) ->
       exists cr v,
         Cr self = Some cr /\ Solution c1 !! j = Some v /\
         crossed self pop i r (int (tape (cursor wj) * inject_Z (Np self))) cr
                 (tape (S (cursor wj) + j)) j v) /\
    child = evaluated
              (set_Solution c1 (map (clamp (Lower self) (Upper self)) (Solution c1))) /\
    evals w' = fitness_of child :: evals w /\ bests w' = bests w.
Proof.
  unfold offspring. intros H.
  apply bind_Ok in H as (n0 & wa & Hinit & H).
  apply bind_Ok in H as (f & wb & Hf & H).
  apply bind_Ok in H as (cr & wc & Hcr & H).
  apply bind_Ok in H as (r & wd & Hr & H).
  apply bind_Ok in H as (u & we & Hu & H).
  apply bind_Ok in H as (c1 & wf & Hx & H).
  apply bind_Ok in H as (c2 & wg & Hrep & H).
  apply evaluate_Ok in H as [-> ->].
  apply random_Ok in Hu as [-> ->].
  destruct (SolutionjDE_init_Ok (D self) (Lower self) (Upper self) w) as (v & Hv & Hvl).
  rewrite Hv in Hinit. injection Hinit as <- <-.
  apply self_adapt_Ok in Hf as (HTao & Hfa & Hfl).
  apply self_adapt_Ok in Hcr as (_ & Hcra & Hcrl).
  pose proof (pickDonors_same_logs _ _ _ _ _ _ Hr) as Hrl.
  apply crossover_loop_Ok in Hx as ((HD & HLB & HUB & HsF & HsCr & _) & Hlen & (_ & Hxl) & Hj).
  cbn [sD LB UB sF sCr Solution set_F set_Cr cursor] in *.
  assert (Hwf : wf_solution c1).
  { unfold wf_solution. rewrite Hlen, HD. exact Hvl. }
  rewrite (repair_is_map_clamp c1 wf Hwf) in Hrep. injection Hrep as <- <-.
  exists r, wc, wd, c1.
  split; [exact HTao|].
  split; [rewrite HsF; exact Hfa|]. split; [rewrite HsCr; exact Hcra|].
  split; [exact Hr|].
  split; [exact HD|]. split; [exact HLB|]. split; [exact HUB|].
  split; [rewrite Hlen; exact Hvl|].
  split; [exact Hj|].
  split; [rewrite HLB, HUB; reflexivity|].
  assert (Hlogs : same_logs w wf).
  { eapply same_logs_trans; [|exact Hxl].
    eapply same_logs_trans; [|split; reflexivity].
    eapply same_logs_trans; [|exact Hrl].
    eapply same_logs_trans; [|exact Hcrl].
    eapply same_logs_trans; [|exact Hfl]. split; reflexivity. }
  destruct Hlogs as [He Hb]. cbn [evals bests]. rewrite He, Hb. split; reflexivity.
Qed.

(** C8. Whenever an offspring is produced at parent index [i] from a tape
    of draws in [[0, 1)]: once the fresh candidate is built and its [F] and
    [Cr] are self-adapted, [pickDonors] returns exactly three indices of
    [range(NP)], pairwise distinct and all different from [i]; and these are
    the donors this offspring is made of: every component [j] of its vector
    is the clamped value that the crossover round of dimension [j] stores
    given this triple, that is the mutant
    [pop[r0][j] + self.F * (pop[r1][j] - pop[r2][j])] where the test selects
    it, and the parent's component otherwise. *)
Theorem offspring_donors_distinct (fuel : nat) (self : jDE) (pop : list SolutionjDE)
    (i : nat) (w w' : world) (child : SolutionjDE) :
  unit_tape ->
  offspring fuel self pop i w = Ok child w' ->
  exists (r0 r1 r2 : nat) (c0 : SolutionjDE) (f_own cr_own : Q) (wa wb w1 wj : world),
    SolutionjDE_init (D self) (Lower self) (Upper self) w = Ok c0 wa /\
    self_adapt self pop i sF wa = Ok f_own wb /\
    self_adapt self pop i sCr wb = Ok cr_own w1 /\
    pickDonors fuel self i w1 = Ok [r0; r1; r2] wj /\
    r0 <> r1 /\ r0 <> r2 /\ r1 <> r2 /\
    r0 <> i /\ r1 <> i /\ r2 <> i /\
    (Z.of_nat r0 < Np self)%Z /\ (Z.of_nat r1 < Np self)%Z /\ (Z.of_nat r2 < Np self)%Z /\
    cursor w' = S (cursor wj) + Z.to_nat (D self) /\
    sF child = f_own /\ sCr child = cr_own /\
    length (Solution child) = Z.to_nat (D self) /\
    forall j, j < Z.to_nat (D self) ->
      exists cr v,
        Cr self = Some cr /\
        crossed self pop i [r0; r1; r2]
                (int (tape (cursor wj) * inject_Z (Np self))) cr
                (tape (S (cursor wj) + j)) j v /\
        Solution child !! j = Some (clamp (Lower self) (Upper self) v).
Proof.
  intros Hunit H. unfold offspring in H.
  apply bind_Ok in H as (c0 & wa & Hinit & H).
  apply bind_Ok in H as (f & wb & Hf & H).
  apply bind_Ok in H as (cr & w1 & Hcr & H).
  apply bind_Ok in H as (r & wj & Hr & H).
  apply bind_Ok in H as (u & we & Hu & H).
  apply bind_Ok in H as (c1 & wx & Hx & H).
  apply bind_Ok in H as (c2 & wg & Hrep & H).
  apply evaluate_Ok in H as [-> ->].
  apply random_Ok in Hu as [-> ->].
  destruct (pickDonors_Ok fuel self i w1 wj r Hunit Hr) as (Ht & Hc & _).
  destruct (donor_triple_distinct (Np self) i r Ht Hc)
    as (r0 & r1 & r2 & -> & Hd).
  destruct (SolutionjDE_init_Ok (D self) (Lower self) (Upper self) w) as (v0 & Hv & Hvl).
  pose proof Hinit as Hinit'. rewrite Hv in Hinit'. injection Hinit' as <- <-.
  apply crossover_loop_Ok in Hx
    as ((HD & HLB & HUB & HsF & HsCr & _) & Hlen & ((Hcur & _) & Hj)).
  cbn [sD LB UB sF sCr Solution set_F set_Cr cursor] in *.
  assert (Hwf : wf_solution c1).
  { unfold wf_solution. rewrite Hlen, HD. exact Hvl. }
  rewrite (repair_is_map_clamp c1 wx Hwf) in Hrep. injection Hrep as <- <-.
  exists r0, r1, r2. eexists _, f, cr, _, wb, w1, wj.
  split; [exact Hinit|]. split; [exact Hf|]. split; [exact Hcr|]. split; [exact Hr|].
  cbn [evaluated set_Fitness set_Solution sD LB UB sF sCr Solution Fitness cursor].
  destruct Hd as (d1 & d2 & d3 & d4 & d5 & d6 & d7 & d8 & d9).
  do 9 (split; [assumption|]).
  split; [exact Hcur|]. split; [exact HsF|]. split; [exact HsCr|].
  split; [rewrite length_map, Hlen; exact Hvl|].
  intros j Hlt. destruct (Hj j Hlt) as (cr' & v & H1 & H2 & H3).
  exists cr', v. split; [exact H1|]. split; [exact H3|].
  rewrite HLB, HUB.
  change (map (clamp (Lower self) (Upper self)) (Solution c1))
    with (clamp (Lower self) (Upper self) <$> Solution c1).
  rewrite list_lookup_fmap, H2. reflexivity.
Qed.

(** ** One generational transition *)

Lemma generationStep_at_Ok (fuel : nat) (pop newPop : list SolutionjDE) (i : nat)
    (self : jDE) (st' : list SolutionjDE * jDE) (w w' : world) :
  generationStep_at fuel pop i (newPop, self) w = Ok st' w' ->
  length newPop = i ->
  (exists b, snd st' = set_bestSolution self b) /\
  length (fst st') = S i /\
  (forall k, k < i -> fst st' !! k = newPop !! k) /\
  selected_at fuel self pop (fst st') i /\
  exists f, tracked_by [f] (Fitness (bestSolution self)) w
                       (Fitness (bestSolution (snd st'))) w'.
Proof.
  unfold generationStep_at. cbn [fst snd]. intros H Hlen.
  apply bind_Ok in H as (child & w1 & Hoff & H).
  apply bind_Ok in H as (s1 & w2 & Hbest & H).
  apply bind_Ok in H as (parent & w3 & Hpar & H).
  apply getitem_Ok in Hpar as [Hpar ->].
  apply update_best_Ok in Hbest as (Hs1 & Hfit & ->).
  pose proof Hoff as Hoff'.
  apply offspring_Ok in Hoff' as (r & wa & wb & wc & c0 & c1 & c2 & _ & _ & _ & Hchild
                                   & _ & [He Hb] & ->).
  assert (Hpop : Population s1 = Population self).
  { rewrite Hs1. destruct (fit_ltb _ _); reflexivity. }
  rewrite Hpop in Hpar.
  assert (Hb1 : exists b, s1 = set_bestSolution self b).
  { rewrite Hs1. destruct (fit_ltb _ _); [eauto|].
    exists (bestSolution self). destruct self. reflexivity. }
  assert (Htr : tracked_by [fitness_of c2] (Fitness (bestSolution self)) w
                           (Fitness (bestSolution s1))
                           (mkWorld (cursor wc) (fitness_of c2 :: evals wc)
                                    (Fitness (bestSolution s1) :: bests wc))).
  { repeat split; cbn [evals bests rev app best_trace map fold_left].
    - rewrite He. reflexivity.
    - rewrite Hb, Hfit, Hchild. reflexivity.
    - rewrite Hfit, Hchild. reflexivity. }
  destruct (fit_ltb (Fitness child) (Fitness parent)) eqn:Hlt.
  - apply ret_Ok in H as [-> ->]. cbn [fst snd].
    split; [exact Hb1|]. split; [rewrite length_app; simpl; lia|].
    split; [intros k Hk; apply lookup_app_l; lia|].
    split; [|eauto].
    exists child, parent, w. eexists. split; [exact Hoff|]. split; [exact Hpar|].
    left. split; [exact Hlt|].
    rewrite lookup_app_r by lia. rewrite Hlen, Nat.sub_diag. reflexivity.
  - apply bind_Ok in H as (p & w4 & Hp & H). apply getitem_Ok in Hp as [Hp ->].
    apply ret_Ok in H as [-> ->]. cbn [fst snd].
    split; [exact Hb1|]. split; [rewrite length_app; simpl; lia|].
    split; [intros k Hk; apply lookup_app_l; lia|].
    split; [|eauto].
    exists child, parent, w. eexists. split; [exact Hoff|]. split; [exact Hpar|].
    right. split; [exact Hlt|]. exists p. split; [exact Hp|].
    rewrite lookup_app_r by lia. rewrite Hlen, Nat.sub_diag. reflexivity.
Qed.

Lemma selected_at_stable (fuel : nat) (self : jDE) (pop np np' : list SolutionjDE)
    (i : nat) (b : SolutionjDE) :
  np' !! i = np !! i ->
  selected_at fuel (set_bestSolution self b) pop np i ->
  selected_at fuel self pop np' i.
Proof.
  intros Heq (child & parent & wi & wi' & Hoff & Hpar & Hsel).
  exists child, parent, wi, wi'. rewrite Heq. auto.
Qed.

Lemma generationStep_Ok (fuel : nat) (self : jDE) (pop : list SolutionjDE)
    (w w' : world) (newPop : list SolutionjDE) (self' : jDE) :
  generationStep fuel self pop w = Ok (newPop, self') w' ->
  length newPop = Z.to_nat (Np self) /\
  (exists b, self' = set_bestSolution self b) /\
  (exists fs, length fs = Z.to_nat (Np self) /\
              tracked_by fs (Fitness (bestSolution self)) w
                         (Fitness (bestSolution self')) w') /\
  (forall i, i < Z.to_nat (Np self) -> selected_at fuel self pop newPop i).
Proof.
  unfold generationStep, range. intros Hrun.
  pose proof (for_each_seq_inv
    (fun k st v =>
       length (fst st) = k /\
       (exists b, snd st = set_bestSolution self b) /\
       (exists fs, length fs = k /\
                   tracked_by fs (Fitness (bestSolution self)) w
                              (Fitness (bestSolution (snd st))) v) /\
       (forall i, i < k -> selected_at fuel self pop (fst st) i))
    (generationStep_at fuel pop) (Z.to_nat (Np self)) 0 ([], self) w
    (newPop, self') w') as Hinv.
  cbn [fst snd] in Hinv. apply Hinv; [| |exact Hrun]; clear Hinv Hrun.
  - intros i [np s] v st' v' _ (Hlen & [b Hs] & (fs & Hfs & Ht) & Hsel) Hstep.
    cbn [fst snd] in *. subst s.
    destruct (generationStep_at_Ok fuel pop np i _ st' v v' Hstep Hlen)
      as ([b' Hb'] & Hlen' & Hold & Hnew & f & Hf).
    split; [exact Hlen'|].
    split; [exists b'; rewrite Hb'; reflexivity|].
    split.
    + exists (fs ++ [f]). split; [rewrite length_app; simpl; lia|].
      eapply tracked_by_trans; eassumption.
    + intros k Hk. destruct (Nat.eq_dec k i) as [-> | Hne].
      * eapply selected_at_stable; [reflexivity|exact Hnew].
      * destruct (Hsel k ltac:(lia)) as (child & parent & wi & wi' & Ho & Hp & Hs).
        exists child, parent, wi, wi'. rewrite Hold by lia. auto.
  - split; [reflexivity|].
    split; [exists (bestSolution self); destruct self; reflexivity|].
    split; [exists []; split; [reflexivity|apply tracked_by_nil; reflexivity]|].
    intros i Hi. lia.
Qed.

(** C6. After one generational transition run on the engine's own
    population (as [run] calls it), the new population has [NP] entries and
    at every index [i] there is an offspring built for [i] such that the
    entry is that offspring when its fitness is strictly lower than the
    parent's and the unchanged parent otherwise (in particular on a tie);
    the fitness at [i] never increases. *)
Theorem generationStep_selection (fuel : nat) (self : jDE) (w w' : world)
    (newPopulation : list SolutionjDE) (self' : jDE) :
  generationStep fuel self (Population self) w = Ok (newPopulation, self') w' ->
  length newPopulation = Z.to_nat (Np self) /\
  forall i, i < Z.to_nat (Np self) ->
    exists (parent child : SolutionjDE) (wi wi' : world),
      Population self !! i = Some parent /\
      offspring fuel self (Population self) i wi = Ok child wi' /\
      newPopulation !! i =
        Some (if fit_ltb (Fitness child) (Fitness parent) then child else parent) /\
      (Fitness child = Fitness parent -> newPopulation !! i = Some parent) /\
      (forall c, newPopulation !! i = Some c -> fit_le (Fitness c) (Fitness parent)).
Proof.
  intros Hrun. apply generationStep_Ok in Hrun as (Hlen & _ & _ & Hsel).
  split; [exact Hlen|]. intros i Hi.
  destruct (Hsel i Hi) as (child & parent & wi & wi' & Hoff & Hpar & Hcase).
  exists parent, child, wi, wi'. split; [exact Hpar|]. split; [exact Hoff|].
  destruct Hcase as [[Hlt Hnew] | [Hlt (p & Hp & Hnew)]]; rewrite Hlt.
  - split; [exact Hnew|]. split.
    + intros Heq. rewrite Heq, fit_ltb_irrefl in Hlt. discriminate.
    + intros c Hc. rewrite Hnew in Hc. injection Hc as <-. apply fit_ltb_le, Hlt.
  - rewrite Hpar in Hp. injection Hp as <-.
    split; [exact Hnew|]. split; [intros _; exact Hnew|].
    intros c Hc. rewrite Hnew in Hc. injection Hc as <-. apply fit_le_refl.
Qed.

(** ** The main loop *)

Lemma run_loop_Ok (inner : nat) :
  forall (fuel : nat) (FEs : Z) (self : jDE) (w : world) (self' : jDE) (w' : world),
    run_loop fuel inner FEs self w = Ok self' w' ->
    exists (g : nat) (fs : list Q),
      length fs = g * Z.to_nat (Np self) /\
      tracked_by fs (Fitness (bestSolution self)) w (Fitness (bestSolution self')) w' /\
      (nFES self < FEs + Z.of_nat g * Np self)%Z /\
      (g = 0 \/ (FEs + (Z.of_nat g - 1) * Np self <= nFES self)%Z).
Proof.
  induction fuel as [|fuel IH]; intros FEs self w self' w' H; cbn [run_loop] in H;
    destruct (Z.leb_spec FEs (nFES self)) as [Hle | Hgt].
  - discriminate.
  - apply ret_Ok in H as [-> ->]. exists 0, []. simpl.
    split; [reflexivity|]. split; [apply tracked_by_nil; reflexivity|].
    split; [lia|]. left. reflexivity.
  - apply bind_Ok in H as ([newPop s1] & w1 & Hgen & H). cbn [fst snd] in H.
    apply generationStep_Ok in Hgen as (_ & [b ->] & (fs1 & Hfs1 & Ht1) & _).
    apply IH in H as (g & fs2 & Hfs2 & Ht2 & Hexit & Hlast).
    cbn [Np nFES bestSolution set_Population set_bestSolution] in *.
    exists (S g), (fs1 ++ fs2).
    split; [rewrite length_app; lia|].
    split; [eapply tracked_by_trans; eassumption|].
    split; [lia|]. right. destruct Hlast as [-> | Hlast]; lia.
  - apply ret_Ok in H as [-> ->]. exists 0, []. simpl.
    split; [reflexivity|]. split; [apply tracked_by_nil; reflexivity|].
    split; [lia|]. left. reflexivity.
Qed.

Lemma run_Ok (fuel : nat) (self : jDE) (w w' : world) (v : fitness) (self' : jDE) :
  run fuel self w = Ok (v, self') w' ->
  exists (g : nat) (fs : list Q),
    v = Fitness (bestSolution self') /\
    length fs = length (Population self) + Z.to_nat (Np self) + g * Z.to_nat (Np self) /\
    tracked_by fs (Fitness (bestSolution self)) w v w' /\
    (nFES self < Np self + Z.of_nat g * Np self)%Z /\
    (g = 0 \/ (Np self + (Z.of_nat g - 1) * Np self <= nFES self)%Z).
Proof.
  intros Hrun.
  destruct (run_prefix self w) as (cs & b1 & w0 & w1 & _ & Hlen & _ & _ & Ht & Hr).
  rewrite Hr in Hrun. clear Hr.
  apply bind_Ok in Hrun as (s & w2 & Hloop & Hret). apply ret_Ok in Hret as [[= -> ->] ->].
  apply run_loop_Ok in Hloop as (g & fs2 & Hfs2 & Ht2 & Hexit & Hlast).
  cbn [Np nFES bestSolution set_Population set_bestSolution] in *.
  exists g, (map fitness_of (Population self ++ cs) ++ fs2).
  split; [reflexivity|].
  split; [rewrite length_app, length_map, length_app; lia|].
  split; [eapply tracked_by_trans; eassumption|].
  split; assumption.
Qed.

(** C2, as the code has it ([while FEs <= self.nFES]). A run that returns,
    started with an empty population, [NP >= 4] and [nFES > 0], has called
    the objective function [n] times where [n] is a positive multiple of
    [NP], strictly greater than [nFES] and at most [nFES + NP]. *)
Theorem run_evaluation_count (fuel : nat) (self : jDE) (w w' : world) (v : fitness)
    (self' : jDE) :
  Population self = [] ->
  (4 <= Np self)%Z ->
  (0 < nFES self)%Z ->
  run fuel self w = Ok (v, self') w' ->
  exists (g : nat) (fs : list Q),
    evals w' = rev fs ++ evals w /\
    Z.of_nat (length fs) = ((1 + Z.of_nat g) * Np self)%Z /\
    (nFES self < Z.of_nat (length fs) <= nFES self + Np self)%Z.
Proof.
  intros Hpop Hnp Hbudget Hrun.
  apply run_Ok in Hrun as (g & fs & _ & Hlen & (Hev & _) & Hexit & Hlast).
  rewrite Hpop in Hlen. simpl in Hlen.
  exists g, fs. split; [exact Hev|].
  assert (Hn : Z.of_nat (length fs) = ((1 + Z.of_nat g) * Np self)%Z).
  { rewrite Hlen. rewrite Nat2Z.inj_add, Nat2Z.inj_mul, Z2Nat.id by lia. lia. }
  split; [exact Hn|]. rewrite Hn. destruct Hlast as [-> | Hlast]; simpl; lia.
Qed.

(** C7. Over a run that returns, let [fs] be the values the objective
    function returned, in order. The recorded best fitness after each
    evaluation is the previous one, replaced by the new value exactly when
    that value is strictly lower; so the record never increases. The
    returned value is the engine's best fitness: it is at most the best
    fitness held before the run and at most every value observed, and it is
    one of them; for an engine whose best fitness starts at infinity (as
    constructed) and a run that evaluated anything, it is an observed
    value. *)
Theorem best_fitness_running_minimum (fuel : nat) (self : jDE) (w w' : world)
    (v : fitness) (self' : jDE) :
  run fuel self w = Ok (v, self') w' ->
  exists fs : list Q,
    evals w' = rev fs ++ evals w /\
    bests w' = rev (best_trace (Fitness (bestSolution self)) fs) ++ bests w /\
    v = Fitness (bestSolution self') /\
    (forall k prev cur f,
       (Fitness (bestSolution self) :: best_trace (Fitness (bestSolution self)) fs) !! k
         = Some prev ->
       best_trace (Fitness (bestSolution self)) fs !! k = Some cur ->
       fs !! k = Some f ->
       cur = (if fit_ltb (Finite f) prev then Finite f else prev) /\ fit_le cur prev) /\
    (last (best_trace (Fitness (bestSolution self)) fs) = Some v \/
     (fs = [] /\ v = Fitness (bestSolution self))) /\
    fit_le v (Fitness (bestSolution self)) /\
    (forall f, In f fs -> fit_le v (Finite f)) /\
    (v = Fitness (bestSolution self) \/ exists f, In f fs /\ v = Finite f) /\
    (Fitness (bestSolution self) = Inf -> fs <> [] -> exists f, In f fs /\ v = Finite f).
Proof.
  intros Hrun.
  apply run_Ok in Hrun as (g & fs & Hv & _ & (Hev & Hbs & Hfold) & _).
  set (b0 := Fitness (bestSolution self)) in *.
  assert (Hle : forall f, In f fs -> fit_le v (Finite f)).
  { intros f Hin. rewrite Hfold. apply fold_improve_le_each, in_map, Hin. }
  assert (Hatt : v = b0 \/ exists f, In f fs /\ v = Finite f).
  { destruct (fold_improve_attained (map Finite fs) b0) as [H | H].
    - left. congruence.
    - right. rewrite <- Hfold in H. apply in_map_iff in H as (f & Hf & Hin). eauto. }
  exists fs. repeat split; try assumption.
  - eapply best_trace_step; eassumption.
  - erewrite (best_trace_step fs b0 k prev cur f) by eassumption.
    apply improve_le_best.
  - destruct fs as [|f fs]; [right; auto|left].
    rewrite Hfold. apply best_trace_last.
  - rewrite Hfold. apply fold_improve_le_init.
  - intros Hinf Hne. destruct Hatt as [H | H]; [|exact H].
    destruct fs as [|f fs]; [contradiction|].
    specialize (Hle f (or_introl eq_refl)). rewrite H, Hinf in Hle. destruct Hle.
Qed.

(** ** The constructor *)

(** C5, as the code has it. The constructor checks nothing: whatever the
    population size and the bounds (so also for [NP < 4] or
    [Lower >= Upper]), it returns an engine that stores them as given, with
    an empty population. *)
Theorem constructor_validates_nothing
    (d np nfes : Z) (f cr lower upper : Q) (w : world) :
  exists self w0,
    jDE_init d np nfes f cr lower upper w = Ok self w0 /\
    D self = d /\ Np self = np /\ nFES self = nfes /\
    Lower self = lower /\ Upper self = upper /\ Population self = [].
Proof.
  destruct (jDE_init_Ok d np nfes f cr lower upper w) as (best & w0 & Hinit & _).
  eexists _, w0. split; [exact Hinit|]. repeat split.
Qed.

(** * Further properties of the code *)

(** ** A fresh candidate *)

Lemma draw_within (lb ub u : Q) :
  (lb <= ub)%Q -> (0 <= u)%Q -> (u < 1)%Q ->
  (lb <= lb + (ub - lb) * u <= ub)%Q.
Proof. intros H0 H1 H2. split; nra. Qed.

Lemma SolutionjDE_init_within (d : Z) (lb ub : Q) (w : world) :
  unit_tape ->
  (lb <= ub)%Q ->
  exists c w',
    SolutionjDE_init d lb ub w = Ok c w' /\
    sD c = d /\ LB c = lb /\ UB c = ub /\
    sF c = 1 # 2 /\ sCr c = 9 # 10 /\ Fitness c = Inf /\
    length (Solution c) = Z.to_nat d /\
    all_within lb ub (Solution c) /\
    cursor w' = cursor w + Z.to_nat d /\ same_logs w w'.
Proof.
  intros Hunit Hb.
  unfold SolutionjDE_init, generateSolution. unfold bind. rewrite randoms_Ok.
  eexists _, _. split; [reflexivity|]. cbn [sD LB UB sF sCr Fitness Solution set_Solution].
  repeat split.
  - rewrite !length_map, length_seq. reflexivity.
  - unfold all_within. apply Forall_forall. intros x Hx.
    apply list_elem_of_In, in_map_iff in Hx as (u & <- & Hu).
    apply in_map_iff in Hu as (k & <- & _).
    destruct (Hunit k) as [H0 H1]. apply draw_within; assumption.
Qed.


(** X1. With [LB <= UB] and draws taken from [[0, 1)],
    [SolutionjDE(D, LB, UB)] returns a candidate with [max(D, 0)]
    components, all within [[LB, UB]], the defaults [F = 0.5] and
    [Cr = 0.9], and fitness infinity; it consumes exactly [max(D, 0)] draws
    and evaluates nothing. *)
Theorem fresh_candidate_within_bounds (d : Z) (lb ub : Q) (w : world) :
  unit_tape ->
  (lb <= ub)%Q ->
  exists c w',
    SolutionjDE_init d lb ub w = Ok c w' /\
    sD c = d /\ LB c = lb /\ UB c = ub /\
    sF c = 1 # 2 /\ sCr c = 9 # 10 /\ Fitness c = Inf /\
    length (Solution c) = Z.to_nat d /\
    all_within lb ub (Solution c) /\
    cursor w' = cursor w + Z.to_nat d /\ same_logs w w'.
Proof. apply SolutionjDE_init_within. Qed.

(** ** Equality of candidates *)

Lemma list_eqb_refl (a : list Q) : list_eqb a a = true.
Proof.
  induction a as [|x a IH]; simpl; [reflexivity|].
  rewrite IH, andb_true_r. apply Qeq_bool_iff. reflexivity.
Qed.

Lemma list_eqb_sym (a b : list Q) : list_eqb a b = list_eqb b a.
Proof.
  revert b. induction a as [|x a IH]; intros [|y b]; simpl; try reflexivity.
  rewrite IH. f_equal.
  destruct (Qeq_bool x y) eqn:H1, (Qeq_bool y x) eqn:H2; try reflexivity.
  - apply Qeq_bool_iff in H1. symmetry in H1. apply Qeq_bool_iff in H1. congruence.
  - apply Qeq_bool_iff in H2. symmetry in H2. apply Qeq_bool_iff in H2. congruence.
Qed.

Lemma list_eqb_trans (a b c : list Q) :
  list_eqb a b = true -> list_eqb b c = true -> list_eqb a c = true.
Proof.
  revert b c. induction a as [|x a IH]; intros [|y b] [|z c]; simpl; try discriminate;
    try reflexivity.
  rewrite !andb_true_iff. intros [H1 H2] [H3 H4]. split; [|eapply IH; eassumption].
  apply Qeq_bool_iff. apply Qeq_bool_iff in H1, H3. rewrite H1. exact H3.
Qed.

Lemma list_eqb_length (a b : list Q) : list_eqb a b = true -> length a = length b.
Proof.
  revert b. induction a as [|x a IH]; intros [|y b]; simpl; try discriminate;
    [reflexivity|].
  rewrite andb_true_iff. intros [_ H]. f_equal. apply IH, H.
Qed.

(** X2. [__eq__] is an equivalence on candidates that looks at the vector
    and the fitness only: it is reflexive, symmetric and transitive, it
    holds between two candidates of different [D], bounds, [F] and [Cr] as
    soon as vector and fitness agree, and equal candidates have vectors of
    the same length and are both evaluated or both unevaluated. (Floats are
    rationals here, so a NaN component or fitness is outside the model.) *)
Theorem candidate_equality_is_equivalence (a b c : SolutionjDE) :
  SolutionjDE_eq a a = true /\
  SolutionjDE_eq a b = SolutionjDE_eq b a /\
  (SolutionjDE_eq a b = true -> SolutionjDE_eq b c = true -> SolutionjDE_eq a c = true) /\
  (forall d lb ub f cr,
     SolutionjDE_eq (mkSolution d lb ub f cr (Solution a) (Fitness a)) a = true) /\
  (SolutionjDE_eq a b = true ->
   length (Solution a) = length (Solution b) /\
   (Fitness a = Inf <-> Fitness b = Inf)).
Proof.
  unfold SolutionjDE_eq.
  assert (Hfr : forall x, fit_eqb x x = true).
  { intros [q|]; simpl; [apply Qeq_bool_iff|]; reflexivity. }
  repeat split.
  - rewrite list_eqb_refl, Hfr. reflexivity.
  - rewrite (list_eqb_sym (Solution a)). f_equal.
    destruct (Fitness a) as [x|], (Fitness b) as [y|]; simpl; try reflexivity.
    destruct (Qeq_bool x y) eqn:H1, (Qeq_bool y x) eqn:H2; try reflexivity.
    + apply Qeq_bool_iff in H1. symmetry in H1. apply Qeq_bool_iff in H1. congruence.
    + apply Qeq_bool_iff in H2. symmetry in H2. apply Qeq_bool_iff in H2. congruence.
  - rewrite !andb_true_iff. intros [H1 H2] [H3 H4].
    split; [eapply list_eqb_trans; eassumption|].
    destruct (Fitness a) as [x|], (Fitness b) as [y|], (Fitness c) as [z|];
      simpl in *; try discriminate; try reflexivity.
    apply Qeq_bool_iff. apply Qeq_bool_iff in H2, H4. rewrite H2. exact H4.
  - intros d lb ub f cr. cbn [Solution Fitness]. rewrite list_eqb_refl, Hfr. reflexivity.
  - apply andb_true_iff in H as [H _]. apply list_eqb_length, H.
  - apply andb_true_iff in H as [_ H]. intros Ha. rewrite Ha in H.
    destruct (Fitness b); [discriminate|reflexivity].
  - apply andb_true_iff in H as [_ H]. intros Hb. rewrite Hb in H.
    destruct (Fitness a); [discriminate|reflexivity].
Qed.

(** ** How an offspring is built *)

(** X3. The vector of an offspring, as the code builds it. Whenever an
    offspring is produced at parent index [i]: the engine has [Tao]; its own
    [F] and [Cr] are each a fresh draw or the parent's value; it has the
    engine's dimension and bounds and [max(D, 0)] components; its fitness is
    the objective value of its vector; and for every dimension [j], with
    [u] the [j]-th draw after the one that gave [jrand], component [j] is
    the clamped mutant [pop[r0][j] + self.F * (pop[r1][j] - pop[r2][j])]
    when [u < self.Cr] or [j == jrand], and the clamped parent value
    [pop[i][j]] otherwise, where [self.F] and [self.Cr] are the engine's
    attributes. *)
Theorem offspring_construction (fuel : nat) (self : jDE) (pop : list SolutionjDE)
    (i : nat) (w w' : world) (child : SolutionjDE) :
  offspring fuel self pop i w = Ok child w' ->
  exists (r : list nat) (w1 wj : world),
    (exists tao, Tao self = Some tao) /\
    adapted pop i sF (sF child) /\ adapted pop i sCr (sCr child) /\
    pickDonors fuel self i w1 = Ok r wj /\
    sD child = D self /\ LB child = Lower self /\ UB child = Upper self /\
    length (Solution child) = Z.to_nat (D self) /\
    Fitness child = Finite (FuncEval (sD child) (Solution child)) /\
    forall j, j < Z.to_nat (D self) ->
      exists cr v,
        Cr self = Some cr /\
        crossed self pop i r (int (tape (cursor wj) * inject_Z (Np self))) cr
                (tape (S (cursor wj) + j)) j v /\
        Solution child !! j = Some (clamp (Lower self) (Upper self) v).
Proof.
  intros H.
  apply offspring_inv in H
    as (r & w1 & wj & c1 & HTao & HF & HCr & Hr & HD & HLB & HUB & Hlen & Hj & -> & _).
  exists r, w1, wj. cbn [evaluated set_Fitness set_Solution sD LB UB sF sCr Solution Fitness].
  split; [exact HTao|]. split; [exact HF|]. split; [exact HCr|]. split; [exact Hr|].
  split; [exact HD|]. split; [exact HLB|]. split; [exact HUB|].
  split; [rewrite length_map; exact Hlen|].
  split; [reflexivity|].
  intros j Hlt. destruct (Hj j Hlt) as (cr & v & H1 & H2 & H3).
  exists cr, v. split; [exact H1|]. split; [exact H3|].
  change (map (clamp (Lower self) (Upper self)) (Solution c1))
    with (clamp (Lower self) (Upper self) <$> Solution c1).
  rewrite list_lookup_fmap, H2. reflexivity.
Qed.

Lemma offspring_feasible (fuel : nat) (self : jDE) (pop : list SolutionjDE)
    (i : nat) (w w' : world) (child : SolutionjDE) :
  (Lower self <= Upper self)%Q ->
  offspring fuel self pop i w = Ok child w' ->
  feasible self child /\ consistent child.
Proof.
  intros Hb H.
  apply offspring_inv in H
    as (r & w1 & wj & c1 & _ & _ & _ & _ & HD & HLB & HUB & Hlen & _ & -> & _).
  unfold feasible, consistent, wf_solution.
  cbn [evaluated set_Fitness set_Solution sD LB UB Solution Fitness].
  rewrite length_map. repeat split; try assumption.
  - rewrite Hlen, HD. reflexivity.
  - unfold all_within. apply Forall_forall. intros x Hx.
    apply list_elem_of_In, in_map_iff in Hx as (y & <- & _). apply clamp_range, Hb.
Qed.

(** ** Invariants of a generational transition *)

Lemma with_best_config (self : jDE) (c : SolutionjDE) :
  D (with_best self c) = D self /\ Np (with_best self c) = Np self /\
  nFES (with_best self c) = nFES self /\
  Lower (with_best self c) = Lower self /\ Upper (with_best self c) = Upper self /\
  Population (with_best self c) = Population self /\
  Tao (with_best self c) = Tao self /\ F (with_best self c) = F self /\
  Cr (with_best self c) = Cr self.
Proof. unfold with_best. destruct (fit_ltb _ _); repeat split. Qed.

Lemma with_best_fitness (self : jDE) (c : SolutionjDE) :
  Fitness (bestSolution (with_best self c)) =
  improve (Fitness (bestSolution self)) (Fitness c).
Proof. unfold with_best, improve. destruct (fit_ltb _ _); reflexivity. Qed.

Lemma with_best_cases (self : jDE) (c : SolutionjDE) :
  bestSolution (with_best self c) = bestSolution self \/
  bestSolution (with_best self c) = c.
Proof. unfold with_best. destruct (fit_ltb _ _); auto. Qed.

Lemma generationStep_at_inv (fuel : nat) (pop newPop : list SolutionjDE) (i : nat)
    (self : jDE) (st' : list SolutionjDE * jDE) (w w' : world) :
  generationStep_at fuel pop i (newPop, self) w = Ok st' w' ->
  exists (child parent x : SolutionjDE) (w1 : world),
    offspring fuel self pop i w = Ok child w1 /\
    Population self !! i = Some parent /\
    survivor pop i parent child x /\
    st' = (newPop ++ [x], with_best self child) /\
    w' = mkWorld (cursor w1) (evals w1)
                 (Fitness (bestSolution (with_best self child)) :: bests w1).
Proof.
  unfold generationStep_at. cbn [fst snd]. intros H.
  apply bind_Ok in H as (child & w1 & Hoff & H).
  apply bind_Ok in H as (s1 & w2 & Hbest & H).
  apply bind_Ok in H as (parent & w3 & Hpar & H).
  apply getitem_Ok in Hpar as [Hpar ->].
  apply update_best_Ok in Hbest as (Hs1 & _ & ->).
  fold (with_best self child) in Hs1. subst s1.
  assert (Hpop : Population (with_best self child) = Population self)
    by apply with_best_config.
  rewrite Hpop in Hpar. unfold survivor.
  destruct (fit_ltb (Fitness child) (Fitness parent)) eqn:Hlt.
  - apply ret_Ok in H as [-> ->]. exists child, parent, child, w1.
    rewrite Hlt. auto.
  - apply bind_Ok in H as (p & w4 & Hp & H). apply getitem_Ok in Hp as [Hp ->].
    apply ret_Ok in H as [-> ->]. exists child, parent, p, w1.
    rewrite Hlt. auto.
Qed.

(** An invariant of the loop of [generationStep]. *)
Lemma generationStep_invariant (P : list SolutionjDE -> jDE -> world -> Prop)
    (fuel : nat) (self : jDE) (pop : list SolutionjDE) :
  (forall i newPop s v child v1 parent x,
     i < Z.to_nat (Np self) ->
     length newPop = i ->
     P newPop s v ->
     offspring fuel s pop i v = Ok child v1 ->
     Population s !! i = Some parent ->
     survivor pop i parent child x ->
     P (newPop ++ [x]) (with_best s child)
       (mkWorld (cursor v1) (evals v1)
                (Fitness (bestSolution (with_best s child)) :: bests v1))) ->
  forall (w : world) (newPop : list SolutionjDE) (self' : jDE) (w' : world),
    P [] self w ->
    generationStep fuel self pop w = Ok (newPop, self') w' ->
    P newPop self' w'.
Proof.
  intros Hstep w newPop self' w' Hinit Hrun. unfold generationStep, range in Hrun.
  pose proof (for_each_seq_inv
    (fun k st v => length (fst st) = k /\ P (fst st) (snd st) v)
    (generationStep_at fuel pop) (Z.to_nat (Np self)) 0 ([], self) w
    (newPop, self') w') as Hinv.
  cbn [fst snd] in Hinv. apply Hinv; [| |exact Hrun]; clear Hinv Hrun.
  - intros i [np s] v st' v' Hi [Hlen HP] Hrun. cbn [fst snd] in *.
    apply generationStep_at_inv in Hrun
      as (child & parent & x & v1 & Hoff & Hpar & Hsel & -> & ->).
    cbn [fst snd]. split; [rewrite length_app; simpl; lia|].
    eapply Hstep; try eassumption. lia.
  - split; [reflexivity|exact Hinit].
Qed.

Lemma feasible_config (a b : jDE) (c : SolutionjDE) :
  same_config a b -> feasible b c -> feasible a c.
Proof.
  intros (HD & _ & _ & HL & HU & _) (H1 & H2 & H3 & H4 & H5).
  unfold feasible. rewrite <- HD, <- HL, <- HU. auto.
Qed.

Lemma same_config_refl (a : jDE) : same_config a a.
Proof. repeat split. Qed.

Lemma same_config_trans (a b c : jDE) :
  same_config a b -> same_config b c -> same_config a c.
Proof.
  unfold same_config. intros H1 H2. intuition congruence.
Qed.

Lemma same_config_with_best (a : jDE) (c : SolutionjDE) : same_config a (with_best a c).
Proof. unfold same_config. pose proof (with_best_config a c). tauto. Qed.

(** X4. One generational transition keeps the population in good standing.
    With [Lower <= Upper], if every candidate of the population handed to
    [generationStep] is feasible (the engine's dimension and bounds, [D]
    components, all within the bounds) and carries the objective value of
    its vector as fitness, then so does every candidate of the population it
    returns. The step returns exactly [NP] candidates, calls the objective
    function exactly [NP] times, and changes no engine field other than
    [bestSolution]. *)
Theorem generationStep_keeps_population_sound (fuel : nat) (self : jDE)
    (pop : list SolutionjDE) (w w' : world) (newPop : list SolutionjDE) (self' : jDE) :
  (Lower self <= Upper self)%Q ->
  Forall (sound self) pop ->
  generationStep fuel self pop w = Ok (newPop, self') w' ->
  Forall (sound self) newPop /\
  length newPop = Z.to_nat (Np self) /\
  length (evals w') = length (evals w) + Z.to_nat (Np self) /\
  same_config self self' /\ Population self' = Population self.
Proof.
  intros Hb Hpop Hrun.
  pose proof (generationStep_Ok _ _ _ _ _ _ _ Hrun)
    as (Hlen & _ & (fs & Hfs & (Hev & _)) & _).
  assert (HP : Forall (sound self) newPop /\ same_config self self' /\
               Population self' = Population self).
  { revert Hrun.
    apply (generationStep_invariant
             (fun np s _ => Forall (sound self) np /\ same_config self s /\
                            Population s = Population self)).
    - intros i np s v child v1 parent x _ _ (Hnp & Hcfg & Hp) Hoff _ Hsel.
      split; [|split].
      + apply Forall_app. split; [exact Hnp|]. constructor; [|constructor].
        unfold survivor in Hsel. destruct (fit_ltb _ _).
        * subst x. destruct (offspring_feasible fuel s pop i v v1 child) as [H1 H2];
            [|exact Hoff|].
          { destruct Hcfg as (_ & _ & _ & HL & HU & _). rewrite HL, HU. exact Hb. }
          split; [eapply feasible_config; eassumption|exact H2].
        * eapply (proj1 (Forall_lookup _ _) Hpop), Hsel.
      + eapply same_config_trans; [exact Hcfg|apply same_config_with_best].
      + rewrite <- Hp. apply with_best_config.
    - split; [constructor|]. split; [apply same_config_refl|reflexivity]. }
  destruct HP as (H1 & H2 & H3).
  split; [exact H1|]. split; [exact Hlen|]. split; [|auto].
  rewrite Hev, length_app, length_rev. lia.
Qed.

(** ** Invariants of a run *)

Lemma initPopulation_feasible (self : jDE) (w : world) :
  unit_tape ->
  (Lower self <= Upper self)%Q ->
  exists cs w',
    initPopulation self w = Ok (set_Population self (Population self ++ cs)) w' /\
    length cs = Z.to_nat (Np self) /\
    Forall (fun c => feasible self c /\ Fitness c = Inf /\
                     sF c = 1 # 2 /\ sCr c = 9 # 10) cs /\
    cursor w' = cursor w + Z.to_nat (Np self) * Z.to_nat (D self) /\
    same_logs w w'.
Proof.
  intros Hunit Hb. unfold initPopulation, range.
  destruct (for_each_seq_total
    (fun i s v => exists cs, s = set_Population self (Population self ++ cs) /\
                             length cs = i /\
                             Forall (fun c => feasible self c /\ Fitness c = Inf /\
                                              sF c = 1 # 2 /\ sCr c = 9 # 10) cs /\
                             cursor v = cursor w + i * Z.to_nat (D self) /\
                             same_logs w v)
    (fun _ s => c <- SolutionjDE_init (D s) (Lower s) (Upper s) ;;
                ret (set_Population s (Population s ++ [c])))
    (Z.to_nat (Np self)) 0 self w) as (s' & w' & Hrun & cs & -> & Hlen & Hcs & Hc & Hl).
  - intros i s v _ (cs & -> & Hlen & Hcs & Hc & Hl).
    destruct (SolutionjDE_init_within (D self) (Lower self) (Upper self) v Hunit Hb)
      as (c & v' & Hinit & HD & HLB & HUB & HF & HCr & Hfit & Hclen & Hin & Hcur & Hlog).
    cbn [D Lower Upper set_Population]. rewrite (bind_eq_Ok _ _ _ _ _ Hinit).
    eexists _, _. split; [reflexivity|].
    exists (cs ++ [c]). cbn [Population set_Population].
    rewrite <- app_assoc. split; [reflexivity|].
    rewrite length_app. simpl. split; [lia|].
    split; [|split; [lia|eapply same_logs_trans; eassumption]].
    apply Forall_app. split; [exact Hcs|].
    constructor; [|constructor]. unfold feasible, wf_solution.
    rewrite HD. repeat split; assumption.
  - exists []. rewrite app_nil_r. destruct self. repeat split; try constructor.
    simpl. lia.
  - exists cs, w'. simpl in Hlen, Hc. auto.
Qed.

Lemma evaluated_sound (self : jDE) (c : SolutionjDE) :
  feasible self c -> sound self (evaluated c).
Proof. intros H. split; [exact H|reflexivity]. Qed.

Lemma evalPopulation_best (self self' : jDE) (w w' : world) :
  evalPopulation self w = Ok self' w' ->
  bestSolution self' = bestSolution self \/
  In (bestSolution self') (map evaluated (Population self)).
Proof.
  unfold evalPopulation. set (ps := Population self). intros Hrun.
  pose proof (for_each_seq_inv
    (fun k s v =>
       Population s = map evaluated (take k ps) ++ drop k ps /\
       (bestSolution s = bestSolution self \/
        In (bestSolution s) (map evaluated (take k ps))))
    evalPopulation_at (length ps) 0 self w self' w') as Hinv.
  simpl in Hinv. destruct Hinv as [_ Hbest]; [| |exact Hrun|].
  - intros k s v s1 v1 [_ Hk] [Hpop Hb] Hstep.
    destruct (lookup_lt_is_Some_2 ps k Hk) as [p Hp].
    unfold evalPopulation_at in Hstep.
    apply bind_Ok in Hstep as (p0 & v2 & Hget & Hstep).
    apply getitem_Ok in Hget as [Hget ->].
    apply bind_Ok in Hstep as (p1 & v3 & Hev & Hstep).
    apply evaluate_Ok in Hev as [-> ->].
    apply update_best_Ok in Hstep as (-> & _ & _).
    assert (Hlk : length (map evaluated (take k ps)) = k).
    { rewrite length_map, length_take. lia. }
    rewrite Hpop in Hget. rewrite lookup_app_r in Hget by lia.
    rewrite Hlk, Nat.sub_diag, lookup_drop, Nat.add_0_r, Hp in Hget.
    injection Hget as <-.
    rewrite (take_S_r _ _ _ Hp), map_app.
    split.
    + destruct (fit_ltb _ _); cbn [Population set_Population set_bestSolution];
        rewrite Hpop, insert_app_r_alt by lia;
        rewrite Hlk, Nat.sub_diag, (drop_S _ _ _ Hp); simpl;
        rewrite <- app_assoc; reflexivity.
    + destruct (fit_ltb _ _); cbn [bestSolution set_Population set_bestSolution].
      * right. apply in_or_app. right. left. reflexivity.
      * destruct Hb as [Hb | Hb]; [left; exact Hb|right].
        apply in_or_app. left. exact Hb.
  - split; [rewrite drop_0; reflexivity|left; reflexivity].
  - fold ps in Hbest. rewrite take_ge in Hbest by lia. exact Hbest.
Qed.

Lemma run_loop_invariant (P : jDE -> world -> Prop) (inner : nat) :
  (forall s v newPop s1 v1,
     P s v ->
     generationStep inner s (Population s) v = Ok (newPop, s1) v1 ->
     P (set_Population s1 newPop) v1) ->
  forall (fuel : nat) (FEs : Z) (self : jDE) (w : world) (self' : jDE) (w' : world),
    P self w -> run_loop fuel inner FEs self w = Ok self' w' -> P self' w'.
Proof.
  intros Hstep. induction fuel as [|fuel IH]; intros FEs self w self' w' HP H;
    cbn [run_loop] in H; destruct (Z.leb FEs (nFES self)).
  - discriminate.
  - apply ret_Ok in H as [-> ->]. exact HP.
  - apply bind_Ok in H as ([newPop s1] & w1 & Hgen & H). cbn [fst snd] in H.
    eapply IH; [|exact H]. eapply Hstep; eassumption.
  - apply ret_Ok in H as [-> ->]. exact HP.
Qed.

Lemma generationStep_standing (fuel : nat) (self s : jDE) (w w' : world)
    (newPop : list SolutionjDE) (s1 : jDE) :
  (Lower self <= Upper self)%Q ->
  standing self s ->
  generationStep fuel s (Population s) w = Ok (newPop, s1) w' ->
  standing self (set_Population s1 newPop).
Proof.
  intros Hb (Hcfg & Hpop & Hbest & Hdom) Hrun.
  assert (HP : same_config s s1 /\ Forall (sound self) newPop /\
               (bestSolution s1 = bestSolution self \/ sound self (bestSolution s1)) /\
               (forall c, In c newPop -> fit_le (Fitness (bestSolution s1)) (Fitness c)) /\
               fit_le (Fitness (bestSolution s1)) (Fitness (bestSolution s))).
  { revert Hrun.
    apply (generationStep_invariant
             (fun np t _ =>
                same_config s t /\ Forall (sound self) np /\
                (bestSolution t = bestSolution self \/ sound self (bestSolution t)) /\
                (forall c, In c np -> fit_le (Fitness (bestSolution t)) (Fitness c)) /\
                fit_le (Fitness (bestSolution t)) (Fitness (bestSolution s)))).
    - intros i np t v child v1 parent x _ _ (Hst & Hnp & Hbt & Hd & Hle) Hoff _ Hsel.
      assert (Hchild : sound self child).
      { destruct (offspring_feasible fuel t (Population s) i v v1 child) as [H1 H2];
          [|exact Hoff|].
        - destruct Hcfg as (_ & _ & _ & HL & HU & _).
          destruct Hst as (_ & _ & _ & HL' & HU' & _).
          rewrite HL', HU', HL, HU. exact Hb.
        - split; [|exact H2].
          eapply feasible_config; [|exact H1].
          eapply same_config_trans; eassumption. }
      assert (Hx : sound self x /\
                   fit_le (Fitness (bestSolution (with_best t child))) (Fitness x)).
      { rewrite with_best_fitness. unfold survivor in Hsel.
        destruct (fit_ltb (Fitness child) (Fitness parent)).
        - subst x. split; [exact Hchild|apply improve_le_new].
        - split; [eapply (proj1 (Forall_lookup _ _) Hpop), Hsel|].
          eapply fit_le_trans; [apply improve_le_best|].
          eapply fit_le_trans; [exact Hle|].
          apply Hdom. apply list_elem_of_In. eapply list_elem_of_lookup_2, Hsel. }
      split; [eapply same_config_trans; [exact Hst|apply same_config_with_best]|].
      split; [apply Forall_app; split; [exact Hnp|]; constructor; [tauto|constructor]|].
      split.
      { destruct (with_best_cases t child) as [-> | ->]; [exact Hbt|right; exact Hchild]. }
      split.
      + intros c Hc. apply in_app_or in Hc as [Hc | [<- | []]]; [|tauto].
        rewrite with_best_fitness.
        eapply fit_le_trans; [apply improve_le_best|]. apply Hd, Hc.
      + rewrite with_best_fitness.
        eapply fit_le_trans; [apply improve_le_best|exact Hle].
    - split; [apply same_config_refl|]. split; [constructor|].
      split; [exact Hbest|]. split; [intros c []|apply fit_le_refl]. }
  destruct HP as (H1 & H2 & H3 & H4 & _).
  unfold standing. cbn [Population bestSolution set_Population].
  split; [|auto].
  eapply same_config_trans; [exact Hcfg|].
  unfold same_config in *. cbn [D Np nFES Lower Upper Tao F Cr set_Population]. exact H1.
Qed.

Lemma run_standing (fuel : nat) (self : jDE) (w w' : world) (v : fitness) (self' : jDE) :
  unit_tape ->
  (Lower self <= Upper self)%Q ->
  Forall (feasible self) (Population self) ->
  run fuel self w = Ok (v, self') w' ->
  v = Fitness (bestSolution self') /\ standing self self' /\
  (Z.to_nat (Np self) = 0 \/ Population self' <> []).
Proof.
  intros Hunit Hb Hfeas Hrun. unfold run in Hrun.
  apply bind_Ok in Hrun as (s1 & w1 & Hinit & Hrun).
  apply bind_Ok in Hrun as (s2 & w2 & Heval & Hrun).
  apply bind_Ok in Hrun as (s3 & w3 & Hloop & Hret).
  apply ret_Ok in Hret as [[= -> ->] ->].
  destruct (initPopulation_feasible self w Hunit Hb)
    as (cs & w0 & Hinit' & Hlen & Hcs & _).
  rewrite Hinit' in Hinit. injection Hinit as <- <-.
  pose proof (evalPopulation_best _ _ _ _ Heval) as Hbest.
  destruct (evalPopulation_Ok (set_Population self (Population self ++ cs)) w0)
    as (b1 & w1' & Heval' & _ & (_ & _ & Hfold)).
  rewrite Heval' in Heval. injection Heval as <- <-.
  cbn [Population bestSolution set_Population set_bestSolution] in *.
  set (ps := Population self ++ cs) in *.
  assert (Hps : Forall (feasible self) ps).
  { apply Forall_app. split; [exact Hfeas|].
    eapply Forall_impl; [exact Hcs|]. simpl. tauto. }
  assert (Hstart : standing self
                     (set_bestSolution (set_Population self (map evaluated ps)) b1)).
  { unfold standing. cbn [Population bestSolution set_Population set_bestSolution].
    split; [repeat split|]. split; [|split].
    - apply Forall_forall. intros c Hc.
      apply list_elem_of_In, in_map_iff in Hc as (c0 & <- & Hc0).
      apply evaluated_sound. apply list_elem_of_In in Hc0.
      eapply (proj1 (Forall_forall _ _) Hps), Hc0.
    - destruct Hbest as [-> | Hin]; [left; reflexivity|right].
      apply in_map_iff in Hin as (c0 & <- & Hc0).
      apply evaluated_sound. apply list_elem_of_In in Hc0.
      eapply (proj1 (Forall_forall _ _) Hps), Hc0.
    - intros c Hc. apply in_map_iff in Hc as (c0 & <- & Hc0).
      rewrite Hfold. apply fold_improve_le_each.
      change (Fitness (evaluated c0)) with (Finite (fitness_of c0)).
      apply in_map, in_map, Hc0. }
  split; [reflexivity|].
  revert Hloop.
  apply (run_loop_invariant
           (fun s _ => standing self s /\
                       (Z.to_nat (Np self) = 0 \/ Population s <> []))).
  - intros s v newPop s1 v1 [Hs Hne] Hgen.
    split; [eapply generationStep_standing; eassumption|].
    cbn [Population set_Population].
    apply generationStep_Ok in Hgen as (Hl & _).
    destruct Hs as ((_ & HNp & _) & _). rewrite HNp in Hl.
    destruct (Nat.eq_dec (Z.to_nat (Np self)) 0) as [H0 | H0]; [left; exact H0|right].
    intros ->. simpl in Hl. lia.
  - split; [exact Hstart|].
    cbn [Population set_Population set_bestSolution].
    destruct (Nat.eq_dec (Z.to_nat (Np self)) 0) as [H0 | H0]; [left; exact H0|right].
    intros Hnil. apply (f_equal length) in Hnil.
    rewrite length_map in Hnil. unfold ps in Hnil. rewrite length_app in Hnil.
    simpl in Hnil. lia.
Qed.

(** X5. At the end of a run the population is in good standing. For draws
    in [[0, 1)], [Lower <= Upper] and an engine whose population is empty
    (or holds feasible candidates only), when [run] returns every candidate
    of the final population has the engine's dimension and bounds, [D]
    components all within [[Lower, Upper]], and a fitness equal to the
    objective value of its vector; and no configuration field or attribute
    of the engine has changed. *)
Theorem run_leaves_population_sound (fuel : nat) (self : jDE) (w w' : world)
    (v : fitness) (self' : jDE) :
  unit_tape ->
  (Lower self <= Upper self)%Q ->
  Forall (feasible self) (Population self) ->
  run fuel self w = Ok (v, self') w' ->
  same_config self self' /\
  forall c, In c (Population self') ->
    sD c = D self /\ LB c = Lower self /\ UB c = Upper self /\
    length (Solution c) = Z.to_nat (D self) /\
    all_within (Lower self) (Upper self) (Solution c) /\
    Fitness c = Finite (FuncEval (sD c) (Solution c)).
Proof.
  intros Hunit Hb Hfeas Hrun.
  destruct (run_standing fuel self w w' v self' Hunit Hb Hfeas Hrun)
    as (_ & (Hcfg & Hpop & _) & _).
  split; [exact Hcfg|]. intros c Hc.
  apply list_elem_of_In in Hc.
  destruct (proj1 (Forall_forall _ _) Hpop c Hc) as ((H1 & H2 & H3 & H4 & H5) & H6).
  unfold wf_solution in H4. rewrite H1 in H4. auto 10.
Qed.

(** X6. The value returned by [run] is attained by the engine's best
    candidate and is no worse than any survivor. Under the hypotheses of X5,
    the returned value is [bestSolution.Fitness] and is at most the fitness
    of every candidate of the final population; and when the engine's best
    fitness starts at infinity (as constructed) and [NP >= 1],
    [bestSolution] is itself feasible and the returned value is the
    objective value of its vector. *)
Theorem run_returns_fitness_of_feasible_best (fuel : nat) (self : jDE) (w w' : world)
    (v : fitness) (self' : jDE) :
  unit_tape ->
  (Lower self <= Upper self)%Q ->
  Forall (feasible self) (Population self) ->
  run fuel self w = Ok (v, self') w' ->
  v = Fitness (bestSolution self') /\
  (forall c, In c (Population self') -> fit_le v (Fitness c)) /\
  (Fitness (bestSolution self) = Inf ->
   (1 <= Np self)%Z ->
   feasible self (bestSolution self') /\
   v = Finite (FuncEval (sD (bestSolution self')) (Solution (bestSolution self')))).
Proof.
  intros Hunit Hb Hfeas Hrun.
  destruct (run_standing fuel self w w' v self' Hunit Hb Hfeas Hrun)
    as (Hv & (_ & Hpop & Hbest & Hdom) & Hne).
  split; [exact Hv|]. split; [rewrite Hv; exact Hdom|].
  intros Hinf Hpos. destruct Hne as [H0 | Hne]; [lia|].
  destruct Hbest as [Heq | [Hf Hc]].
  - exfalso. destruct (Population self') as [|c l] eqn:E; [contradiction|].
    specialize (Hdom c (or_introl eq_refl)).
    apply Forall_cons in Hpop as [[_ Hcc] _].
    rewrite Heq, Hinf, Hcc in Hdom. exact Hdom.
  - split; [exact Hf|]. rewrite Hv. exact Hc.
Qed.

(** ** Populations too small for three donors *)

Lemma self_adapt_total (self : jDE) (pop : list SolutionjDE) (i : nat)
    (inherit : SolutionjDE -> Q) (w : world) (tao : Q) (p : SolutionjDE) :
  Tao self = Some tao -> pop !! i = Some p ->
  exists v w', self_adapt self pop i inherit w = Ok v w' /\ same_logs w w'.
Proof.
  intros HTao Hp. unfold self_adapt, bind, random, getattr, getitem, ret.
  rewrite HTao. unfold ret. destruct (Qltb _ _).
  - eexists _, _. split; [reflexivity|split; reflexivity].
  - rewrite Hp. eexists _, _. split; [reflexivity|split; reflexivity].
Qed.

(** When the donors cannot be had, neither can the offspring. *)
Lemma offspring_without_donors (fuel : nat) (self : jDE) (pop : list SolutionjDE)
    (i : nat) (w : world) (tao : Q) (p : SolutionjDE) :
  Tao self = Some tao -> pop !! i = Some p ->
  exists wc,
    same_logs w wc /\
    (forall x w', pickDonors fuel self i wc = Raise x w' ->
                  offspring fuel self pop i w = Raise x w') /\
    (pickDonors fuel self i wc = OutOfFuel -> offspring fuel self pop i w = OutOfFuel).
Proof.
  intros HTao Hp.
  destruct (SolutionjDE_init_Ok (D self) (Lower self) (Upper self) w) as (v & Hv & _).
  destruct (self_adapt_total self pop i sF (advance (Z.to_nat (D self)) w) tao p HTao Hp)
    as (f & wb & Hf & Hfl).
  destruct (self_adapt_total self pop i sCr wb tao p HTao Hp) as (cr & wc & Hcr & Hcrl).
  exists wc. split.
  { eapply same_logs_trans; [|exact Hcrl]. eapply same_logs_trans; [|exact Hfl].
    split; reflexivity. }
  split.
  - intros x w' Hr. unfold offspring.
    rewrite (bind_eq_Ok _ _ _ _ _ Hv), (bind_eq_Ok _ _ _ _ _ Hf),
      (bind_eq_Ok _ _ _ _ _ Hcr).
    unfold bind at 1. rewrite Hr. reflexivity.
  - intros Hr. unfold offspring.
    rewrite (bind_eq_Ok _ _ _ _ _ Hv), (bind_eq_Ok _ _ _ _ _ Hf),
      (bind_eq_Ok _ _ _ _ _ Hcr).
    unfold bind at 1. rewrite Hr. reflexivity.
Qed.

Lemma generationStep_first_offspring (fuel : nat) (self : jDE) (pop : list SolutionjDE)
    (w : world) :
  (1 <= Np self)%Z ->
  (forall x w', offspring fuel self pop 0 w = Raise x w' ->
                generationStep fuel self pop w = Raise x w') /\
  (offspring fuel self pop 0 w = OutOfFuel -> generationStep fuel self pop w = OutOfFuel).
Proof.
  intros Hnp. unfold generationStep, range.
  destruct (Z.to_nat (Np self)) as [|n] eqn:Hn; [lia|]. cbn [seq for_each].
  split; [intros x w' H|intros H]; unfold generationStep_at at 1; cbn [fst snd];
    unfold bind; rewrite H; reflexivity.
Qed.

Lemma pickDonors_too_few (fuel : nat) (self : jDE) (i : nat) (w : world) :
  (Np self <= 2)%Z -> pickDonors fuel self i w = Raise ValueError w.
Proof.
  intros Hnp. unfold pickDonors, sample, range, bind.
  rewrite length_seq.
  destruct (Nat.leb_spec 3 (Z.to_nat (Np self))); [lia|]. reflexivity.
Qed.

(** X7. A population of one or two candidates fails in the first
    generational step with [ValueError]: on an engine that has [Tao], with
    [1 <= NP <= 2] and [NP <= nFES], [run] evaluates the initial candidates
    and then raises [ValueError] from [rnd.sample], which is asked for three
    members of [range(NP)]. *)
Theorem run_too_few_candidates_for_sample (fuel : nat) (self : jDE) (w : world) (tao : Q) :
  Tao self = Some tao ->
  (1 <= Np self <= 2)%Z ->
  (Np self <= nFES self)%Z ->
  exists w',
    run (S fuel) self w = Raise ValueError w' /\
    length (evals w') = length (evals w) + length (Population self) + Z.to_nat (Np self).
Proof.
  intros HTao Hnp Hbudget.
  destruct (run_prefix self w) as (cs & b1 & w0 & w1 & _ & Hlen & _ & _ & Ht & Hrun).
  rewrite Hrun. unfold bind at 1.
  rewrite run_loop_S by (cbn [nFES set_Population set_bestSolution]; lia).
  cbn [Population set_Population set_bestSolution].
  set (self1 := set_bestSolution
                  (set_Population self (map evaluated (Population self ++ cs))) b1).
  set (pop := map evaluated (Population self ++ cs)).
  assert (Hp : exists p, pop !! 0 = Some p).
  { apply lookup_lt_is_Some_2. unfold pop.
    rewrite length_map, length_app. lia. }
  destruct Hp as [p Hp].
  destruct (offspring_without_donors (S fuel) self1 pop 0 w1 tao p HTao Hp)
    as (wc & [He Hb] & Hraise & _).
  assert (Hnp1 : (Np self1 <= 2)%Z) by (unfold self1; cbn; lia).
  assert (Hnp2 : (1 <= Np self1)%Z) by (unfold self1; cbn; lia).
  specialize (Hraise ValueError wc (pickDonors_too_few (S fuel) self1 0 wc Hnp1)).
  destruct (generationStep_first_offspring (S fuel) self1 pop w1 Hnp2) as [Hgen _].
  specialize (Hgen _ _ Hraise).
  unfold bind. rewrite Hgen. exists wc. split; [reflexivity|].
  destruct Ht as (Hev & _). rewrite He, Hev.
  rewrite length_app, length_rev, length_map, length_app. lia.
Qed.

Lemma sample_total (n : Z) (k : nat) (w : world) :
  unit_tape -> k <= Z.to_nat n ->
  exists r w', sample (range n) k w = Ok r w'.
Proof.
  intros Hunit Hk. unfold sample, range. rewrite length_seq.
  destruct (Nat.leb_spec k (Z.to_nat n)) as [_|]; [|lia].
  destruct (for_each_seq_total
    (fun i st _ => i <= k -> sample_inv (Z.to_nat n) i st)
    sample_pick k 0 (seq 0 (Z.to_nat n), []) w) as (st & w' & Hrun & _).
  - intros i [pool result] v Hi Hinv.
    destruct Hinv as (Hl & Hres & Hnd & Hpool & Hr); [lia|]. cbn [fst snd] in *.
    destruct (Hunit (cursor v)) as [Hu0 Hu1].
    pose proof (int_unit_bound (tape (cursor v)) (Z.of_nat (Z.to_nat n - i)) Hu0 Hu1
                  ltac:(lia)) as Hj.
    assert (Hex : exists st' v', sample_pick i (pool, result) v = Ok st' v').
    { unfold sample_pick. cbn [fst snd]. rewrite Hl.
      unfold bind at 1. unfold random at 1.
      set (j := int (tape (cursor v) * inject_Z (Z.of_nat (Z.to_nat n - i)))) in *.
      destruct (lookup_lt_is_Some_2 pool (Z.to_nat j) ltac:(lia)) as [x Hx].
      destruct (lookup_lt_is_Some_2 pool (Z.to_nat n - i - 1) ltac:(lia)) as [y Hy].
      unfold bind, getitemZ, setitemZ, getitem, setitem.
      rewrite Hl, norm_index_nonneg by lia. rewrite Hx. unfold ret at 1.
      rewrite Hy. unfold ret at 1.
      destruct (Nat.ltb_spec (Z.to_nat j) (Z.to_nat n)) as [_|]; [|lia].
      unfold ret. eauto. }
    destruct Hex as (st' & v' & Hstep). exists st', v'. split; [exact Hstep|].
    intros HSi.
    eapply (sample_pick_inv (Z.to_nat n) k i (pool, result) st' v v' Hunit);
      [lia| |exact Hstep].
    repeat split; assumption.
  - intros _. unfold sample_inv. cbn [fst snd].
    rewrite length_seq, app_nil_r, Nat.sub_0_r.
    rewrite take_ge by (rewrite length_seq; lia).
    repeat split; try constructor.
    + apply NoDup_seq.
    + apply Forall_lookup. intros j x Hx. apply lookup_seq in Hx. lia.
  - rewrite (bind_eq_Ok _ _ _ _ _ Hrun). unfold ret. eauto.
Qed.

Lemma three_donors_of_three (i : nat) (r : list nat) :
  i < 3 -> donor_triple 3 r -> contains i r = true.
Proof.
  intros Hi Ht. destruct (contains i r) eqn:Hc; [reflexivity|exfalso].
  destruct (donor_triple_distinct 3 i r Ht Hc) as (r0 & r1 & r2 & _ & H). lia.
Qed.

Lemma resample_of_three_diverges (i : nat) :
  unit_tape -> i < 3 ->
  forall (fuel : nat) (r : list nat) (w : world),
    donor_triple 3 r -> resample fuel 3 i r w = OutOfFuel.
Proof.
  intros Hunit Hi. induction fuel as [|fuel IH]; intros r w Hr; cbn [resample];
    rewrite (three_donors_of_three i r Hi Hr); [reflexivity|].
  destruct (sample_total 3 3 w Hunit ltac:(lia)) as (r' & w' & Hs).
  rewrite (bind_eq_Ok _ _ _ _ _ Hs). apply IH.
  apply (sample_Ok _ _ _ _ _ Hunit) in Hs as (H1 & H2 & H3 & _).
  repeat split; assumption.
Qed.

Lemma pickDonors_of_three_diverges (fuel : nat) (self : jDE) (i : nat) (w : world) :
  unit_tape -> Np self = 3%Z -> i < 3 -> pickDonors fuel self i w = OutOfFuel.
Proof.
  intros Hunit Hnp Hi. unfold pickDonors. rewrite Hnp.
  destruct (sample_total 3 3 w Hunit ltac:(lia)) as (r & w' & Hs).
  rewrite (bind_eq_Ok _ _ _ _ _ Hs). apply resample_of_three_diverges; try assumption.
  apply (sample_Ok _ _ _ _ _ Hunit) in Hs as (H1 & H2 & H3 & _).
  repeat split; assumption.
Qed.

(** X8. A population of exactly three candidates makes the first
    generational step loop forever. On an engine that has [Tao], with
    [NP = 3 <= nFES] and draws in [[0, 1)], every sample of three distinct
    members of [range(3)] contains the parent index, so the rejection loop
    [while i in r] never exits: for no amount of fuel does [run] return or
    raise. *)
Theorem run_three_candidates_never_ends (self : jDE) (w : world) (tao : Q) :
  unit_tape ->
  Tao self = Some tao ->
  Np self = 3%Z ->
  (3 <= nFES self)%Z ->
  forall fuel, run fuel self w = OutOfFuel.
Proof.
  intros Hunit HTao Hnp Hbudget fuel.
  destruct (run_prefix self w) as (cs & b1 & w0 & w1 & _ & Hlen & _ & _ & _ & Hrun).
  rewrite Hrun. unfold bind at 1.
  destruct fuel as [|fuel].
  { rewrite run_loop_O by (cbn [nFES set_Population set_bestSolution]; lia).
    reflexivity. }
  rewrite run_loop_S by (cbn [nFES set_Population set_bestSolution]; lia).
  cbn [Population set_Population set_bestSolution].
  set (self1 := set_bestSolution
                  (set_Population self (map evaluated (Population self ++ cs))) b1).
  set (pop := map evaluated (Population self ++ cs)).
  assert (Hp : exists p, pop !! 0 = Some p).
  { apply lookup_lt_is_Some_2. unfold pop.
    rewrite length_map, length_app. lia. }
  destruct Hp as [p Hp].
  destruct (offspring_without_donors (S fuel) self1 pop 0 w1 tao p HTao Hp)
    as (wc & _ & _ & Hdiv).
  assert (Hnp2 : (1 <= Np self1)%Z) by (unfold self1; cbn; lia).
  specialize (Hdiv (pickDonors_of_three_diverges _ self1 0 wc Hunit Hnp ltac:(lia))).
  destruct (generationStep_first_offspring (S fuel) self1 pop w1 Hnp2) as [_ Hgen].
  unfold bind. rewrite (Hgen Hdiv). reflexivity.
Qed.

(** X9. Assigning [Tao] alone does not make the engine run. On an engine
    without [Cr], with [D >= 1] and [1 <= NP <= nFES], [run] never returns
    normally: every offspring construction reaches the crossover test
    [rnd.random() < self.Cr] of dimension 0 unless it fails earlier. *)
Theorem run_without_Cr_never_returns (self : jDE) (w : world) :
  Cr self = None ->
  (1 <= D self)%Z ->
  (1 <= Np self <= nFES self)%Z ->
  ~ (exists fuel v self' w', run fuel self w = Ok (v, self') w').
Proof.
  intros HCr HD Hnp (fuel & v & self' & w' & Hrun).
  destruct (run_prefix self w) as (cs & b1 & w0 & w1 & _ & _ & _ & _ & _ & Hr).
  rewrite Hr in Hrun. clear Hr.
  apply bind_Ok in Hrun as (s & w2 & Hloop & _).
  destruct fuel as [|fuel].
  { rewrite run_loop_O in Hloop by (cbn [nFES set_Population set_bestSolution]; lia).
    discriminate. }
  rewrite run_loop_S in Hloop by (cbn [nFES set_Population set_bestSolution]; lia).
  apply bind_Ok in Hloop as ([newPop s1] & w3 & Hgen & _).
  apply generationStep_Ok in Hgen as (_ & _ & _ & Hsel).
  destruct (Hsel 0 ltac:(cbn; lia)) as (child & parent & wi & wi' & Hoff & _).
  apply offspring_inv in Hoff as (r & wa & wj & c1 & _ & _ & _ & _ & _ & _ & _ & _ & Hj & _).
  destruct (Hj 0 ltac:(cbn; lia)) as (cr & x & Hcr & _).
  cbn [Cr set_Population set_bestSolution] in Hcr. congruence.
Qed.

(** ** Initialisation and first evaluation *)

(** X10. [initPopulation] appends and never replaces. For draws in
    [[0, 1)] and [Lower <= Upper] it always returns; the population it
    leaves is the old one followed by exactly [NP] new candidates, each with
    the engine's dimension and bounds, [D] components within
    [[Lower, Upper]], infinite fitness and the default [F = 0.5] and
    [Cr = 0.9]; it draws [NP * D] random numbers and evaluates nothing. *)
Theorem initPopulation_appends_fresh_candidates (self : jDE) (w : world) :
  unit_tape ->
  (Lower self <= Upper self)%Q ->
  exists cs w',
    initPopulation self w = Ok (set_Population self (Population self ++ cs)) w' /\
    length cs = Z.to_nat (Np self) /\
    (forall c, In c cs ->
       sD c = D self /\ LB c = Lower self /\ UB c = Upper self /\
       length (Solution c) = Z.to_nat (D self) /\
       all_within (Lower self) (Upper self) (Solution c) /\
       Fitness c = Inf /\ sF c = 1 # 2 /\ sCr c = 9 # 10) /\
    cursor w' = cursor w + Z.to_nat (Np self) * Z.to_nat (D self) /\
    same_logs w w'.
Proof.
  intros Hunit Hb.
  destruct (initPopulation_feasible self w Hunit Hb) as (cs & w' & Hrun & Hlen & Hcs & Hc & Hl).
  exists cs, w'. split; [exact Hrun|]. split; [exact Hlen|].
  split; [|split; assumption].
  intros c Hin. apply list_elem_of_In in Hin.
  destruct (proj1 (Forall_forall _ _) Hcs c Hin)
    as ((H1 & H2 & H3 & H4 & H5) & H6 & H7 & H8).
  unfold wf_solution in H4. rewrite H1 in H4. auto 10.
Qed.

(** X11. [evalPopulation] always returns and draws nothing. It calls the
    objective function once per candidate, in population order, and stores
    each value in its candidate; afterwards [bestSolution] is the one held
    before or one of the evaluated candidates, and its fitness is at most
    the fitness held before and at most every value just observed. *)
Theorem evalPopulation_evaluates_each_once (self : jDE) (w : world) :
  exists b' w',
    evalPopulation self w =
      Ok (set_bestSolution (set_Population self (map evaluated (Population self))) b') w' /\
    cursor w' = cursor w /\
    evals w' = rev (map fitness_of (Population self)) ++ evals w /\
    (b' = bestSolution self \/ In b' (map evaluated (Population self))) /\
    fit_le (Fitness b') (Fitness (bestSolution self)) /\
    (forall c, In c (Population self) -> fit_le (Fitness b') (Finite (fitness_of c))).
Proof.
  destruct (evalPopulation_Ok self w) as (b' & w' & Hrun & Hc & Hev & _ & Hfold).
  exists b', w'. split; [exact Hrun|]. split; [exact Hc|]. split; [exact Hev|].
  split.
  { apply evalPopulation_best in Hrun.
    cbn [bestSolution set_bestSolution] in Hrun. exact Hrun. }
  split.
  - rewrite Hfold. apply fold_improve_le_init.
  - intros c Hin. rewrite Hfold. apply fold_improve_le_each.
    apply in_map, in_map, Hin.
Qed.

(** ** The slots of the population over a run *)

Lemma generationStep_slots (fuel : nat) (s : jDE) (w w' : world)
    (newPop : list SolutionjDE) (s1 : jDE) :
  generationStep fuel s (Population s) w = Ok (newPop, s1) w' ->
  Np s1 = Np s /\ length newPop = Z.to_nat (Np s) /\
  forall i, i < Z.to_nat (Np s) ->
    exists p c, Population s !! i = Some p /\ newPop !! i = Some c /\
                fit_le (Fitness c) (Fitness p).
Proof.
  intros Hrun. apply generationStep_Ok in Hrun as (Hlen & [b ->] & _ & Hsel).
  split; [reflexivity|]. split; [exact Hlen|]. intros i Hi.
  destruct (Hsel i Hi) as (child & parent & wi & wi' & _ & Hpar & Hcase).
  destruct Hcase as [[Hlt Hnew] | [Hlt (p & Hp & Hnew)]].
  - exists parent, child. repeat split; try assumption. apply fit_ltb_le, Hlt.
  - exists p, p. repeat split; try assumption. apply fit_le_refl.
Qed.

(** X12. Over a run that returns, slot [i < NP] of the population never
    gets worse, and the slots are those of the population as it stood after
    initialisation: the candidates the engine already held come first. When
    [nFES < NP] the final population is the old candidates followed by the
    [NP] new ones, all evaluated; when [NP <= nFES] it has exactly [NP]
    entries, so anything beyond index [NP] is dropped by the first
    generational transition. *)
Theorem run_slots_never_worsen (fuel : nat) (self : jDE) (w w' : world) (v : fitness)
    (self' : jDE) :
  run fuel self w = Ok (v, self') w' ->
  exists cs w0,
    initPopulation self w = Ok (set_Population self (Population self ++ cs)) w0 /\
    length cs = Z.to_nat (Np self) /\
    ((nFES self < Np self)%Z ->
       Population self' = map evaluated (Population self ++ cs)) /\
    ((Np self <= nFES self)%Z -> length (Population self') = Z.to_nat (Np self)) /\
    forall i, i < Z.to_nat (Np self) ->
      exists c0 c, (Population self ++ cs) !! i = Some c0 /\
                   Population self' !! i = Some c /\
                   fit_le (Fitness c) (Finite (fitness_of c0)).
Proof.
  intros Hrun.
  destruct (run_prefix self w) as (cs & b1 & w0 & w1 & Hinit & Hlen & _ & _ & _ & Hr).
  rewrite Hr in Hrun. clear Hr.
  apply bind_Ok in Hrun as (s & w2 & Hloop & Hret). apply ret_Ok in Hret as [[= -> ->] ->].
  set (pop0 := Population self ++ cs) in *.
  set (self1 := set_bestSolution (set_Population self (map evaluated pop0)) b1) in *.
  exists cs, w0. split; [exact Hinit|]. split; [exact Hlen|].
  split; [|split].
  - intros Hlt. rewrite run_loop_exit in Hloop by (unfold self1; cbn; lia).
    injection Hloop as <- _. reflexivity.
  - intros Hle. destruct fuel as [|fuel'] eqn:Hfuel.
    { rewrite run_loop_O in Hloop by (unfold self1; cbn; lia). discriminate. }
    rewrite run_loop_S in Hloop by (unfold self1; cbn; lia).
    apply bind_Ok in Hloop as ([newPop s1] & w3 & Hgen & Hloop). cbn [fst snd] in Hloop.
    apply generationStep_slots in Hgen as (HNp & Hl & _).
    assert (HP : Np s = Np self /\ length (Population s) = Z.to_nat (Np self)).
    { revert Hloop.
      apply (run_loop_invariant
               (fun t _ => Np t = Np self /\ length (Population t) = Z.to_nat (Np self))).
      - intros t u np t1 u1 [Ht1 Ht2] Hg.
        apply generationStep_slots in Hg as (HNp' & Hl' & _).
        cbn [Np Population set_Population]. rewrite HNp', Hl', Ht1. auto.
      - cbn [Np Population set_Population]. rewrite HNp, Hl. unfold self1. cbn. auto. }
    apply HP.
  - assert (HQ : Np s = Np self /\
                 forall i, i < Z.to_nat (Np self) ->
                   exists c0 c, pop0 !! i = Some c0 /\ Population s !! i = Some c /\
                                fit_le (Fitness c) (Finite (fitness_of c0))).
    { revert Hloop.
      apply (run_loop_invariant
               (fun t _ => Np t = Np self /\
                  forall i, i < Z.to_nat (Np self) ->
                    exists c0 c, pop0 !! i = Some c0 /\ Population t !! i = Some c /\
                                 fit_le (Fitness c) (Finite (fitness_of c0)))).
      - intros t u np t1 u1 [Ht1 Ht2] Hg.
        apply generationStep_slots in Hg as (HNp' & _ & Hslot).
        cbn [Np Population set_Population]. split; [congruence|].
        intros i Hi. destruct (Ht2 i Hi) as (c0 & c & Hc0 & Hc & Hle).
        destruct (Hslot i ltac:(lia)) as (p & c' & Hp & Hc' & Hle').
        exists c0, c'. split; [exact Hc0|]. split; [exact Hc'|].
        rewrite Hc in Hp. injection Hp as <-.
        eapply fit_le_trans; eassumption.
      - split; [reflexivity|]. intros i Hi.
        destruct (lookup_lt_is_Some_2 pop0 i) as [c0 Hc0].
        { unfold pop0. rewrite length_app. lia. }
        exists c0, (evaluated c0). split; [exact Hc0|]. split.
        + unfold self1. cbn [Population set_Population set_bestSolution].
          change (map evaluated pop0) with (evaluated <$> pop0).
          rewrite list_lookup_fmap, Hc0. reflexivity.
        + simpl. apply Qle_refl. }
    apply HQ.
Qed.

(** ** [repair] outside its intended domain *)

Lemma clamp_inverted (lb ub x : Q) : (ub < lb)%Q -> clamp lb ub x = lb.
Proof.
  intros Hb. unfold clamp. destruct (Qltb ub x) eqn:Hu.
  - apply Qltb_lt in Hb as ->. reflexivity.
  - assert (Hx : (x < lb)%Q).
    { eapply Qle_lt_trans; [apply Qltb_ge, Hu|exact Hb]. }
    apply Qltb_lt in Hx as ->. reflexivity.
Qed.

Lemma map_clamp_inverted (lb ub : Q) (l : list Q) :
  (ub < lb)%Q -> map (clamp lb ub) l = repeat lb (length l).
Proof.
  intros Hb. induction l as [|x l IH]; simpl; [reflexivity|].
  rewrite clamp_inverted by exact Hb. rewrite IH. reflexivity.
Qed.

(** X13. With inverted bounds [repair] flattens the candidate. For a
    candidate carrying its [D] components and [UB < LB] (the constructor
    accepts such bounds), [repair] returns and every component of the result
    is [LB], whatever it was before. *)
Theorem repair_inverted_bounds_collapse (c : SolutionjDE) (w : world) :
  wf_solution c ->
  (UB c < LB c)%Q ->
  repair c w = Ok (set_Solution c (repeat (LB c) (Z.to_nat (sD c)))) w.
Proof.
  intros Hwf Hb. rewrite repair_is_map_clamp by exact Hwf.
  unfold wf_solution in Hwf. rewrite <- Hwf.
  rewrite (map_clamp_inverted _ _ _ Hb). reflexivity.
Qed.

Lemma for_each_app {X A} (xs ys : list X) (body : X -> A -> M A) (a : A) (w : world) :
  for_each (xs ++ ys) body a w =
  (a' <- for_each xs body a ;; for_each ys body a') w.
Proof.
  revert a w. induction xs as [|x xs IH]; intros a w; simpl; [reflexivity|].
  unfold bind. destruct (body x a w) as [a1 w1| |] eqn:Hb; [|reflexivity..].
  rewrite IH. reflexivity.
Qed.

Lemma repair_loop_prefix (n k : nat) (c : SolutionjDE) (w : world) :
  k + n <= length (Solution c) ->
  for_each (seq k n) repair_at c w =
  Ok (set_Solution c (take k (Solution c) ++
                      map (clamp (LB c) (UB c)) (take n (drop k (Solution c))) ++
                      drop (k + n) (Solution c))) w.
Proof.
  revert k c. induction n as [|n IH]; intros k c Hlen; simpl.
  - rewrite Nat.add_0_r, take_drop, set_Solution_same. reflexivity.
  - destruct (lookup_lt_is_Some_2 (Solution c) k) as [x Hx]; [lia|].
    rewrite (bind_eq_Ok _ _ _ _ _ (repair_at_Ok k c x w Hx)).
    rewrite IH by (cbn [Solution set_Solution]; rewrite length_insert; lia).
    cbn [Solution set_Solution LB UB]. f_equal. f_equal.
    rewrite (take_S_r _ _ (clamp (LB c) (UB c) x))
      by (apply list_lookup_insert_eq; apply lookup_lt_is_Some; eauto).
    rewrite take_insert_ge by lia.
    rewrite !drop_insert_lt by lia.
    rewrite (drop_S _ _ _ Hx). simpl. rewrite <- app_assoc. simpl.
    replace (S (k + n)) with (k + S n) by lia. reflexivity.
Qed.

(** X14. [repair] walks [range(D)], not the vector. When the vector has at
    least [D] components, the first [D] are clamped and the rest are left as
    they are; when it has fewer, [repair] raises [IndexError]. *)
Theorem repair_reaches_first_D_components (c : SolutionjDE) (w : world) :
  (Z.to_nat (sD c) <= length (Solution c) ->
   repair c w =
     Ok (set_Solution c
           (map (clamp (LB c) (UB c)) (take (Z.to_nat (sD c)) (Solution c)) ++
            drop (Z.to_nat (sD c)) (Solution c))) w) /\
  (length (Solution c) < Z.to_nat (sD c) -> repair c w = Raise IndexError w).
Proof.
  unfold repair, range. split; intros Hlen.
  - rewrite repair_loop_prefix by (simpl; lia).
    rewrite take_0, drop_0. reflexivity.
  - replace (Z.to_nat (sD c)) with
      (length (Solution c) + S (Z.to_nat (sD c) - length (Solution c) - 1)) by lia.
    rewrite seq_app, for_each_app.
    rewrite (bind_eq_Ok _ _ _ _ _
               (repair_loop_prefix (length (Solution c)) 0 c w (Nat.le_refl _))).
    cbn [seq for_each plus]. unfold bind at 1. unfold repair_at at 1.
    unfold bind at 1. unfold getitem at 1.
    cbn [Solution set_Solution]. rewrite take_0, drop_0, firstn_all, drop_all, app_nil_r.
    simpl. rewrite lookup_ge_None_2 by (rewrite length_map; lia). reflexivity.
Qed.

(** ** A configured engine raises nothing *)

Lemma for_each_seq_safe {A} (I : nat -> A -> world -> Prop) (body : nat -> A -> M A) :
  forall (n k : nat) (a : A) (w : world),
    (forall i b v, k <= i < k + n -> I i b v ->
       body i b v = OutOfFuel \/
       exists b' v', body i b v = Ok b' v' /\ I (S i) b' v') ->
    I k a w ->
    for_each (seq k n) body a w = OutOfFuel \/
    exists a' w', for_each (seq k n) body a w = Ok a' w' /\ I (k + n) a' w'.
Proof.
  induction n as [|n IH]; intros k a w Hstep Hinit; simpl.
  - right. exists a, w. rewrite Nat.add_0_r. auto.
  - destruct (Hstep k a w) as [Hb | (b' & v' & Hb & HI)]; [lia|exact Hinit| |].
    + left. unfold bind. rewrite Hb. reflexivity.
    + rewrite (bind_eq_Ok _ _ _ _ _ Hb).
      replace (k + S n) with (S k + n) by lia.
      apply IH; [|exact HI].
      intros i b v Hi. apply Hstep. lia.
Qed.

Lemma resample_progress (np : Z) (i : nat) :
  unit_tape -> (3 <= np)%Z ->
  forall (fuel : nat) (r : list nat) (w : world),
    resample fuel np i r w = OutOfFuel \/ exists r' w', resample fuel np i r w = Ok r' w'.
Proof.
  intros Hunit Hnp. induction fuel as [|fuel IH]; intros r w; cbn [resample];
    destruct (contains i r).
  - left. reflexivity.
  - right. unfold ret. eauto.
  - destruct (sample_total np 3 w Hunit ltac:(lia)) as (r' & w' & Hs).
    rewrite (bind_eq_Ok _ _ _ _ _ Hs). apply IH.
  - right. unfold ret. eauto.
Qed.

Lemma pickDonors_progress (fuel : nat) (self : jDE) (i : nat) (w : world) :
  unit_tape -> (3 <= Np self)%Z ->
  pickDonors fuel self i w = OutOfFuel \/ exists r w', pickDonors fuel self i w = Ok r w'.
Proof.
  intros Hunit Hnp. unfold pickDonors.
  destruct (sample_total (Np self) 3 w Hunit ltac:(lia)) as (r & w' & Hs).
  rewrite (bind_eq_Ok _ _ _ _ _ Hs). apply resample_progress; assumption.
Qed.

Lemma donor_value_total (pop : list SolutionjDE) (r : list nat) (k j rk : nat)
    (w : world) (n : nat) :
  Forall (fun p => n <= length (Solution p)) pop ->
  r !! k = Some rk -> rk < length pop -> j < n ->
  exists x, donor_value pop r k j w = Ok x w.
Proof.
  intros Hpop Hrk Hlt Hj.
  destruct (lookup_lt_is_Some_2 pop rk Hlt) as [p Hp].
  pose proof (proj1 (Forall_lookup _ _) Hpop rk p Hp) as Hlen. simpl in Hlen.
  destruct (lookup_lt_is_Some_2 (Solution p) j ltac:(lia)) as [x Hx].
  exists x. unfold donor_value, bind, getitem. rewrite Hrk. unfold ret at 1.
  rewrite Hp. unfold ret at 1. rewrite Hx. reflexivity.
Qed.

Lemma crossover_at_total (self : jDE) (pop : list SolutionjDE) (i : nat) (r : list nat)
    (jrand : Z) (j : nat) (c : SolutionjDE) (w : world) (f cr : Q) (n : nat) :
  F self = Some f -> Cr self = Some cr ->
  Forall (fun p => n <= length (Solution p)) pop ->
  length r = 3 -> Forall (fun x => x < length pop) r ->
  i < length pop -> j < n -> j < length (Solution c) ->
  exists c' w', crossover_at self pop i r jrand j c w = Ok c' w'.
Proof.
  intros HF HCr Hpop Hlen Hr Hi Hj Hjc.
  unfold crossover_at. unfold bind at 1. unfold random at 1.
  unfold bind at 1. rewrite HCr. unfold getattr, ret at 1.
  set (w1 := mkWorld (S (cursor w)) (evals w) (bests w)).
  destruct (_ || _).
  - destruct r as [|r0 [|r1 [|r2 [|]]]]; try discriminate.
    inversion Hr as [|? ? L0 Hr1]; subst. inversion Hr1 as [|? ? L1 Hr2]; subst.
    inversion Hr2 as [|? ? L2 _]; subst.
    destruct (donor_value_total pop [r0; r1; r2] 0 j r0 w1 n Hpop eq_refl L0 Hj) as [a Ha].
    destruct (donor_value_total pop [r0; r1; r2] 1 j r1 w1 n Hpop eq_refl L1 Hj) as [b Hb].
    destruct (donor_value_total pop [r0; r1; r2] 2 j r2 w1 n Hpop eq_refl L2 Hj) as [d Hd].
    rewrite (bind_eq_Ok _ _ _ _ _ Ha). unfold bind at 1. rewrite HF. unfold ret at 1.
    rewrite (bind_eq_Ok _ _ _ _ _ Hb), (bind_eq_Ok _ _ _ _ _ Hd).
    unfold bind, setitem. rewrite (proj2 (Nat.ltb_lt _ _) Hjc). unfold ret. eauto.
  - destruct (lookup_lt_is_Some_2 pop i Hi) as [p Hp].
    pose proof (proj1 (Forall_lookup _ _) Hpop i p Hp) as Hlp. simpl in Hlp.
    destruct (lookup_lt_is_Some_2 (Solution p) j ltac:(lia)) as [x Hx].
    unfold bind, getitem, setitem. rewrite Hp. unfold ret at 1. rewrite Hx. unfold ret at 1.
    rewrite (proj2 (Nat.ltb_lt _ _) Hjc). unfold ret. eauto.
Qed.

Lemma crossover_loop_total (self : jDE) (pop : list SolutionjDE) (i : nat) (r : list nat)
    (jrand : Z) (c : SolutionjDE) (w : world) (f cr : Q) (n : nat) :
  F self = Some f -> Cr self = Some cr ->
  Forall (fun p => n <= length (Solution p)) pop ->
  length r = 3 -> Forall (fun x => x < length pop) r ->
  i < length pop -> n <= length (Solution c) ->
  exists c' w', for_each (seq 0 n) (crossover_at self pop i r jrand) c w = Ok c' w'.
Proof.
  intros HF HCr Hpop Hlen Hr Hi Hc.
  destruct (for_each_seq_total
    (fun _ b _ => length (Solution b) = length (Solution c))
    (crossover_at self pop i r jrand) n 0 c w) as (c' & w' & Hrun & _).
  - intros j b v [_ Hj] Hb. simpl in Hj.
    destruct (crossover_at_total self pop i r jrand j b v f cr n HF HCr Hpop Hlen Hr Hi Hj
                ltac:(lia)) as (b' & v' & Hstep).
    exists b', v'. split; [exact Hstep|].
    apply crossover_at_Ok in Hstep as (cr0 & x & _ & _ & -> & _).
    cbn [Solution set_Solution]. rewrite length_insert. exact Hb.
  - reflexivity.
  - eauto.
Qed.

Lemma offspring_progress (fuel : nat) (self : jDE) (pop : list SolutionjDE) (i : nat)
    (w : world) (tao f cr : Q) :
  unit_tape ->
  Tao self = Some tao -> F self = Some f -> Cr self = Some cr ->
  (3 <= Np self)%Z ->
  i < Z.to_nat (Np self) -> Z.to_nat (Np self) <= length pop ->
  Forall (fun p => Z.to_nat (D self) <= length (Solution p)) pop ->
  offspring fuel self pop i w = OutOfFuel \/
  exists child w', offspring fuel self pop i w = Ok child w'.
Proof.
  intros Hunit HTao HF HCr Hnp Hi Hlen Hpop.
  destruct (lookup_lt_is_Some_2 pop i ltac:(lia)) as [p Hp].
  destruct (SolutionjDE_init_Ok (D self) (Lower self) (Upper self) w) as (v & Hv & Hvl).
  destruct (self_adapt_total self pop i sF (advance (Z.to_nat (D self)) w) tao p HTao Hp)
    as (f' & wb & Hf & _).
  destruct (self_adapt_total self pop i sCr wb tao p HTao Hp) as (cr' & wc & Hcr & _).
  unfold offspring.
  rewrite (bind_eq_Ok _ _ _ _ _ Hv), (bind_eq_Ok _ _ _ _ _ Hf), (bind_eq_Ok _ _ _ _ _ Hcr).
  destruct (pickDonors_progress fuel self i wc Hunit Hnp) as [Hr | (r & wd & Hr)].
  { left. unfold bind at 1. rewrite Hr. reflexivity. }
  rewrite (bind_eq_Ok _ _ _ _ _ Hr).
  apply (pickDonors_Ok _ _ _ _ _ _ Hunit) in Hr as ((Hr3 & _ & Hrlt) & _ & _).
  set (we := mkWorld (S (cursor wd)) (evals wd) (bests wd)).
  assert (Hu : random wd = Ok (tape (cursor wd)) we) by reflexivity.
  rewrite (bind_eq_Ok _ _ _ _ _ Hu).
  set (c0 := set_Cr (set_F _ f') cr').
  destruct (crossover_loop_total self pop i r
              (int (tape (cursor wd) * inject_Z (Np self))) c0 we f cr
              (Z.to_nat (D self)) HF HCr Hpop Hr3) as (c1 & wf & Hx).
  { eapply Forall_impl; [exact Hrlt|]. simpl. intros x Hx. lia. }
  { lia. }
  { unfold c0. cbn [Solution set_F set_Cr]. lia. }
  unfold range. rewrite (bind_eq_Ok _ _ _ _ _ Hx).
  apply crossover_loop_Ok in Hx as ((HD & _) & Hl & _).
  assert (Hwf : wf_solution c1).
  { unfold wf_solution. rewrite Hl, HD. unfold c0. cbn [Solution sD set_F set_Cr].
    exact Hvl. }
  rewrite (bind_eq_Ok _ _ _ _ _ (repair_is_map_clamp c1 wf Hwf)).
  right. unfold evaluate. eexists _, _. reflexivity.
Qed.

Lemma generationStep_progress (fuel : nat) (self : jDE) (pop : list SolutionjDE)
    (w : world) (tao f cr : Q) :
  unit_tape ->
  Tao self = Some tao -> F self = Some f -> Cr self = Some cr ->
  (3 <= Np self)%Z ->
  Z.to_nat (Np self) <= length pop ->
  Z.to_nat (Np self) <= length (Population self) ->
  Forall (fun p => Z.to_nat (D self) <= length (Solution p)) pop ->
  generationStep fuel self pop w = OutOfFuel \/
  exists st w', generationStep fuel self pop w = Ok st w'.
Proof.
  intros Hunit HTao HF HCr Hnp Hlen Hlen' Hpop. unfold generationStep, range.
  destruct (for_each_seq_safe
    (fun _ st _ => same_config self (snd st) /\ Population (snd st) = Population self)
    (generationStep_at fuel pop) (Z.to_nat (Np self)) 0 ([], self) w)
    as [H | (st & w' & H & _)]; [| |left; exact H|right; eauto].
  - intros i [np s] v [_ Hi] [Hcfg Hp]. simpl in Hi. cbn [fst snd] in *.
    destruct Hcfg as (HD & HNp & HnFES & HL & HU & HT & HFs & HCs).
    unfold generationStep_at. cbn [fst snd].
    destruct (offspring_progress fuel s pop i v tao f cr Hunit) as [Ho | (child & v1 & Ho)];
      try congruence; try (rewrite HNp; assumption); try (rewrite HNp; lia).
    { rewrite HD. exact Hpop. }
    { left. unfold bind at 1. rewrite Ho. reflexivity. }
    right. rewrite (bind_eq_Ok _ _ _ _ _ Ho).
    unfold bind at 1. unfold update_best at 1. fold (with_best s child).
    pose proof (with_best_config s child) as (_ & _ & _ & _ & _ & Hwp & _).
    destruct (lookup_lt_is_Some_2 (Population self) i ltac:(lia)) as [parent Hpar].
    destruct (lookup_lt_is_Some_2 pop i ltac:(lia)) as [q Hq].
    unfold bind at 1. unfold getitem at 1. rewrite Hwp, Hp, Hpar. unfold ret at 1.
    assert (Hkeep : same_config self (with_best s child) /\
                    Population (with_best s child) = Population self).
    { split; [|congruence].
      eapply same_config_trans; [|apply same_config_with_best].
      repeat split; assumption. }
    destruct (fit_ltb _ _).
    + unfold ret. eexists _, _. split; [reflexivity|exact Hkeep].
    + unfold bind, getitem. rewrite Hq. unfold ret.
      eexists _, _. split; [reflexivity|exact Hkeep].
  - split; [apply same_config_refl|reflexivity].
Qed.

Lemma sound_length (self : jDE) (pop : list SolutionjDE) :
  Forall (sound self) pop ->
  Forall (fun p => Z.to_nat (D self) <= length (Solution p)) pop.
Proof.
  intros H. eapply Forall_impl; [exact H|]. simpl.
  intros c ((HD & _ & _ & Hwf & _) & _). unfold wf_solution in Hwf. rewrite Hwf, HD. lia.
Qed.

Lemma run_loop_safe (self : jDE) (tao f cr : Q) (inner : nat) :
  unit_tape ->
  (Lower self <= Upper self)%Q ->
  Tao self = Some tao -> F self = Some f -> Cr self = Some cr ->
  (3 <= Np self)%Z ->
  forall (fuel : nat) (FEs : Z) (s : jDE) (w : world),
    standing self s -> Z.to_nat (Np self) <= length (Population s) ->
    no_raise (run_loop fuel inner FEs s w).
Proof.
  intros Hunit Hb HTao HF HCr Hnp.
  induction fuel as [|fuel IH]; intros FEs s w Hs Hlen; cbn [run_loop];
    destruct (Z.leb FEs (nFES s)); try exact I.
  pose proof Hs as ((HD & HNp & _ & _ & _ & HT & HFs & HCs) & Hpop & _).
  destruct (generationStep_progress inner s (Population s) w tao f cr Hunit)
    as [Hg | ([np s1] & w1 & Hg)]; try congruence; try (rewrite HNp; assumption).
  { rewrite HD. apply sound_length, Hpop. }
  { unfold bind. rewrite Hg. exact I. }
  rewrite (bind_eq_Ok _ _ _ _ _ Hg). cbn [fst snd].
  apply IH.
  - eapply generationStep_standing; eassumption.
  - cbn [Population set_Population].
    apply generationStep_Ok in Hg as (Hl & _). rewrite Hl, HNp. lia.
Qed.

Lemma run_start_standing (self : jDE) (w : world) :
  unit_tape ->
  (Lower self <= Upper self)%Q ->
  Forall (feasible self) (Population self) ->
  exists self1 w1,
    (forall fuel,
       run fuel self w =
       (s <- run_loop fuel fuel (Np self) self1 ;; ret (Fitness (bestSolution s), s)) w1) /\
    standing self self1 /\
    Z.to_nat (Np self) <= length (Population self1).
Proof.
  intros Hunit Hb Hfeas.
  destruct (initPopulation_feasible self w Hunit Hb) as (cs & w0 & Hinit & Hlen & Hcs & _).
  destruct (evalPopulation_Ok (set_Population self (Population self ++ cs)) w0)
    as (b1 & w1 & Heval & _ & (_ & _ & Hfold)).
  pose proof (evalPopulation_best _ _ _ _ Heval) as Hbest.
  cbn [Population bestSolution set_Population set_bestSolution] in *.
  set (ps := Population self ++ cs) in *.
  assert (Hps : Forall (feasible self) ps).
  { apply Forall_app. split; [exact Hfeas|].
    eapply Forall_impl; [exact Hcs|]. simpl. tauto. }
  exists (set_bestSolution (set_Population self (map evaluated ps)) b1), w1.
  split; [|split].
  - intros fuel. unfold run.
    rewrite (bind_eq_Ok _ _ _ _ _ Hinit), (bind_eq_Ok _ _ _ _ _ Heval). reflexivity.
  - unfold standing. cbn [Population bestSolution set_Population set_bestSolution].
    split; [repeat split|]. split; [|split].
    + apply Forall_forall. intros c Hc.
      apply list_elem_of_In, in_map_iff in Hc as (c0 & <- & Hc0).
      apply evaluated_sound. apply list_elem_of_In in Hc0.
      eapply (proj1 (Forall_forall _ _) Hps), Hc0.
    + destruct Hbest as [-> | Hin]; [left; reflexivity|right].
      apply in_map_iff in Hin as (c0 & <- & Hc0).
      apply evaluated_sound. apply list_elem_of_In in Hc0.
      eapply (proj1 (Forall_forall _ _) Hps), Hc0.
    + intros c Hc. apply in_map_iff in Hc as (c0 & <- & Hc0).
      rewrite Hfold. apply fold_improve_le_each.
      change (Fitness (evaluated c0)) with (Finite (fitness_of c0)).
      apply in_map, in_map, Hc0.
  - cbn [Population set_Population set_bestSolution].
    rewrite length_map. unfold ps. rewrite length_app. lia.
Qed.

(** X15. A configured engine raises nothing. With draws in [[0, 1)],
    [Lower <= Upper], the three attributes [Tao], [F] and [Cr] assigned,
    [NP >= 3] and a population that is empty (or holds feasible candidates
    only), [run] raises no exception: no index is out of range, no attribute
    is missing and [rnd.sample] is never asked for more than it has. Fuel
    may still run out: the donor loop has no bound ([NP = 3] never leaves
    it). *)
Theorem run_raises_nothing_when_configured (fuel : nat) (self : jDE) (w : world)
    (tao f cr : Q) :
  unit_tape ->
  (Lower self <= Upper self)%Q ->
  Forall (feasible self) (Population self) ->
  Tao self = Some tao -> F self = Some f -> Cr self = Some cr ->
  (3 <= Np self)%Z ->
  no_raise (run fuel self w).
Proof.
  intros Hunit Hb Hfeas HTao HF HCr Hnp.
  destruct (run_start_standing self w Hunit Hb Hfeas) as (self1 & w1 & Hrun & Hs & Hlen).
  rewrite Hrun. unfold bind.
  pose proof (run_loop_safe self tao f cr fuel Hunit Hb HTao HF HCr Hnp
                fuel (Np self) self1 w1 Hs Hlen) as Hsafe.
  destruct (run_loop fuel fuel (Np self) self1 w1); [exact I|exact Hsafe|exact I].
Qed.

End JDE.

(** * Concrete runs *)

Lemma tape0_unit : unit_tape tape0.
Proof.
  intros k. unfold tape0, Qle, Qlt. simpl.
  pose proof (Nat.mod_upper_bound (k * k * 31 + k * 17 + 5) 101 ltac:(lia)).
  lia.
Qed.

(** C1: with [NP = 0] and [nFES = 0] (so [nFES >= NP]) the constructed
    engine's [run] raises nothing, whatever fuel it is given. *)
Lemma run_empty_population_raises_nothing :
  exists self0 w0,
    jDE_init tape0 1 0 0 (1 # 2) (9 # 10) (-1) 1 w_init = Ok self0 w0 /\
    ~ (exists fuel x w', run tape0 sphere fuel self0 w0 = Raise x w').
Proof.
  eexists _, _. split; [vm_compute; reflexivity|].
  intros (fuel & x & w' & Hrun).
  rewrite run_diverges in Hrun by (vm_compute; discriminate).
  discriminate.
Qed.

(** C2: with [NP = 4] and [nFES = 8] a run performs 12 evaluations, one
    more than [nFES + NP - 1]. *)
Lemma run_overshoots_by_a_generation :
  exists self0 w0 v self' w',
    jDE_init tape0 1 4 8 (1 # 2) (9 # 10) (-1) 1 w_init = Ok self0 w0 /\
    run tape0 sphere 50 (tuned self0) w0 = Ok (v, self') w' /\
    length (evals w') = 12 /\
    ~ (Z.of_nat (length (evals w')) <= 8 + 4 - 1)%Z.
Proof.
  eexists _, _, _, _, _.
  split; [vm_compute; reflexivity|].
  split; [vm_compute; reflexivity|].
  split; [reflexivity|]. vm_compute. intros H. apply H. reflexivity.
Qed.

(** A run with [NP = 4] and [nFES = 8] to which C2 applies. *)
Lemma run_evaluation_count_witness :
  exists self0 w0 v self' w',
    jDE_init tape0 1 4 8 (1 # 2) (9 # 10) (-1) 1 w_init = Ok self0 w0 /\
    run tape0 sphere 50 (tuned self0) w0 = Ok (v, self') w' /\
    exists (g : nat) (fs : list Q),
      evals w' = rev fs ++ evals w0 /\
      Z.of_nat (length fs) = ((1 + Z.of_nat g) * Np (tuned self0))%Z /\
      (nFES (tuned self0) < Z.of_nat (length fs) <= nFES (tuned self0) + Np (tuned self0))%Z.
Proof.
  eexists _, _, _, _, _.
  split; [vm_compute; reflexivity|].
  split; [vm_compute; reflexivity|].
  eapply (run_evaluation_count tape0 sphere 50 (tuned _)).
  - reflexivity.
  - vm_compute. discriminate.
  - reflexivity.
  - vm_compute. reflexivity.
Defined.

(** C3: the offspring's own [F] and [Cr] are computed and then not used. At
    index 0 of [demo_engine 0.2] the offspring inherits [F = 0.5] and
    [Cr = 0.9]; the donors are [[1, 2, 3]] and [jrand = 1]. In dimension 0
    the test draw [0.5] is below the offspring's [Cr], yet the parent's
    value [0] is kept, because the test is against the engine's [Cr = 0.2].
    In dimension 1 the mutant is [1 + F * (3 - 2)] with the engine's
    [F = 1], not with the offspring's [F]. *)
Example crossover_reads_engine_parameters :
  exists child w',
    offspring (demo_tape (3 # 10)) sphere 5 (demo_engine (1 # 5)) demo_population 0 w_init
      = Ok child w' /\
    sF child = 1 # 2 /\
    sCr child = 9 # 10 /\
    pickDonors (demo_tape (3 # 10)) 5 (demo_engine (1 # 5)) 0 (mkWorld 4 [] [])
      = Ok [1; 2; 3] (mkWorld 7 [] []) /\
    int (demo_tape (3 # 10) 7 * inject_Z (Np (demo_engine (1 # 5)))) = 1%Z /\
    Qltb (demo_tape (3 # 10) 8) (sCr child) = true /\
    Solution child !! 0 = Some 0%Q /\
    Solution child !! 1 = Some (1 + 1 * (3 - 2))%Q /\
    ~ (1 + 1 * (3 - 2) == 1 + sF child * (3 - 2))%Q.
Proof.
  eexists _, _. split; [vm_compute; reflexivity|].
  repeat split; try (vm_compute; reflexivity).
  vm_compute. discriminate.
Qed.

(** C4: [jrand] is [int(rnd.random() * self.Np)]. With [D = 2], [NP = 4]
    and the draw [0.9] it is 3, which is no dimension index; with the
    engine's [Cr = 0] no dimension takes the mutant value, and the offspring
    carries the parent's vector although the mutant value differs from the
    parent's in both dimensions. *)
Example jrand_ranges_over_population_size :
  exists child parent w',
    offspring (demo_tape (9 # 10)) sphere 5 (demo_engine 0) demo_population 0 w_init
      = Ok child w' /\
    demo_population !! 0 = Some parent /\
    int (demo_tape (9 # 10) 7 * inject_Z (Np (demo_engine 0))) = 3%Z /\
    D (demo_engine 0) = 2%Z /\
    pickDonors (demo_tape (9 # 10)) 5 (demo_engine 0) 0 (mkWorld 4 [] [])
      = Ok [1; 2; 3] (mkWorld 7 [] []) /\
    Solution parent = [0; 0]%Q /\
    ~ (1 + 1 * (3 - 2) == 0)%Q /\
    Solution child = Solution parent.
Proof.
  eexists _, _, _. split; [vm_compute; reflexivity|].
  split; [reflexivity|].
  repeat split; try (vm_compute; reflexivity).
  vm_compute. discriminate.
Qed.

(** C5: a population of three with inverted bounds is constructed without
    complaint. *)
Lemma constructor_accepts_invalid_configuration :
  exists self w0,
    jDE_init tape0 2 3 100 (1 # 2) (9 # 10) 1 0 w_init = Ok self w0 /\
    (Np self < 4)%Z /\ (Upper self <= Lower self)%Q.
Proof.
  eexists _, _. split; [vm_compute; reflexivity|].
  split; [reflexivity|]. vm_compute. discriminate.
Qed.

(** A generational transition of [demo_engine 0.9] to which C6 applies. *)
Lemma generationStep_selection_witness :
  exists newPopulation self' w',
    generationStep tape0 sphere 50 (demo_engine (9 # 10))
                   (Population (demo_engine (9 # 10))) w_init
      = Ok (newPopulation, self') w' /\
    length newPopulation = Z.to_nat (Np (demo_engine (9 # 10))) /\
    forall i, i < Z.to_nat (Np (demo_engine (9 # 10))) ->
      exists (parent child : SolutionjDE) (wi wi' : world),
        Population (demo_engine (9 # 10)) !! i = Some parent /\
        offspring tape0 sphere 50 (demo_engine (9 # 10))
                  (Population (demo_engine (9 # 10))) i wi = Ok child wi' /\
        newPopulation !! i =
          Some (if fit_ltb (Fitness child) (Fitness parent) then child else parent) /\
        (Fitness child = Fitness parent -> newPopulation !! i = Some parent) /\
        (forall c, newPopulation !! i = Some c -> fit_le (Fitness c) (Fitness parent)).
Proof.
  eexists _, _, _. split; [vm_compute; reflexivity|].
  eapply (generationStep_selection tape0 sphere 50 (demo_engine (9 # 10)) w_init).
  vm_compute. reflexivity.
Defined.

(** A run with [NP = 4] and [nFES = 8] to which C7 applies; it returns
    [4 / 10201]. *)
Lemma best_fitness_running_minimum_witness :
  exists self0 w0 v self' w',
    jDE_init tape0 1 4 8 (1 # 2) (9 # 10) (-1) 1 w_init = Ok self0 w0 /\
    run tape0 sphere 50 (tuned self0) w0 = Ok (v, self') w' /\
    v = Finite (4 # 10201) /\
    Fitness (bestSolution (tuned self0)) = Inf /\
    exists fs : list Q,
      evals w' = rev fs ++ evals w0 /\
      bests w' = rev (best_trace (Fitness (bestSolution (tuned self0))) fs) ++ bests w0 /\
      v = Fitness (bestSolution self') /\
      (forall k prev cur f,
         (Fitness (bestSolution (tuned self0)) :: best_trace (Fitness (bestSolution (tuned self0))) fs) !! k
           = Some prev ->
         best_trace (Fitness (bestSolution (tuned self0))) fs !! k = Some cur ->
         fs !! k = Some f ->
         cur = (if fit_ltb (Finite f) prev then Finite f else prev) /\ fit_le cur prev) /\
      (last (best_trace (Fitness (bestSolution (tuned self0))) fs) = Some v \/
       (fs = [] /\ v = Fitness (bestSolution (tuned self0)))) /\
      fit_le v (Fitness (bestSolution (tuned self0))) /\
      (forall f, In f fs -> fit_le v (Finite f)) /\
      (v = Fitness (bestSolution (tuned self0)) \/ exists f, In f fs /\ v = Finite f) /\
      (Fitness (bestSolution (tuned self0)) = Inf -> fs <> [] ->
       exists f, In f fs /\ v = Finite f).
Proof.
  eexists _, _, _, _, _.
  split; [vm_compute; reflexivity|].
  split; [vm_compute; reflexivity|].
  split; [reflexivity|].
  split; [reflexivity|].
  eapply (best_fitness_running_minimum tape0 sphere 50 (tuned _)).
  vm_compute. reflexivity.
Defined.

(** An offspring of [demo_engine 0.9] to which C8 applies. *)
Lemma offspring_donors_distinct_witness :
  exists child w',
    offspring tape0 sphere 50 (demo_engine (9 # 10)) demo_population 0 w_init
      = Ok child w' /\
    exists (r0 r1 r2 : nat) (c0 : SolutionjDE) (f_own cr_own : Q) (wa wb w1 wj : world),
      SolutionjDE_init tape0 (D (demo_engine (9 # 10))) (Lower (demo_engine (9 # 10)))
                       (Upper (demo_engine (9 # 10))) w_init = Ok c0 wa /\
      self_adapt tape0 (demo_engine (9 # 10)) demo_population 0 sF wa = Ok f_own wb /\
      self_adapt tape0 (demo_engine (9 # 10)) demo_population 0 sCr wb = Ok cr_own w1 /\
      pickDonors tape0 50 (demo_engine (9 # 10)) 0 w1 = Ok [r0; r1; r2] wj /\
      r0 <> r1 /\ r0 <> r2 /\ r1 <> r2 /\
      r0 <> 0 /\ r1 <> 0 /\ r2 <> 0 /\
      (Z.of_nat r0 < Np (demo_engine (9 # 10)))%Z /\
      (Z.of_nat r1 < Np (demo_engine (9 # 10)))%Z /\
      (Z.of_nat r2 < Np (demo_engine (9 # 10)))%Z /\
      cursor w' = S (cursor wj) + Z.to_nat (D (demo_engine (9 # 10))) /\
      sF child = f_own /\ sCr child = cr_own /\
      length (Solution child) = Z.to_nat (D (demo_engine (9 # 10))) /\
      forall j, j < Z.to_nat (D (demo_engine (9 # 10))) ->
        exists cr v,
          Cr (demo_engine (9 # 10)) = Some cr /\
          crossed (demo_engine (9 # 10)) demo_population 0 [r0; r1; r2]
                  (int (tape0 (cursor wj) * inject_Z (Np (demo_engine (9 # 10))))) cr
                  (tape0 (S (cursor wj) + j)) j v /\
          Solution child !! j =
            Some (clamp (Lower (demo_engine (9 # 10))) (Upper (demo_engine (9 # 10))) v).
Proof.
  eexists _, _. split; [vm_compute; reflexivity|].
  eapply (offspring_donors_distinct tape0 sphere 50 (demo_engine (9 # 10))
            demo_population 0 w_init); [exact tape0_unit|].
  vm_compute. reflexivity.
Defined.

(** C9 at [NP = 4], [nFES = 3]. *)
Lemma run_budget_below_population_witness :
  (0 < 3 < 4)%Z /\
  exists self0 w0 cs w1 v self' w',
    jDE_init tape0 1 4 3 (1 # 2) (9 # 10) (-1) 1 w_init = Ok self0 w0 /\
    initPopulation tape0 self0 w0 = Ok (set_Population self0 cs) w1 /\
    length cs = Z.to_nat 4 /\
    run tape0 sphere 0 self0 w0 = Ok (v, self') w' /\
    Population self' = map (evaluated sphere) cs /\
    cursor w' = cursor w1 /\
    evals w' = rev (map (fitness_of sphere) cs) ++ evals w_init /\
    (forall c, In c cs -> fit_le v (Finite (fitness_of sphere c))) /\
    (exists c, In c cs /\ v = Finite (fitness_of sphere c)).
Proof.
  split; [lia|].
  apply (run_budget_below_population tape0 sphere 1 4 3 (1 # 2) (9 # 10) (-1) 1 w_init 0).
  lia.
Defined.

(** C10 at the vector [[2, -3, 0.5]] with bounds [[-1, 1]]. *)
Lemma repair_idempotent_in_bounds_witness :
  let c := mkSolution 3 (-1) 1 (1 # 2) (9 # 10) [2; -3; 1 # 2]%Q Inf in
  wf_solution c /\ (LB c <= UB c)%Q /\
  exists c',
    repair c w_init = Ok c' w_init /\
    repair c' w_init = Ok c' w_init /\
    length (Solution c') = length (Solution c) /\
    (forall i y, Solution c' !! i = Some y -> (LB c <= y <= UB c)%Q) /\
    (forall i x, Solution c !! i = Some x ->
       ((UB c < x)%Q -> Solution c' !! i = Some (UB c)) /\
       ((x < LB c)%Q -> Solution c' !! i = Some (LB c)) /\
       ((LB c <= x <= UB c)%Q -> Solution c' !! i = Some x)).
Proof.
  assert (Hb : (-1 <= 1)%Q) by (vm_compute; discriminate).
  split; [reflexivity|]. split; [exact Hb|].
  apply (repair_idempotent_in_bounds
           (mkSolution 3 (-1) 1 (1 # 2) (9 # 10) [2; -3; 1 # 2]%Q Inf) w_init).
  - reflexivity.
  - exact Hb.
Defined.

(** ** Further properties at concrete inputs *)

Lemma unit_bounds : (-1 <= 1)%Q.
Proof. vm_compute. discriminate. Qed.

Lemma demo_bounds : (Lower (demo_engine (9 # 10)) <= Upper (demo_engine (9 # 10)))%Q.
Proof. vm_compute. discriminate. Qed.

Lemma demo_population_sound :
  Forall (sound sphere (demo_engine (9 # 10))) demo_population.
Proof.
  unfold demo_population.
  repeat (constructor;
          [split; [|reflexivity]; unfold feasible; repeat split; try reflexivity;
           repeat constructor; vm_compute; discriminate|]).
  constructor.
Qed.

(** X1 at [D = 3] and bounds [[-1, 1]]. *)
Lemma fresh_candidate_within_bounds_witness :
  exists c w',
    SolutionjDE_init tape0 3 (-1) 1 w_init = Ok c w' /\
    sD c = 3%Z /\ LB c = (-1)%Q /\ UB c = 1%Q /\
    sF c = 1 # 2 /\ sCr c = 9 # 10 /\ Fitness c = Inf /\
    length (Solution c) = Z.to_nat 3 /\
    all_within (-1) 1 (Solution c) /\
    cursor w' = cursor w_init + Z.to_nat 3 /\ same_logs w_init w'.
Proof.
  apply (fresh_candidate_within_bounds tape0 3 (-1) 1 w_init tape0_unit unit_bounds).
Defined.

(** An offspring of [demo_engine 0.9] to which X3 applies. *)
Lemma offspring_construction_witness :
  exists child w',
    offspring tape0 sphere 50 (demo_engine (9 # 10)) demo_population 0 w_init
      = Ok child w' /\
    exists (r : list nat) (w1 wj : world),
      (exists tao, Tao (demo_engine (9 # 10)) = Some tao) /\
      adapted tape0 demo_population 0 sF (sF child) /\
      adapted tape0 demo_population 0 sCr (sCr child) /\
      pickDonors tape0 50 (demo_engine (9 # 10)) 0 w1 = Ok r wj /\
      sD child = D (demo_engine (9 # 10)) /\
      LB child = Lower (demo_engine (9 # 10)) /\
      UB child = Upper (demo_engine (9 # 10)) /\
      length (Solution child) = Z.to_nat (D (demo_engine (9 # 10))) /\
      Fitness child = Finite (sphere (sD child) (Solution child)) /\
      forall j, j < Z.to_nat (D (demo_engine (9 # 10))) ->
        exists cr v,
          Cr (demo_engine (9 # 10)) = Some cr /\
          crossed (demo_engine (9 # 10)) demo_population 0 r
                  (int (tape0 (cursor wj) * inject_Z (Np (demo_engine (9 # 10))))) cr
                  (tape0 (S (cursor wj) + j)) j v /\
          Solution child !! j =
            Some (clamp (Lower (demo_engine (9 # 10))) (Upper (demo_engine (9 # 10))) v).
Proof.
  eexists _, _. split; [vm_compute; reflexivity|].
  eapply (offspring_construction tape0 sphere 50 (demo_engine (9 # 10))
            demo_population 0 w_init).
  vm_compute. reflexivity.
Defined.

(** A generational transition of [demo_engine 0.9] to which X4 applies. *)
Lemma generationStep_keeps_population_sound_witness :
  exists newPop self' w',
    generationStep tape0 sphere 50 (demo_engine (9 # 10)) demo_population w_init
      = Ok (newPop, self') w' /\
    Forall (sound sphere (demo_engine (9 # 10))) newPop /\
    length newPop = Z.to_nat (Np (demo_engine (9 # 10))) /\
    length (evals w') = length (evals w_init) + Z.to_nat (Np (demo_engine (9 # 10))) /\
    same_config (demo_engine (9 # 10)) self' /\
    Population self' = Population (demo_engine (9 # 10)).
Proof.
  eexists _, _, _. split; [vm_compute; reflexivity|].
  eapply (generationStep_keeps_population_sound tape0 sphere 50 (demo_engine (9 # 10))
            demo_population w_init _ _ _ demo_bounds demo_population_sound).
  vm_compute. reflexivity.
Defined.

(** A run with [NP = 4] and [nFES = 4] (one generation) to which X5 applies. *)
Lemma run_leaves_population_sound_witness :
  exists self0 w0 v self' w',
    jDE_init tape0 1 4 4 (1 # 2) (9 # 10) (-1) 1 w_init = Ok self0 w0 /\
    run tape0 sphere 50 (tuned self0) w0 = Ok (v, self') w' /\
    same_config (tuned self0) self' /\
    forall c, In c (Population self') ->
      sD c = D (tuned self0) /\ LB c = Lower (tuned self0) /\ UB c = Upper (tuned self0) /\
      length (Solution c) = Z.to_nat (D (tuned self0)) /\
      all_within (Lower (tuned self0)) (Upper (tuned self0)) (Solution c) /\
      Fitness c = Finite (sphere (sD c) (Solution c)).
Proof.
  eexists _, _, _, _, _.
  split; [vm_compute; reflexivity|].
  match goal with |- ?R /\ _ => assert (Hrun : R) by (vm_compute; reflexivity) end.
  split; [exact Hrun|].
  eapply (run_leaves_population_sound tape0 sphere 50 (tuned _) (mkWorld 1 [] []));
    [exact tape0_unit|exact unit_bounds|constructor|exact Hrun].
Defined.

(** The same run, to which X6 applies. *)
Lemma run_returns_fitness_of_feasible_best_witness :
  exists self0 w0 v self' w',
    jDE_init tape0 1 4 4 (1 # 2) (9 # 10) (-1) 1 w_init = Ok self0 w0 /\
    run tape0 sphere 50 (tuned self0) w0 = Ok (v, self') w' /\
    v = Fitness (bestSolution self') /\
    (forall c, In c (Population self') -> fit_le v (Fitness c)) /\
    (Fitness (bestSolution (tuned self0)) = Inf ->
     (1 <= Np (tuned self0))%Z ->
     feasible (tuned self0) (bestSolution self') /\
     v = Finite (sphere (sD (bestSolution self')) (Solution (bestSolution self')))).
Proof.
  eexists _, _, _, _, _.
  split; [vm_compute; reflexivity|].
  match goal with |- ?R /\ _ => assert (Hrun : R) by (vm_compute; reflexivity) end.
  split; [exact Hrun|].
  eapply (run_returns_fitness_of_feasible_best tape0 sphere 50 (tuned _) (mkWorld 1 [] []));
    [exact tape0_unit|exact unit_bounds|constructor|exact Hrun].
Defined.

(** X7 at [NP = 2], [nFES = 8]. *)
Lemma run_too_few_candidates_for_sample_witness :
  exists self0 w0,
    jDE_init tape0 1 2 8 (1 # 2) (9 # 10) (-1) 1 w_init = Ok self0 w0 /\
    exists w',
      run tape0 sphere 1 (tuned self0) w0 = Raise ValueError w' /\
      length (evals w') =
        length (evals w0) + length (Population (tuned self0)) + Z.to_nat (Np (tuned self0)).
Proof.
  eexists _, _. split; [vm_compute; reflexivity|].
  eapply (run_too_few_candidates_for_sample tape0 sphere 0 (tuned _) _ (1 # 10)).
  - reflexivity.
  - simpl. lia.
  - simpl. lia.
Defined.

(** X8 at [NP = 3], [nFES = 8]. *)
Lemma run_three_candidates_never_ends_witness :
  exists self0 w0,
    jDE_init tape0 1 3 8 (1 # 2) (9 # 10) (-1) 1 w_init = Ok self0 w0 /\
    forall fuel, run tape0 sphere fuel (tuned self0) w0 = OutOfFuel.
Proof.
  eexists _, _. split; [vm_compute; reflexivity|].
  eapply (run_three_candidates_never_ends tape0 sphere (tuned _) _ (1 # 10)).
  - exact tape0_unit.
  - reflexivity.
  - reflexivity.
  - simpl. lia.
Defined.

(** X9 on an engine to which [Tao] and [F] only were assigned. *)
Lemma run_without_Cr_never_returns_witness :
  exists self0 w0,
    jDE_init tape0 1 4 8 (1 # 2) (9 # 10) (-1) 1 w_init = Ok self0 w0 /\
    ~ (exists fuel v self' w',
         run tape0 sphere fuel
             (mkEngine (D self0) (Np self0) (nFES self0) (Lower self0) (Upper self0)
                       (Population self0) (bestSolution self0)
                       (Some (1 # 10)) (Some (1 # 2)) None) w0
         = Ok (v, self') w').
Proof.
  eexists _, _. split; [vm_compute; reflexivity|].
  eapply (run_without_Cr_never_returns tape0 sphere).
  - reflexivity.
  - simpl. lia.
  - simpl. lia.
Defined.

(** X10 on the engine constructed with [D = 1], [NP = 4]. *)
Lemma initPopulation_appends_fresh_candidates_witness :
  exists self0 w0,
    jDE_init tape0 1 4 8 (1 # 2) (9 # 10) (-1) 1 w_init = Ok self0 w0 /\
    exists cs w',
      initPopulation tape0 self0 w0 = Ok (set_Population self0 (Population self0 ++ cs)) w' /\
      length cs = Z.to_nat (Np self0) /\
      (forall c, In c cs ->
         sD c = D self0 /\ LB c = Lower self0 /\ UB c = Upper self0 /\
         length (Solution c) = Z.to_nat (D self0) /\
         all_within (Lower self0) (Upper self0) (Solution c) /\
         Fitness c = Inf /\ sF c = 1 # 2 /\ sCr c = 9 # 10) /\
      cursor w' = cursor w0 + Z.to_nat (Np self0) * Z.to_nat (D self0) /\
      same_logs w0 w'.
Proof.
  eexists _, _. split; [vm_compute; reflexivity|].
  eapply (initPopulation_appends_fresh_candidates tape0).
  - exact tape0_unit.
  - exact unit_bounds.
Defined.

(** A run with [NP = 4] and [nFES = 4] (one generation) to which X12 applies. *)
Lemma run_slots_never_worsen_witness :
  exists self0 w0 v self' w',
    jDE_init tape0 1 4 4 (1 # 2) (9 # 10) (-1) 1 w_init = Ok self0 w0 /\
    run tape0 sphere 50 (tuned self0) w0 = Ok (v, self') w' /\
    exists cs w1,
      initPopulation tape0 (tuned self0) w0 =
        Ok (set_Population (tuned self0) (Population (tuned self0) ++ cs)) w1 /\
      length cs = Z.to_nat (Np (tuned self0)) /\
      ((nFES (tuned self0) < Np (tuned self0))%Z ->
         Population self' = map (evaluated sphere) (Population (tuned self0) ++ cs)) /\
      ((Np (tuned self0) <= nFES (tuned self0))%Z ->
         length (Population self') = Z.to_nat (Np (tuned self0))) /\
      forall i, i < Z.to_nat (Np (tuned self0)) ->
        exists c0 c, (Population (tuned self0) ++ cs) !! i = Some c0 /\
                     Population self' !! i = Some c /\
                     fit_le (Fitness c) (Finite (fitness_of sphere c0)).
Proof.
  eexists _, _, _, _, _.
  split; [vm_compute; reflexivity|].
  match goal with |- ?R /\ _ => assert (Hrun : R) by (vm_compute; reflexivity) end.
  split; [exact Hrun|].
  exact (run_slots_never_worsen tape0 sphere 50 (tuned _) _ _ _ _ Hrun).
Defined.

(** X13 at the vector [[2, -3, 0.5]] with bounds [LB = 1], [UB = -1]. *)
Lemma repair_inverted_bounds_collapse_witness :
  let c := mkSolution 3 1 (-1) (1 # 2) (9 # 10) [2; -3; 1 # 2]%Q Inf in
  wf_solution c /\ (UB c < LB c)%Q /\
  repair c w_init = Ok (set_Solution c (repeat (LB c) (Z.to_nat (sD c)))) w_init.
Proof.
  split; [reflexivity|]. split; [reflexivity|].
  apply (repair_inverted_bounds_collapse
           (mkSolution 3 1 (-1) (1 # 2) (9 # 10) [2; -3; 1 # 2]%Q Inf) w_init);
    reflexivity.
Defined.

(** X15 on the tuned engine with [NP = 4] and [nFES = 8]. *)
Lemma run_raises_nothing_when_configured_witness :
  exists self0 w0,
    jDE_init tape0 1 4 8 (1 # 2) (9 # 10) (-1) 1 w_init = Ok self0 w0 /\
    no_raise (run tape0 sphere 50 (tuned self0) w0).
Proof.
  eexists _, _. split; [vm_compute; reflexivity|].
  eapply (run_raises_nothing_when_configured tape0 sphere 50 (tuned _) _
            (1 # 10) (1 # 2) (9 # 10)).
  - exact tape0_unit.
  - exact unit_bounds.
  - constructor.
  - reflexivity.
  - reflexivity.
  - reflexivity.
  - simpl. lia.
Defined.
